(** * nostr-loro-editor: the Loro/Nostr provider, the key store and the codec

    A shallow embedding of [src/lib/loro-nostr-provider.ts] and
    [src/lib/store.ts].  Byte arrays ([Uint8Array]) are lists of [byte];
    strings are [string]s whose characters are code units below 256, which is
    all that [btoa], [atob] and the hexadecimal key text ever accept. *)

From Stdlib Require Import ZArith NArith List String Ascii Strings.Byte Bool Lia.
From Stdlib Require Import Permutation Sorted DecimalString QArith.
Import ListNotations.

Close Scope Q_scope.
Local Open Scope Z_scope.

Definition bytes := list byte.

(** ** Exceptions and state

    The JavaScript values that are thrown, and a computation that threads a
    state [S] and either completes with a value or throws.  The state is kept
    as it is at the point of the throw: nothing is rolled back. *)

Module Js.

Inductive Exn :=
| Error (message : string)
| TypeError (message : string)
| SyntaxError (message : string)
| InvalidCharacterError
| Rejected (reason : string).

Definition M (S A : Type) : Type := S -> (Exn + A) * S.

Definition ret {S A} (a : A) : M S A := fun s => (inr a, s).

Definition bind {S A B} (m : M S A) (k : A -> M S B) : M S B :=
  fun s => match m s with
           | (inr a, s') => k a s'
           | (inl e, s') => (inl e, s')
           end.

Definition throw {S A} (e : Exn) : M S A := fun s => (inl e, s).

Definition try_catch {S A} (body : M S A) (handler : Exn -> M S A) : M S A :=
  fun s => match body s with
           | (inr a, s') => (inr a, s')
           | (inl e, s') => handler e s'
           end.

Definition get {S} : M S S := fun s => (inr s, s).
Definition gets {S A} (f : S -> A) : M S A := fun s => (inr (f s), s).
Definition modify {S} (f : S -> S) : M S unit := fun s => (inr tt, f s).

(** A value computed by a fallible pure step. *)
Definition lift {S A} (r : Exn + A) : M S A := fun s => (r, s).

Definition when {S} (c : bool) (m : M S unit) : M S unit :=
  if c then m else ret tt.

Fixpoint for_each {S A} (l : list A) (body : A -> M S unit) : M S unit :=
  match l with
  | [] => ret tt
  | x :: rest => bind (body x) (fun _ => for_each rest body)
  end.

End Js.

Declare Scope js_scope.
Delimit Scope js_scope with js.
Notation "x <- m ;; k" := (Js.bind m (fun x => k))
  (at level 61, m at next level, right associativity) : js_scope.
Notation "m ;; k" := (Js.bind m (fun _ => k))
  (at level 61, right associativity) : js_scope.

(** ** The codec: [bytesToBase64] and [base64ToBytes]

    [btoa] and [atob] are the platform's functions.  [btoa] is RFC 4648
    base64 with padding; [atob] is the forgiving decoder of the HTML
    standard: remove ASCII whitespace, drop one or two trailing [=] when the
    length is a multiple of four, fail on a length that is 1 modulo 4 or on a
    character outside the alphabet, then read 24 bits every four characters
    and drop the left-over bits of a final group of two or three. *)

Module Base64.

Local Open Scope N_scope.

Definition alphabet : list ascii :=
  list_ascii_of_string
    "ABCDEFGHIJKLMNOPQRSTUVWXYZabcdefghijklmnopqrstuvwxyz0123456789+/".

Definition pad : ascii := "="%char.

Definition b64_char (n : N) : ascii := nth (N.to_nat n) alphabet "A"%char.

Fixpoint index_from (i : N) (c : ascii) (l : list ascii) : option N :=
  match l with
  | [] => None
  | x :: rest => if Ascii.eqb x c then Some i else index_from (N.succ i) c rest
  end.

Definition b64_index (c : ascii) : option N := index_from 0 c alphabet.

(** The character codes of a binary string, three at a time. *)
Fixpoint encode (l : list N) : list ascii :=
  match l with
  | a :: b :: c :: rest =>
      let n := a * 65536 + b * 256 + c in
      b64_char (n / 262144) :: b64_char ((n / 4096) mod 64)
        :: b64_char ((n / 64) mod 64) :: b64_char (n mod 64) :: encode rest
  | [a; b] =>
      let n := a * 65536 + b * 256 in
      [b64_char (n / 262144); b64_char ((n / 4096) mod 64);
       b64_char ((n / 64) mod 64); pad]
  | [a] =>
      let n := a * 65536 in
      [b64_char (n / 262144); b64_char ((n / 4096) mod 64); pad; pad]
  | [] => []
  end.

Definition btoa (binary : string) : string :=
  string_of_list_ascii (encode (map N_of_ascii (list_ascii_of_string binary))).

Definition is_ascii_whitespace (c : ascii) : bool :=
  let n := N_of_ascii c in
  (n =? 9) || (n =? 10) || (n =? 12) || (n =? 13) || (n =? 32).

Definition is_pad (c : ascii) : bool := Ascii.eqb c pad.

(** Remove one or two [=] from the end. *)
Definition strip_padding (data : list ascii) : list ascii :=
  match rev data with
  | x :: y :: r =>
      if is_pad x then (if is_pad y then rev r else rev (y :: r)) else data
  | [x] => if is_pad x then [] else data
  | [] => data
  end.

Fixpoint sextets (data : list ascii) : option (list N) :=
  match data with
  | [] => Some []
  | c :: rest =>
      match b64_index c, sextets rest with
      | Some i, Some r => Some (i :: r)
      | _, _ => None
      end
  end.

(** Four sextets make three bytes; a final group of three makes two bytes
    and one of two makes one byte, the bits left over being dropped. *)
Fixpoint decode (l : list N) : list N :=
  match l with
  | a :: b :: c :: d :: rest =>
      let n := ((a * 64 + b) * 64 + c) * 64 + d in
      n / 65536 :: (n / 256) mod 256 :: n mod 256 :: decode rest
  | [a; b; c] =>
      let n := ((a * 64 + b) * 64 + c) / 4 in
      [n / 256; n mod 256]
  | [a; b] => [(a * 64 + b) / 16]
  | _ => []
  end.

Definition atob (base64 : string) : Js.Exn + string :=
  let data :=
    filter (fun c => negb (is_ascii_whitespace c)) (list_ascii_of_string base64) in
  let data :=
    if N.of_nat (List.length data) mod 4 =? 0 then strip_padding data else data in
  if N.of_nat (List.length data) mod 4 =? 1 then inl Js.InvalidCharacterError
  else match sextets data with
       | None => inl Js.InvalidCharacterError
       | Some s => inr (string_of_list_ascii (map ascii_of_N (decode s)))
       end.

(** [String.fromCharCode(bytes[i])] for each byte, then [btoa]. *)
Definition bytesToBase64 (b : bytes) : string :=
  btoa (string_of_list_ascii (map ascii_of_byte b)).

(** [atob], then [charCodeAt(i)] stored in a [Uint8Array]. *)
Definition base64ToBytes (base64 : string) : Js.Exn + bytes :=
  match atob base64 with
  | inl e => inl e
  | inr binary => inr (map byte_of_ascii (list_ascii_of_string binary))
  end.

(** The sextets that [encode] turns into characters, and the padding it
    appends. *)
Fixpoint sextets_of (l : list N) : list N :=
  match l with
  | a :: b :: c :: rest =>
      let n := a * 65536 + b * 256 + c in
      n / 262144 :: (n / 4096) mod 64 :: (n / 64) mod 64 :: n mod 64
        :: sextets_of rest
  | [a; b] =>
      let n := a * 65536 + b * 256 in
      [n / 262144; (n / 4096) mod 64; (n / 64) mod 64]
  | [a] => let n := a * 65536 in [n / 262144; (n / 4096) mod 64]
  | [] => []
  end.

Fixpoint padding_of (l : list N) : list ascii :=
  match l with
  | _ :: _ :: _ :: rest => padding_of rest
  | [_; _] => [pad]
  | [_] => [pad; pad]
  | [] => []
  end.

Definition octet (n : N) : Prop := n < 256.

End Base64.

(** ** The document engine

    [LoroDoc] is used through four methods.  [import] throws on a payload it
    cannot decode; [export] in mode ['update'] gives the changes since a
    version, or all of them when no version is given. *)

Class LoroDoc := {
  Doc : Type;
  Version : Type;
  doc_import : Doc -> bytes -> Js.Exn + Doc;
  doc_export_update : Doc -> option Version -> bytes;
  doc_export_snapshot : Doc -> bytes;
  doc_version : Doc -> Version;
}.

(** A document that is the sequence of the payloads it was given, a version
    being how many of them there were.  It stands for the engine where a
    statement is checked on a running example. *)
Module OpLog.

Definition import (d : list bytes) (data : bytes) : Js.Exn + list bytes :=
  match data with
  | [] => inl (Js.Error "Decode error")
  | _ => inr (d ++ [data])
  end.

Definition export_update (d : list bytes) (from : option nat) : bytes :=
  List.concat (skipn (match from with Some v => v | None => 0%nat end) d).

#[export] Instance doc : LoroDoc := {|
  Doc := list bytes;
  Version := nat;
  doc_import := import;
  doc_export_update := export_update;
  doc_export_snapshot := @List.concat byte;
  doc_version := @List.length bytes;
|}.

End OpLog.

(** ** The provider *)

Module Provider.

Local Open Scope string_scope.
Local Open Scope Z_scope.
Local Open Scope js_scope.

(** [NOSTR_KINDS] *)
Definition DOCUMENT_META : Z := 30078.
Definition DOCUMENT_SNAPSHOT : Z := 30079.
Definition CRDT_UPDATE : Z := 21000.
Definition PRESENCE : Z := 21001.
Definition PING : Z := 21002.
Definition PONG : Z := 21003.

Record SyncMessage := {
  msg_type : string;
  msg_docId : string;
  msg_data : string;
  msg_timestamp : Z;
}.

Record CursorPosition := { anchor : Z; head : Z }.

Record PresenceContent := {
  pc_name : option string;
  pc_color : option string;
  pc_cursor : option CursorPosition;
}.

(** The [content] of an event is JSON text.  It is kept as what [JSON.parse]
    makes of it: nothing when the text does not parse (or is [null], of
    which no field can be read), and otherwise the value, read as an
    envelope, [data] being the text that [atob] gets, or as a presence
    record, which has no [data]. *)
Inductive Json :=
| JEnvelope (m : SyncMessage)
| JPresence (p : PresenceContent).

(** The fields of [Event] that the provider reads or sets; [id] and [sig]
    are made by [finalizeEvent] and never looked at. *)
Record NostrEvent := {
  pubkey : string;
  created_at : Z;
  kind : Z;
  tags : list (list string);
  content : option Json;
}.

Record Participant := {
  part_pubkey : string;
  part_name : option string;
  part_color : string;
  part_cursor : option CursorPosition;
  part_lastSeen : Z;
}.

Record Filter := {
  kinds : list Z;
  d_tag : list string;
  since : option Z;
  limit : option Z;
}.

Inductive ProviderEventType :=
| Sync | Update | Connected | Disconnected | Error | Awareness.

(** The objects passed to the listeners. *)
Inductive Payload :=
| Status (status : string) (snapshot : option bool)
| From (from : string) (timestamp : Z)
| Relays (relays : list string)
| Failure (message : string) (error : Js.Exn)
| Participants (participants : list Participant)
| Empty.

(** What the provider does to the world around it, in the order it does
    it.  [Emit] is a call of [emit], whatever listeners are registered. *)
Inductive Effect :=
| DocImport (data : bytes)
| Emit (event : ProviderEventType) (data : Payload)
| PoolSubscribe (relays : list string) (filter : Filter)
| PoolQuery (relays : list string) (filter : Filter)
| PoolPublish (relays : list string) (event : NostrEvent)
| PoolClose (relays : list string)
| SetTimeout (id : positive) (delay : Z)
| ClearTimeout (id : positive)
| ConsoleError (message : string) (error : Js.Exn).

(** How the promise of one relay settles. *)
Inductive PromiseResult := fulfilled | rejected.

Definition is_fulfilled (r : PromiseResult) : bool :=
  match r with fulfilled => true | rejected => false end.

(** [JSON.parse(event.content)] *)
Definition JSON_parse (c : option Json) : Js.Exn + Json :=
  match c with
  | Some j => inr j
  | None => inl (Js.SyntaxError "Unexpected token")
  end.

(** [message.data], handed to [atob]: a missing field is [undefined], which
    [atob] reads as the text ["undefined"]. *)
Definition message_data (message : Json) : string :=
  match message with
  | JEnvelope m => msg_data m
  | JPresence _ => "undefined"
  end.

Definition data_name (data : Json) : option string :=
  match data with JPresence p => pc_name p | JEnvelope _ => None end.

Definition data_color (data : Json) : option string :=
  match data with JPresence p => pc_color p | JEnvelope _ => None end.

Definition data_cursor (data : Json) : option CursorPosition :=
  match data with JPresence p => pc_cursor p | JEnvelope _ => None end.

(** [x << 5] works on the 32-bit two's complement reading of [x]. *)
Definition toInt32 (z : Z) : Z :=
  let m := z mod 4294967296 in
  if m <? 2147483648 then m else m - 4294967296.

Definition decimal (z : Z) : string :=
  DecimalString.NilZero.string_of_uint (N.to_uint (Z.to_N z)).

Definition generateColor (seed : string) : string :=
  let hash :=
    fold_left
      (fun hash c =>
         Z.of_N (N_of_ascii c) + (toInt32 (Z.shiftl (toInt32 hash) 5) - hash))
      (list_ascii_of_string seed) 0 in
  let hue := Z.abs (Z.rem hash 360) in
  "hsl(" ++ decimal hue ++ ", 70%, 50%)".

(** [events.sort((a, b) => a.created_at - b.created_at)]: the sort is
    stable, so events of one timestamp keep the order they came in. *)
Fixpoint insert (e : NostrEvent) (l : list NostrEvent) : list NostrEvent :=
  match l with
  | [] => [e]
  | x :: rest =>
      if created_at e <=? created_at x then e :: x :: rest
      else x :: insert e rest
  end.

Fixpoint sort (l : list NostrEvent) : list NostrEvent :=
  match l with
  | [] => []
  | e :: rest => insert e (sort rest)
  end.

(** [Map.set]: a key that is present keeps its place. *)
Fixpoint map_set {V} (k : string) (v : V) (m : list (string * V))
  : list (string * V) :=
  match m with
  | [] => [(k, v)]
  | (k', v') :: rest =>
      if String.eqb k' k then (k, v) :: rest else (k', v') :: map_set k v rest
  end.

(** A string in a condition: the empty one counts as false. *)
Definition truthy (s : option string) : bool :=
  match s with
  | Some x => negb (String.eqb x "")
  | None => false
  end.

Section WithDoc.
Context {loro : LoroDoc}.

(** The fields of [LoroNostrProvider]. *)
Record Fields := {
  doc : Doc;
  relays : list string;
  docId : string;
  publicKey : string;
  batchInterval : Z;
  syncOnConnect : bool;
  subscriptionId : option string;
  pendingUpdates : list bytes;
  batchTimer : option positive;
  isConnected : bool;
  lastSyncTimestamp : Z;
  awareness : list (string * Participant);
  lastExportedVersion : option Version;
}.

(** The provider together with what it runs in: the clock read by
    [Date.now()], the timeouts that are armed (each one calls
    [flushUpdates] when it expires), the next timer handle, and the effects
    so far, oldest first. *)
Record State := {
  this : Fields;
  now : Z;
  timers : list positive;
  nextTimer : positive;
  log : list Effect;
}.

Definition with_this (f : Fields -> Fields) (s : State) : State :=
  {| this := f (this s); now := now s; timers := timers s;
     nextTimer := nextTimer s; log := log s |}.

Definition set_doc (d : Doc) (p : Fields) : Fields :=
  {| doc := d; relays := relays p; docId := docId p;
     publicKey := publicKey p; batchInterval := batchInterval p;
     syncOnConnect := syncOnConnect p; subscriptionId := subscriptionId p;
     pendingUpdates := pendingUpdates p; batchTimer := batchTimer p;
     isConnected := isConnected p; lastSyncTimestamp := lastSyncTimestamp p;
     awareness := awareness p; lastExportedVersion := lastExportedVersion p |}.

Definition set_subscriptionId (x : option string) (p : Fields) : Fields :=
  {| doc := doc p; relays := relays p; docId := docId p;
     publicKey := publicKey p; batchInterval := batchInterval p;
     syncOnConnect := syncOnConnect p; subscriptionId := x;
     pendingUpdates := pendingUpdates p; batchTimer := batchTimer p;
     isConnected := isConnected p; lastSyncTimestamp := lastSyncTimestamp p;
     awareness := awareness p; lastExportedVersion := lastExportedVersion p |}.

Definition set_pendingUpdates (x : list bytes) (p : Fields) : Fields :=
  {| doc := doc p; relays := relays p; docId := docId p;
     publicKey := publicKey p; batchInterval := batchInterval p;
     syncOnConnect := syncOnConnect p; subscriptionId := subscriptionId p;
     pendingUpdates := x; batchTimer := batchTimer p;
     isConnected := isConnected p; lastSyncTimestamp := lastSyncTimestamp p;
     awareness := awareness p; lastExportedVersion := lastExportedVersion p |}.

Definition set_batchTimer (x : option positive) (p : Fields) : Fields :=
  {| doc := doc p; relays := relays p; docId := docId p;
     publicKey := publicKey p; batchInterval := batchInterval p;
     syncOnConnect := syncOnConnect p; subscriptionId := subscriptionId p;
     pendingUpdates := pendingUpdates p; batchTimer := x;
     isConnected := isConnected p; lastSyncTimestamp := lastSyncTimestamp p;
     awareness := awareness p; lastExportedVersion := lastExportedVersion p |}.

Definition set_isConnected (x : bool) (p : Fields) : Fields :=
  {| doc := doc p; relays := relays p; docId := docId p;
     publicKey := publicKey p; batchInterval := batchInterval p;
     syncOnConnect := syncOnConnect p; subscriptionId := subscriptionId p;
     pendingUpdates := pendingUpdates p; batchTimer := batchTimer p;
     isConnected := x; lastSyncTimestamp := lastSyncTimestamp p;
     awareness := awareness p; lastExportedVersion := lastExportedVersion p |}.

Definition set_lastSyncTimestamp (x : Z) (p : Fields) : Fields :=
  {| doc := doc p; relays := relays p; docId := docId p;
     publicKey := publicKey p; batchInterval := batchInterval p;
     syncOnConnect := syncOnConnect p; subscriptionId := subscriptionId p;
     pendingUpdates := pendingUpdates p; batchTimer := batchTimer p;
     isConnected := isConnected p; lastSyncTimestamp := x;
     awareness := awareness p; lastExportedVersion := lastExportedVersion p |}.

Definition set_awareness (x : list (string * Participant)) (p : Fields)
  : Fields :=
  {| doc := doc p; relays := relays p; docId := docId p;
     publicKey := publicKey p; batchInterval := batchInterval p;
     syncOnConnect := syncOnConnect p; subscriptionId := subscriptionId p;
     pendingUpdates := pendingUpdates p; batchTimer := batchTimer p;
     isConnected := isConnected p; lastSyncTimestamp := lastSyncTimestamp p;
     awareness := x; lastExportedVersion := lastExportedVersion p |}.

Definition set_lastExportedVersion (x : option Version) (p : Fields)
  : Fields :=
  {| doc := doc p; relays := relays p; docId := docId p;
     publicKey := publicKey p; batchInterval := batchInterval p;
     syncOnConnect := syncOnConnect p; subscriptionId := subscriptionId p;
     pendingUpdates := pendingUpdates p; batchTimer := batchTimer p;
     isConnected := isConnected p; lastSyncTimestamp := lastSyncTimestamp p;
     awareness := awareness p; lastExportedVersion := x |}.

Definition P := Js.M State.

Definition read {A} (f : Fields -> A) : P A := Js.gets (fun s => f (this s)).

Definition write (f : Fields -> Fields) : P unit := Js.modify (with_this f).

Definition tell (e : Effect) : P unit :=
  Js.modify (fun s =>
    {| this := this s; now := now s; timers := timers s;
       nextTimer := nextTimer s; log := log s ++ [e] |}).

Definition Date_now : P Z := Js.gets now.

Definition setTimeout (delay : Z) : P positive :=
  fun s =>
    let id := nextTimer s in
    (inr id,
     {| this := this s; now := now s; timers := timers s ++ [id];
        nextTimer := Pos.succ id; log := log s ++ [SetTimeout id delay] |}).

Definition clearTimeout (id : positive) : P unit :=
  Js.modify (fun s =>
    {| this := this s; now := now s;
       timers := filter (fun t => negb (Pos.eqb t id)) (timers s);
       nextTimer := nextTimer s; log := log s ++ [ClearTimeout id] |}).

Definition emit (event : ProviderEventType) (data : Payload) : P unit :=
  tell (Emit event data).

Definition console_error (message : string) (error : Js.Exn) : P unit :=
  tell (ConsoleError message error).

(** [this.doc.import(data)] *)
Definition import (data : bytes) : P unit :=
  tell (DocImport data);;
  d <- read doc;;
  d' <- Js.lift (doc_import d data);;
  write (set_doc d').

(** [applyUpdate]: decode the envelope and import its payload.  Whatever is
    thrown on the way is caught and logged. *)
Definition applyUpdate (event : NostrEvent) : P unit :=
  Js.try_catch
    (message <- Js.lift (JSON_parse (content event));;
     data <- Js.lift (Base64.base64ToBytes (message_data message));;
     import data;;
     write (fun p =>
       set_lastSyncTimestamp
         (Z.max (lastSyncTimestamp p) (created_at event)) p);;
     emit Update (From (pubkey event) (created_at event)))
    (fun error => console_error "Failed to apply update:" error).

Definition applySnapshot (event : NostrEvent) : P unit :=
  Js.try_catch
    (message <- Js.lift (JSON_parse (content event));;
     data <- Js.lift (Base64.base64ToBytes (message_data message));;
     import data;;
     write (fun p =>
       set_lastSyncTimestamp
         (Z.max (lastSyncTimestamp p) (created_at event)) p);;
     emit Sync (Status "synced" (Some true)))
    (fun error => console_error "Failed to apply snapshot:" error).

Definition handlePresence (event : NostrEvent) : P unit :=
  Js.try_catch
    (data <- Js.lift (JSON_parse (content event));;
     let participant :=
       {| part_pubkey := pubkey event;
          part_name := data_name data;
          part_color :=
            match data_color data with
            | Some c => if String.eqb c "" then generateColor (pubkey event)
                        else c
            | None => generateColor (pubkey event)
            end;
          part_cursor := data_cursor data;
          part_lastSeen := created_at event |} in
     write (fun p =>
       set_awareness (map_set (pubkey event) participant (awareness p)) p);;
     a <- read awareness;;
     emit Awareness (Participants (map snd a)))
    (fun error => console_error "Failed to handle presence:" error).

(** [handleEvent]: the callback of both subscriptions. *)
Definition handleEvent (event : NostrEvent) : P unit :=
  own <- read publicKey;;
  if String.eqb (pubkey event) own then Js.ret tt
  else if kind event =? CRDT_UPDATE then applyUpdate event
  else if kind event =? DOCUMENT_SNAPSHOT then applySnapshot event
  else if kind event =? PRESENCE then handlePresence event
  else Js.ret tt.

Definition subscribe : P unit :=
  r <- read relays;;
  d <- read docId;;
  last <- read lastSyncTimestamp;;
  tell (PoolSubscribe r
          {| kinds := [CRDT_UPDATE; DOCUMENT_SNAPSHOT]; d_tag := [d];
             since := if last =? 0 then None else Some last;
             limit := None |});;
  t <- Date_now;;
  tell (PoolSubscribe r
          {| kinds := [PRESENCE]; d_tag := [d];
             since := Some (t / 1000 - 60); limit := None |});;
  write (set_subscriptionId (Some "active")).

(** [fetchHistory].  The two arguments are what the two [querySync] calls
    come back with: the events, or the value the promise is rejected with. *)
Definition fetchHistory (snapshotQuery updateQuery : Js.Exn + list NostrEvent)
  : P unit :=
  emit Sync (Status "syncing" None);;
  Js.try_catch
    (r <- read relays;;
     d <- read docId;;
     tell (PoolQuery r
             {| kinds := [DOCUMENT_SNAPSHOT]; d_tag := [d]; since := None;
                limit := Some 1 |});;
     snapshotEvents <- Js.lift snapshotQuery;;
     tell (PoolQuery r
             {| kinds := [CRDT_UPDATE]; d_tag := [d]; since := None;
                limit := Some 100 |});;
     updateEvents <- Js.lift updateQuery;;
     let events := sort (snapshotEvents ++ updateEvents) in
     match find (fun e => kind e =? DOCUMENT_SNAPSHOT) events with
     | Some snapshot => applySnapshot snapshot
     | None => Js.ret tt
     end;;
     Js.for_each events (fun event =>
       Js.when (kind event =? CRDT_UPDATE) (applyUpdate event));;
     emit Sync (Status "synced" None))
    (fun error => emit Error (Failure "Failed to fetch history" error)).

Definition connect (snapshotQuery updateQuery : Js.Exn + list NostrEvent)
  : P unit :=
  Js.try_catch
    (subscribe;;
     write (set_isConnected true);;
     r <- read relays;;
     emit Connected (Relays r);;
     sync <- read syncOnConnect;;
     Js.when sync (fetchHistory snapshotQuery updateQuery))
    (fun error =>
       emit Error (Failure "Connection failed" error);;
       Js.throw error).

(** [queueUpdate] *)
Definition queueUpdate (update : bytes) : P unit :=
  write (fun p => set_pendingUpdates (pendingUpdates p ++ [update]) p);;
  timer <- read batchTimer;;
  match timer with
  | None =>
      delay <- read batchInterval;;
      id <- setTimeout delay;;
      write (set_batchTimer (Some id))
  | Some _ => Js.ret tt
  end.

(** The listener installed by [setupDocumentListener], called on a change
    that does not come from [import]. *)
Definition onLocalChange : P unit :=
  d <- read doc;;
  let update := doc_export_update d None in
  Js.when (0 <? Z.of_nat (List.length update)) (queueUpdate update).

(** [publishUpdate] up to its [await]: the event is built, signed with the
    provider's key and handed to the pool. *)
Definition publishUpdate_send (update : bytes) : P unit :=
  d <- read docId;;
  t <- Date_now;;
  own <- read publicKey;;
  let message :=
    {| msg_type := "update"; msg_docId := d;
       msg_data := Base64.bytesToBase64 update; msg_timestamp := t |} in
  let event :=
    {| pubkey := own; created_at := t / 1000; kind := CRDT_UPDATE;
       tags := [["d"; d]]; content := Some (JEnvelope message) |} in
  r <- read relays;;
  tell (PoolPublish r event).

(** [publishUpdate] from the [await] on: [net] says how the promise of each
    relay settles, and [Promise.allSettled] gives one result per relay. *)
Definition publishUpdate_settled (net : string -> PromiseResult) : P unit :=
  Js.try_catch
    (r <- read relays;;
     let results := map net r in
     Js.when (negb (existsb is_fulfilled results))
       (Js.throw (Js.Error "All relay publishes failed")))
    (fun error => emit Error (Failure "Failed to publish update" error)).

Definition publishUpdate (update : bytes) (net : string -> PromiseResult)
  : P unit :=
  publishUpdate_send update;;
  publishUpdate_settled net.

(** [flushUpdates] up to the [await] of [publishUpdate]; the result tells
    whether a publish is under way. *)
Definition flushUpdates_send : P bool :=
  pending <- read pendingUpdates;;
  if (Z.of_nat (List.length pending) =? 0) then Js.ret false
  else
    write (set_batchTimer None);;
    d <- read doc;;
    last <- read lastExportedVersion;;
    let update :=
      match last with
      | Some v => doc_export_update d (Some v)
      | None => doc_export_update d None
      end in
    write (set_lastExportedVersion (Some (doc_version d)));;
    write (set_pendingUpdates []);;
    if 0 <? Z.of_nat (List.length update) then
      publishUpdate_send update;; Js.ret true
    else Js.ret false.

Definition flushUpdates (net : string -> PromiseResult) : P unit :=
  sent <- flushUpdates_send;;
  Js.when sent (publishUpdate_settled net).

(** The batch timer [id] expires: its callback runs if it is still armed. *)
Definition timer_fires (id : positive) (net : string -> PromiseResult)
  : P unit :=
  armed <- Js.gets timers;;
  if existsb (Pos.eqb id) armed then
    Js.modify (fun s =>
      {| this := this s; now := now s;
         timers := filter (fun t => negb (Pos.eqb t id)) (timers s);
         nextTimer := nextTimer s; log := log s |});;
    flushUpdates net
  else Js.ret tt.

(** [disconnect].  It does not wait for [flushUpdates]: the publish is
    started inside it and settles after it has returned; the result tells
    whether that is so. *)
Definition disconnect : P bool :=
  sub <- read subscriptionId;;
  Js.when (truthy sub)
    (r <- read relays;;
     tell (PoolClose r);;
     write (set_subscriptionId None));;
  timer <- read batchTimer;;
  match timer with
  | Some id => clearTimeout id;; write (set_batchTimer None)
  | None => Js.ret tt
  end;;
  pending <- read pendingUpdates;;
  sent <- (if 0 <? Z.of_nat (List.length pending) then flushUpdates_send
           else Js.ret false);;
  write (set_isConnected false);;
  emit Disconnected Empty;;
  Js.ret sent.

(** [disconnect], and then the publish it started settling. *)
Definition disconnect_settled (net : string -> PromiseResult) : P unit :=
  sent <- disconnect;;
  Js.when sent (publishUpdate_settled net).

(** What the provider is given while it runs. *)
Inductive Input :=
| LocalUpdate (update : bytes)
| TimerFires (id : positive) (net : string -> PromiseResult)
| Receive (event : NostrEvent)
| History (snapshotQuery updateQuery : Js.Exn + list NostrEvent)
| Disconnect (net : string -> PromiseResult).

Definition step (i : Input) : P unit :=
  match i with
  | LocalUpdate update => queueUpdate update
  | TimerFires id net => timer_fires id net
  | Receive event => handleEvent event
  | History snapshotQuery updateQuery => fetchHistory snapshotQuery updateQuery
  | Disconnect net => disconnect_settled net
  end.

Definition run {A} (m : P A) (s : State) : State := snd (m s).

(** The provider as its constructor leaves it. *)
Definition create (d : Doc) (id : string) (urls : list string)
  (key : string) : State :=
  {| this :=
       {| doc := d; relays := urls; docId := id; publicKey := key;
          batchInterval := 100; syncOnConnect := true;
          subscriptionId := None; pendingUpdates := []; batchTimer := None;
          isConnected := false; lastSyncTimestamp := 0; awareness := [];
          lastExportedVersion := None |};
     now := 0; timers := []; nextTimer := 1%positive; log := [] |}.

(** The payloads handed to [doc.import], in order. *)
Definition imports (l : list Effect) : list bytes :=
  flat_map (fun e => match e with DocImport d => [d] | _ => [] end) l.

Definition publishes (l : list Effect) : list NostrEvent :=
  flat_map (fun e => match e with PoolPublish _ ev => [ev] | _ => [] end) l.

Definition errors (l : list Effect) : list Payload :=
  flat_map (fun e => match e with Emit Error d => [d] | _ => [] end) l.

Definition armings (l : list Effect) : list positive :=
  flat_map (fun e => match e with SetTimeout id _ => [id] | _ => [] end) l.

(** The payload [applyUpdate] and [applySnapshot] import for an event, if
    its content decodes. *)
Definition payload (e : NostrEvent) : list bytes :=
  match JSON_parse (content e) with
  | inr message =>
      match Base64.base64ToBytes (message_data message) with
      | inr data => [data]
      | inl _ => []
      end
  | inl _ => []
  end.

Definition is_snapshot (e : NostrEvent) : bool := kind e =? DOCUMENT_SNAPSHOT.
Definition is_update (e : NostrEvent) : bool := kind e =? CRDT_UPDATE.

(** Ascending [created_at]. *)
Definition earlier (a b : NostrEvent) : Prop := created_at a <= created_at b.

(** The event [publishUpdate] signs for an update, and the delta
    [flushUpdates] exports. *)
Definition update_event (s : State) (update : bytes) : NostrEvent :=
  {| pubkey := publicKey (this s); created_at := now s / 1000;
     kind := CRDT_UPDATE; tags := [["d"; docId (this s)]];
     content :=
       Some (JEnvelope
               {| msg_type := "update"; msg_docId := docId (this s);
                  msg_data := Base64.bytesToBase64 update;
                  msg_timestamp := now s |}) |}.

Definition delta (s : State) : bytes :=
  doc_export_update (doc (this s)) (lastExportedVersion (this s)).

(** The three things [disconnect] may do before it reports. *)
Definition closing (s : State) : list Effect :=
  if truthy (subscriptionId (this s)) then [PoolClose (relays (this s))]
  else [].

Definition clearing (s : State) : list Effect :=
  match batchTimer (this s) with
  | Some id => [ClearTimeout id]
  | None => []
  end.

Definition flushing (s : State) : list Effect :=
  match pendingUpdates (this s), delta s with
  | [], _ => []
  | _ :: _, [] => []
  | _ :: _, _ :: _ => [PoolPublish (relays (this s)) (update_event s (delta s))]
  end.

(** An event with the [docId] of its envelope replaced. *)
Definition with_docId (d : string) (e : NostrEvent) : NostrEvent :=
  {| pubkey := pubkey e; created_at := created_at e; kind := kind e;
     tags := tags e;
     content :=
       match content e with
       | Some (JEnvelope m) =>
           Some (JEnvelope
                   {| msg_type := msg_type m; msg_docId := d;
                      msg_data := msg_data m;
                      msg_timestamp := msg_timestamp m |})
       | c => c
       end |}.

(** An event with the [docId] of its envelope replaced by [f] of the
    event. *)
Definition relabel (f : NostrEvent -> string) (e : NostrEvent) : NostrEvent :=
  with_docId (f e) e.

(** What receiving an event leaves alone: the batching state and the
    fields fixed at construction. *)
Definition same_batching (s s' : State) : Prop :=
  timers s' = timers s /\ nextTimer s' = nextTimer s
  /\ batchTimer (this s') = batchTimer (this s)
  /\ pendingUpdates (this s') = pendingUpdates (this s)
  /\ publishes (log s') = publishes (log s)
  /\ armings (log s') = armings (log s).

(** The armed timeouts are exactly the batch timer, and the batch timer is
    armed only while updates are pending. *)
Definition coherent (s : State) : Prop :=
  timers s = match batchTimer (this s) with Some t => [t] | None => [] end
  /\ (batchTimer (this s) <> None -> pendingUpdates (this s) <> []).

End WithDoc.

End Provider.

(** ** The key store

    [nip19.decode] and [getPublicKey] are nostr-tools' functions; both throw
    on input they do not accept. *)

Inductive Decoded :=
| Nsec (data : bytes)
| NotNsec (type : string).

Class NostrTools := {
  nip19_decode : string -> Js.Exn + Decoded;
  getPublicKey : bytes -> Js.Exn + string;
}.

Module Store.

Local Open Scope string_scope.
Local Open Scope Z_scope.
Local Open Scope js_scope.

Record NostrKeys := { publicKey : string; privateKey : string }.

Inductive RelayStatus := connecting | connected | disconnected | error.

Record NostrRelay := { url : string; status : RelayStatus }.

Record NostrState := {
  keys : option NostrKeys;
  relays : list NostrRelay;
  isConnected : bool;
  userName : string;
}.

(** The store and the console it logs to. *)
Record Store := {
  state : NostrState;
  console : list (string * Js.Exn);
}.

Definition DEFAULT_RELAYS : list NostrRelay :=
  [ {| url := "wss://relay.damus.io"; status := disconnected |};
    {| url := "wss://nos.lol"; status := disconnected |};
    {| url := "wss://nostr-pub.wellorder.net/"; status := disconnected |} ].

Definition initial : Store :=
  {| state := {| keys := None; relays := DEFAULT_RELAYS;
                 isConnected := false; userName := "" |};
     console := [] |}.

(** [set({ keys })] *)
Definition set_keys (k : option NostrKeys) : Js.M Store unit :=
  Js.modify (fun st =>
    {| state := {| keys := k; relays := relays (state st);
                   isConnected := isConnected (state st);
                   userName := userName (state st) |};
       console := console st |}).

Definition console_error (message : string) (e : Js.Exn) : Js.M Store unit :=
  Js.modify (fun st =>
    {| state := state st; console := console st ++ [(message, e)] |}).

Definition code (c : ascii) : Z := Z.of_N (N_of_ascii c).

(** [b.toString(16).padStart(2, '0')] *)
Definition hex_digit (n : N) : ascii :=
  nth (N.to_nat n) (list_ascii_of_string "0123456789abcdef") "0"%char.

Definition byte_hex (b : byte) : string :=
  let n := Byte.to_N b in
  String (hex_digit (n / 16)) (String (hex_digit (n mod 16)) "").

Definition hex_of_bytes (data : bytes) : string :=
  String.concat "" (map byte_hex data).

(** [hexKey.match(/.{1,2}/g)]: the successive pieces of one or two
    characters, a line terminator belonging to none; no piece at all is
    [null], here the empty list. *)
Definition is_line_terminator (c : ascii) : bool :=
  (code c =? 10) || (code c =? 13).

Fixpoint pieces (s : list ascii) : list (list ascii) :=
  match s with
  | [] => []
  | a :: rest =>
      if is_line_terminator a then pieces rest
      else match rest with
           | [] => [[a]]
           | b :: rest' =>
               if is_line_terminator b then [a] :: pieces rest'
               else [a; b] :: pieces rest'
           end
  end.

(** [parseInt(text, 16)]: leading white space, a sign, a [0x] prefix, then
    as many hexadecimal digits as there are; none is [NaN]. *)
Definition is_white_space (c : ascii) : bool :=
  (code c =? 9) || (code c =? 10) || (code c =? 11) || (code c =? 12)
  || (code c =? 13) || (code c =? 32) || (code c =? 160).

Definition hex_value (c : ascii) : option Z :=
  let n := code c in
  if (48 <=? n) && (n <=? 57) then Some (n - 48)
  else if (97 <=? n) && (n <=? 102) then Some (n - 87)
  else if (65 <=? n) && (n <=? 70) then Some (n - 55)
  else None.

Fixpoint skip_white_space (s : list ascii) : list ascii :=
  match s with
  | c :: rest => if is_white_space c then skip_white_space rest else s
  | [] => []
  end.

Fixpoint leading_digits (s : list ascii) : list Z :=
  match s with
  | c :: rest =>
      match hex_value c with
      | Some d => d :: leading_digits rest
      | None => []
      end
  | [] => []
  end.

Definition parseInt16 (text : list ascii) : option Z :=
  let s := skip_white_space text in
  let '(sign, s) :=
    match s with
    | c :: rest =>
        if code c =? 45 then (-1, rest)
        else if code c =? 43 then (1, rest)
        else (1, s)
    | [] => (1, s)
    end in
  let s :=
    match s with
    | z :: x :: rest =>
        if (code z =? 48) && ((code x =? 120) || (code x =? 88)) then rest
        else s
    | _ => s
    end in
  match leading_digits s with
  | [] => None
  | digits => Some (sign * fold_left (fun acc d => acc * 16 + d) digits 0)
  end.

(** An element stored in a [Uint8Array]: [NaN] is 0, a number is taken
    modulo 256. *)
Definition toUint8 (n : option Z) : byte :=
  match n with
  | None => x00
  | Some z =>
      match Byte.of_N (Z.to_N (z mod 256)) with
      | Some b => b
      | None => x00
      end
  end.

Definition key_bytes (matches : list (list ascii)) : bytes :=
  map (fun byte => toUint8 (parseInt16 byte)) matches.

(** Text that is a private key in hexadecimal, as [generateKeys] stores it:
    64 hexadecimal digits, two for each of the 32 bytes. *)
Definition is_hex_digit (c : ascii) : bool :=
  match hex_value c with
  | Some _ => true
  | None => false
  end.

Definition is_hex_key (text : string) : bool :=
  let chars := list_ascii_of_string text in
  Nat.eqb (List.length chars) 64 && forallb is_hex_digit chars.

Section WithTools.
Context {tools : NostrTools}.

(** [importKeys] *)
Definition importKeys (privateKey : string) : Js.M Store unit :=
  Js.try_catch
    (hexKey <-
       (if String.prefix "nsec" privateKey then
          decoded <- Js.lift (nip19_decode privateKey);;
          match decoded with
          | Nsec data => Js.ret (hex_of_bytes data)
          | NotNsec _ => Js.ret privateKey
          end
        else Js.ret privateKey);;
     matches <-
       match pieces (list_ascii_of_string hexKey) with
       | [] =>
           Js.throw
             (Js.TypeError "Cannot read properties of null (reading 'map')")
       | m => Js.ret m
       end;;
     let privateKeyBytes := key_bytes matches in
     publicKey <- Js.lift (getPublicKey privateKeyBytes);;
     set_keys (Some {| publicKey := publicKey; privateKey := hexKey |}))
    (fun error =>
       console_error "Failed to import keys:" error;;
       Js.throw (Js.Error "Invalid private key format")).

(** The hexadecimal text [importKeys] works on: the input, or what an
    [nsec] input decodes to. *)
Definition hex_text (privateKey : string) : Js.Exn + string :=
  if String.prefix "nsec" privateKey then
    match nip19_decode privateKey with
    | inl e => inl e
    | inr (Nsec data) => inr (hex_of_bytes data)
    | inr (NotNsec _) => inr privateKey
    end
  else inr privateKey.

End WithTools.

End Store.

(** ** The latency probe

    The provider's [ping], [getMetrics] and [resetMetrics] are called by
    the debug panel, and [LatencyMeasurement] and [SyncMetrics] are
    declared in the types; the methods themselves are not part of the
    sources at hand. *)

Module Metrics.

Local Open Scope string_scope.
Local Open Scope Z_scope.

(** [LatencyMeasurement]; the identifier is kept as a number. *)
Record LatencyMeasurement := {
  id : Z;
  sentAt : Z;
  receivedAt : option Z;
  latency : option Z;
  relay : option string;
}.

Inductive Effect :=
| Publish (kind : Z) (probe : Z)
| Emit (event : string) (latency : option Z).

(** The latency part of [SyncMetrics], with the next probe identifier and
    the effects so far.  [minLatency] is [None] for [Infinity]. *)
Record Collector := {
  measurements : list LatencyMeasurement;
  lastLatency : Z;
  avgLatency : Q;
  minLatency : option Z;
  maxLatency : Z;
  nextId : Z;
  log : list Effect;
}.

Definition is_pending (m : LatencyMeasurement) : bool :=
  match latency m with None => true | Some _ => false end.

(** The latencies of the completed measurements. *)
Definition samples (h : list LatencyMeasurement) : list Z :=
  flat_map (fun m => match latency m with Some x => [x] | None => [] end) h.

Definition min_of (l : list Z) : option Z :=
  match l with
  | [] => None
  | x :: rest => Some (fold_right Z.min x rest)
  end.

Definition max_of (l : list Z) : Z :=
  match l with
  | [] => 0
  | x :: rest => fold_right Z.max x rest
  end.

Definition sum (l : list Z) : Z := fold_right Z.add 0 l.

Definition avg_of (l : list Z) : Q :=
  match l with
  | [] => 0%Q
  | _ => Qmake (sum l) (Pos.of_nat (List.length l))
  end.

(** The last [n] elements. *)
Definition keep_last {A} (n : nat) (l : list A) : list A :=
  skipn (List.length l - n) l.

Definition probe (i now : Z) : LatencyMeasurement :=
  {| id := i; sentAt := now; receivedAt := None; latency := None;
     relay := None |}.

Definition completed (m : LatencyMeasurement) (now : Z)
  (from : option string) : LatencyMeasurement :=
  {| id := id m; sentAt := sentAt m; receivedAt := Some now;
     latency := Some (now - sentAt m); relay := from |}.

Definition matches (i : Z) (m : LatencyMeasurement) : bool :=
  (id m =? i) && is_pending m.

Section WithCapacity.

(** How many measurements the history holds. *)
Variable capacity : nat.

Definition create : Collector :=
  {| measurements := []; lastLatency := 0; avgLatency := 0%Q;
     minLatency := None; maxLatency := 0; nextId := 0; log := [] |}.

(** Modelled from the spec: the provider's [ping()], which is not among the
    sources.  "[ping()] publishes a uniquely-identified probe envelope and
    records a pending measurement", in "a bounded ring of latency
    samples": the probe takes the next identifier, a measurement without
    latency is appended, and the history keeps its last [capacity]
    entries. *)
Definition ping (now : Z) (c : Collector) : Collector :=
  {| measurements :=
       keep_last capacity (measurements c ++ [probe (nextId c) now]);
     lastLatency := lastLatency c; avgLatency := avgLatency c;
     minLatency := minLatency c; maxLatency := maxLatency c;
     nextId := nextId c + 1;
     log := log c ++ [Publish Provider.PING (nextId c)] |}.

(** Modelled from the spec: the provider's handling of a probe reply, which
    is not among the sources.  "A matching [pong] response (or an echoed
    ping observed by the prober) completes the measurement by computing
    elapsed time and updates MetricsCollector's running min/max/average
    over a bounded sample history; unanswered pings simply age out without
    failing anything": a reply whose identifier is that of a pending
    measurement in the history completes it, and the statistics are those
    of the completed measurements of the history; any other reply is
    ignored. *)
Definition observe (i now : Z) (from : option string) (c : Collector)
  : Collector :=
  match find (matches i) (measurements c) with
  | None => c
  | Some m =>
      let h :=
        map (fun x => if matches i x then completed x now from else x)
          (measurements c) in
      {| measurements := h;
         lastLatency := now - sentAt m;
         avgLatency := avg_of (samples h);
         minLatency := min_of (samples h);
         maxLatency := max_of (samples h);
         nextId := nextId c;
         log := log c ++ [Emit "pong" (Some (now - sentAt m));
                          Emit "metrics" None] |}
  end.

(** An event of kind [kind] carrying the probe identifier [i] arrives. *)
Definition on_probe_event (kind i now : Z) (from : option string)
  (c : Collector) : Collector :=
  if (kind =? Provider.PONG) || (kind =? Provider.PING)
  then observe i now from c
  else c.

Inductive Op :=
| Ping (now : Z)
| Arrives (kind i now : Z) (from : option string).

Definition apply (c : Collector) (o : Op) : Collector :=
  match o with
  | Ping now => ping now c
  | Arrives kind i now from => on_probe_event kind i now from c
  end.

Definition run (ops : list Op) (c : Collector) : Collector :=
  fold_left apply ops c.

(** The identifiers in the history are distinct and were all given out,
    and the history is within its bound. *)
Definition well_formed (c : Collector) : Prop :=
  NoDup (map id (measurements c))
  /\ Forall (fun m => id m < nextId c) (measurements c)
  /\ (List.length (measurements c) <= capacity)%nat.

Definition errors (l : list Effect) : list Effect :=
  filter (fun e => match e with
                   | Emit name _ => String.eqb name "error"
                   | _ => false
                   end) l.

(** Pings sent one after the other with no reply in between, and the
    measurements they record, numbered from [i]. *)
Definition pings (times : list Z) (c : Collector) : Collector :=
  fold_left (fun c now => ping now c) times c.

Fixpoint probes (i : Z) (times : list Z) : list LatencyMeasurement :=
  match times with
  | [] => []
  | now :: rest => probe i now :: probes (i + 1) rest
  end.

End WithCapacity.

End Metrics.

(** ** A running example

    Two relays, the local key [me] and a peer, over the [OpLog] document. *)

Module Sample.
Import Provider.
Local Open Scope string_scope.
Local Open Scope Z_scope.

Definition urls : list string := ["wss://relay.damus.io"; "wss://nos.lol"].
Definition me : string := "7e7e9c42a91bfef1".
Definition peer : string := "3bf0c63fcb934634".

Definition envelope (type room : string) (data : bytes) (t : Z)
  : option Json :=
  Some (JEnvelope {| msg_type := type; msg_docId := room;
                     msg_data := Base64.bytesToBase64 data;
                     msg_timestamp := t * 1000 |}).

Definition update_of (who room : string) (t : Z) (data : bytes)
  : NostrEvent :=
  {| pubkey := who; created_at := t; kind := CRDT_UPDATE;
     tags := [["d"; "room-1"]]; content := envelope "update" room data t |}.

Definition snapshot_of (who room : string) (t : Z) (data : bytes)
  : NostrEvent :=
  {| pubkey := who; created_at := t; kind := DOCUMENT_SNAPSHOT;
     tags := [["d"; "room-1"]]; content := envelope "snapshot" room data t |}.

(** A provider just constructed on an empty document. *)
Definition fresh : State := create (loro := OpLog.doc) [] "room-1" urls me.

(** One snapshot at 100 and three updates at 90, 105 and 120, as a query
    may return them. *)
Definition snapshots : list NostrEvent :=
  [snapshot_of peer "room-1" 100 [x53]].

Definition updates : list NostrEvent :=
  [update_of peer "room-1" 120 [x03]; update_of peer "room-1" 90 [x01];
   update_of peer "room-1" 105 [x02]].

(** An update that the local key signed, and one whose envelope names
    another document. *)
Definition own_update : NostrEvent := update_of me "room-1" 50 [x01; x02; x03].
Definition foreign_update : NostrEvent :=
  update_of peer "room-2" 50 [x01; x02; x03].

(** A connected provider, after a local edit: one update is pending and the
    batch timer is armed. *)
Definition connected : State :=
  run (connect (inr []) (inr []))
    (create (loro := OpLog.doc) [[x01; x02]] "room-1" urls me).

Definition busy : State := run onLocalChange connected.

(** The same with nothing new to export: the delta is empty. *)
Definition idle : State :=
  with_this (set_lastExportedVersion (loro := OpLog.doc) (Some 1%nat)) busy.

Definition all_reject (url : string) : PromiseResult := rejected.

(** Two texts that are no private key: 64 characters of which every second
    one is no hexadecimal digit, and 63 hexadecimal digits. *)
Definition not_hex : string :=
  "1g1g1g1g1g1g1g1g1g1g1g1g1g1g1g1g1g1g1g1g1g1g1g1g1g1g1g1g1g1g1g1g".

Definition too_short : string :=
  "010101010101010101010101010101010101010101010101010101010101011".

(** Key functions that accept 32 bytes that are not all zero, and no
    [nsec] text at all. *)
#[export] Instance tools : NostrTools := {|
  nip19_decode := fun _ => inl (Js.Error "Invalid checksum");
  getPublicKey := fun key =>
    if Nat.eqb (List.length key) 32
       && existsb (fun b => negb (Byte.eqb b x00)) key
    then inr (Store.hex_of_bytes (rev key))
    else inl (Js.Error "invalid private key");
|}.

End Sample.

(** ** The rest of the provider *)

Module ProviderExt.
Import Provider.

Local Open Scope string_scope.
Local Open Scope Z_scope.
Local Open Scope js_scope.

(** [hexToBytes]: [new Uint8Array(hex.length / 2)] has the integer part of
    half the length as its length, and a store past the end of a typed array
    is dropped, so a last character without a partner is not read. *)
Fixpoint hexToBytes_chars (hex : list ascii) : bytes :=
  match hex with
  | a :: b :: rest =>
      Store.toUint8 (Store.parseInt16 [a; b]) :: hexToBytes_chars rest
  | _ => []
  end.

Definition hexToBytes (hex : string) : bytes :=
  hexToBytes_chars (list_ascii_of_string hex).

(** Text that [importKeys] and [hexToBytes] cut in the same pieces: an even
    number of characters, none of them a line terminator. *)
Definition even_text (s : string) : Prop :=
  Nat.even (String.length s) = true
  /\ Forall (fun c => Store.is_line_terminator c = false)
       (list_ascii_of_string s).

(** The hue [generateColor] computes. *)
Definition hue (seed : string) : Z :=
  Z.abs
    (Z.rem
       (fold_left
          (fun hash c =>
             Z.of_N (N_of_ascii c)
             + (toInt32 (Z.shiftl (toInt32 hash) 5) - hash))
          (list_ascii_of_string seed) 0)
       360).

(** [Map.get] *)
Fixpoint map_get {V} (k : string) (m : list (string * V)) : option V :=
  match m with
  | [] => None
  | (k', v) :: rest => if String.eqb k' k then Some v else map_get k rest
  end.

(** The participant [handlePresence] records for an event whose content is
    [data]. *)
Definition participant_of (event : NostrEvent) (data : Json) : Participant :=
  {| part_pubkey := pubkey event;
     part_name := data_name data;
     part_color :=
       match data_color data with
       | Some c => if String.eqb c "" then generateColor (pubkey event) else c
       | None => generateColor (pubkey event)
       end;
     part_cursor := data_cursor data;
     part_lastSeen := created_at event |}.

(** The options of the constructor; a field left out is [None]. *)
Record Options := {
  opt_docId : string;
  opt_relays : list string;
  opt_privateKey : option string;
  opt_compress : option bool;
  opt_batchInterval : option Z;
  opt_syncOnConnect : option bool;
}.

Section WithDoc.
Context {loro : LoroDoc}.

(** [getAwareness] *)
Definition getAwareness (s : State) : list Participant :=
  map snd (awareness (this s)).

(** [publishSnapshot]; [net] says how the promise of each relay settles. *)
Definition publishSnapshot (net : string -> PromiseResult) : P unit :=
  dc <- read doc;;
  let snapshot := doc_export_snapshot dc in
  d <- read docId;;
  t <- Date_now;;
  own <- read publicKey;;
  let message :=
    {| msg_type := "snapshot"; msg_docId := d;
       msg_data := Base64.bytesToBase64 snapshot; msg_timestamp := t |} in
  let event :=
    {| pubkey := own; created_at := t / 1000; kind := DOCUMENT_SNAPSHOT;
       tags := [["d"; d]]; content := Some (JEnvelope message) |} in
  Js.try_catch
    (r <- read relays;;
     tell (PoolPublish r event);;
     let results := map net r in
     Js.when (negb (existsb is_fulfilled results))
       (Js.throw (Js.Error "All relay publishes failed"));;
     emit Sync (Status "synced" (Some true)))
    (fun error => emit Error (Failure "Failed to publish snapshot" error)).

(** [updatePresence]: the results of the relays are not looked at. *)
Definition updatePresence (name : option string)
  (cursor : option CursorPosition) : P unit :=
  own <- read publicKey;;
  let presence :=
    {| pc_name := name; pc_color := Some (generateColor own);
       pc_cursor := cursor |} in
  d <- read docId;;
  t <- Date_now;;
  let event :=
    {| pubkey := own; created_at := t / 1000; kind := PRESENCE;
       tags := [["d"; d]]; content := Some (JPresence presence) |} in
  r <- read relays;;
  tell (PoolPublish r event).

(** The constructor.  [random] is what [generateSecretKey] gives when no
    key is passed; [getPublicKey] throws on a key it does not accept. *)
Definition construct {tools : NostrTools} (d : Doc) (options : Options)
  (random : bytes) : Js.Exn + State :=
  let key :=
    match opt_privateKey options with
    | Some hex => if String.eqb hex "" then random else hexToBytes hex
    | None => random
    end in
  match getPublicKey key with
  | inl e => inl e
  | inr pub =>
      inr {| this :=
               {| doc := d; relays := opt_relays options;
                  docId := opt_docId options; publicKey := pub;
                  batchInterval :=
                    match opt_batchInterval options with
                    | Some ms => ms
                    | None => 100
                    end;
                  syncOnConnect :=
                    match opt_syncOnConnect options with
                    | Some b => b
                    | None => true
                    end;
                  subscriptionId := None; pendingUpdates := [];
                  batchTimer := None; isConnected := false;
                  lastSyncTimestamp := 0; awareness := [];
                  lastExportedVersion := None |};
             now := 0; timers := []; nextTimer := 1%positive; log := [] |}
  end.

(** The events [publishSnapshot] and [updatePresence] sign. *)
Definition snapshot_event (s : State) : NostrEvent :=
  {| pubkey := publicKey (this s); created_at := now s / 1000;
     kind := DOCUMENT_SNAPSHOT; tags := [["d"; docId (this s)]];
     content :=
       Some (JEnvelope
               {| msg_type := "snapshot"; msg_docId := docId (this s);
                  msg_data :=
                    Base64.bytesToBase64 (doc_export_snapshot (doc (this s)));
                  msg_timestamp := now s |}) |}.

Definition presence_event (s : State) (name : option string)
  (cursor : option CursorPosition) : NostrEvent :=
  {| pubkey := publicKey (this s); created_at := now s / 1000;
     kind := PRESENCE; tags := [["d"; docId (this s)]];
     content :=
       Some (JPresence
               {| pc_name := name;
                  pc_color := Some (generateColor (publicKey (this s)));
                  pc_cursor := cursor |}) |}.

(** The identities in the awareness map, in insertion order. *)
Definition identities (s : State) : list string :=
  map fst (awareness (this s)).

(** What no input changes, and the two things that only grow: the
    configuration stays, the sync timestamp does not go back, the
    identities stay distinct, and the local identity is never added. *)
Definition stable (s s' : State) : Prop :=
  publicKey (this s') = publicKey (this s)
  /\ docId (this s') = docId (this s)
  /\ relays (this s') = relays (this s)
  /\ lastSyncTimestamp (this s) <= lastSyncTimestamp (this s')
  /\ (NoDup (identities s) -> NoDup (identities s'))
  /\ (forall k, In k (identities s') ->
                In k (identities s) \/ k <> publicKey (this s)).

(** The fields that batching, flushing and disconnecting leave alone. *)
Definition same_session (s s' : State) : Prop :=
  publicKey (this s') = publicKey (this s)
  /\ docId (this s') = docId (this s)
  /\ relays (this s') = relays (this s)
  /\ lastSyncTimestamp (this s') = lastSyncTimestamp (this s)
  /\ awareness (this s') = awareness (this s)
  /\ doc (this s') = doc (this s).

(** The notifications among the effects. *)
Definition notifications (l : list Effect)
  : list (ProviderEventType * Payload) :=
  flat_map (fun e => match e with Emit ev d => [(ev, d)] | _ => [] end) l.

Definition queries (l : list Effect) : list Filter :=
  flat_map (fun e => match e with PoolQuery _ f => [f] | _ => [] end) l.

Definition subscriptions (l : list Effect) : list Filter :=
  flat_map (fun e => match e with PoolSubscribe _ f => [f] | _ => [] end) l.

(** The ['connected'] notifications among the effects. *)
Definition connects (l : list Effect) : list Payload :=
  flat_map (fun e => match e with Emit Connected d => [d] | _ => [] end) l.

(** What applying events leaves alone: the link to the relays. *)
Definition same_link (s s' : State) : Prop :=
  isConnected (this s') = isConnected (this s)
  /\ subscriptionId (this s') = subscriptionId (this s)
  /\ connects (log s') = connects (log s)
  /\ subscriptions (log s') = subscriptions (log s).

(** The two filters [subscribe] opens. *)
Definition docFilter (s : State) : Filter :=
  {| kinds := [CRDT_UPDATE; DOCUMENT_SNAPSHOT]; d_tag := [docId (this s)];
     since := if lastSyncTimestamp (this s) =? 0 then None
              else Some (lastSyncTimestamp (this s));
     limit := None |}.

Definition presenceFilter (s : State) : Filter :=
  {| kinds := [PRESENCE]; d_tag := [docId (this s)];
     since := Some (now s / 1000 - 60); limit := None |}.

End WithDoc.

End ProviderExt.

(** ** The listeners of the provider

    [eventListeners] maps an event type to the set of its callbacks.  A
    callback is known by its identity; a [Set] keeps insertion order and
    holds a value once. *)

Module Listeners.
Import Provider.

Definition Callback := positive.

Definition EventListeners := list (ProviderEventType * list Callback).

Definition event_eqb (a b : ProviderEventType) : bool :=
  match a, b with
  | Sync, Sync | Update, Update | Connected, Connected
  | Disconnected, Disconnected | Error, Error | Awareness, Awareness => true
  | _, _ => false
  end.

(** [Map.get] and [Map.set] *)
Fixpoint get (event : ProviderEventType) (m : EventListeners)
  : option (list Callback) :=
  match m with
  | [] => None
  | (e, set) :: rest => if event_eqb e event then Some set else get event rest
  end.

Fixpoint set (event : ProviderEventType) (v : list Callback)
  (m : EventListeners) : EventListeners :=
  match m with
  | [] => [(event, v)]
  | (e, old) :: rest =>
      if event_eqb e event then (event, v) :: rest
      else (e, old) :: set event v rest
  end.

Definition has (event : ProviderEventType) (m : EventListeners) : bool :=
  match get event m with Some _ => true | None => false end.

(** [Set.add] and [Set.delete] *)
Definition set_add (callback : Callback) (s : list Callback)
  : list Callback :=
  if existsb (Pos.eqb callback) s then s else s ++ [callback].

Definition set_delete (callback : Callback) (s : list Callback)
  : list Callback :=
  filter (fun c => negb (Pos.eqb c callback)) s.

(** [on] *)
Definition on (event : ProviderEventType) (callback : Callback)
  (m : EventListeners) : EventListeners :=
  let m := if has event m then m else set event [] m in
  match get event m with
  | Some s => set event (set_add callback s) m
  | None => m
  end.

(** [off] *)
Definition off (event : ProviderEventType) (callback : Callback)
  (m : EventListeners) : EventListeners :=
  match get event m with
  | Some s => set event (set_delete callback s) m
  | None => m
  end.

(** [emit]: the callbacks that are called, in the order they are called. *)
Definition emit (event : ProviderEventType) (m : EventListeners)
  : list Callback :=
  match get event m with
  | Some s => s
  | None => []
  end.

(** [destroy] leaves [eventListeners.clear()]. *)
Definition clear (m : EventListeners) : EventListeners := [].

(** Every set holds a callback once. *)
Definition sets (m : EventListeners) : Prop :=
  Forall (fun entry => NoDup (snd entry)) m.

End Listeners.

(** ** The rest of the stores *)

Module StoreExt.
Import Provider.

Local Open Scope string_scope.
Local Open Scope Z_scope.
Local Open Scope js_scope.

Record Document := {
  doc_id : string;
  doc_title : string;
  createdAt : Z;
  updatedAt : Z;
  owner : string;
  doc_participants : list string;
}.

Inductive SyncStatus := synced | syncing | offline | failed.

Record SyncState := {
  sync_status : SyncStatus;
  sync_pendingUpdates : Z;
  lastSync : Z;
  sync_error : option string;
}.

Record EditorState := {
  document : option Document;
  content : string;
  syncState : SyncState;
  participants : list Participant;
}.


Definition set_participants (ps : list Participant) (st : EditorState)
  : EditorState :=
  {| document := document st; content := content st;
     syncState := syncState st; participants := ps |}.

(** [Partial<Participant>]: a field that is not given is [None]; [name] and
    [cursor] may be given as [undefined]. *)
Record PartialParticipant := {
  with_pubkey : option string;
  with_name : option (option string);
  with_color : option string;
  with_cursor : option (option CursorPosition);
  with_lastSeen : option Z;
}.

Definition or_else {A} (x : option A) (d : A) : A :=
  match x with Some v => v | None => d end.

(** [{ ...p, ...data }] *)
Definition spread (p : Participant) (data : PartialParticipant)
  : Participant :=
  {| part_pubkey := or_else (with_pubkey data) (part_pubkey p);
     part_name := or_else (with_name data) (part_name p);
     part_color := or_else (with_color data) (part_color p);
     part_cursor := or_else (with_cursor data) (part_cursor p);
     part_lastSeen := or_else (with_lastSeen data) (part_lastSeen p) |}.



Definition updateParticipant (pubkey : string) (data : PartialParticipant)
  (st : EditorState) : EditorState :=
  set_participants
    (map (fun p => if String.eqb (part_pubkey p) pubkey then spread p data
                   else p)
       (participants st)) st.

Definition setParticipants (ps : list Participant) (st : EditorState)
  : EditorState := set_participants ps st.

(** The relays of the Nostr store. *)
Definition set_relays (rs : list Store.NostrRelay) (st : Store.NostrState)
  : Store.NostrState :=
  {| Store.keys := Store.keys st; Store.relays := rs;
     Store.isConnected := Store.isConnected st;
     Store.userName := Store.userName st |}.

Definition addRelay (url : string) (st : Store.NostrState)
  : Store.NostrState :=
  match find (fun r => String.eqb (Store.url r) url) (Store.relays st) with
  | Some _ => st
  | None =>
      set_relays
        (Store.relays st
         ++ [ {| Store.url := url; Store.status := Store.disconnected |} ]) st
  end.

Definition removeRelay (url : string) (st : Store.NostrState)
  : Store.NostrState :=
  set_relays
    (filter (fun r => negb (String.eqb (Store.url r) url)) (Store.relays st))
    st.

Definition updateRelayStatus (url : string) (status : Store.RelayStatus)
  (st : Store.NostrState) : Store.NostrState :=
  set_relays
    (map (fun r => if String.eqb (Store.url r) url
                   then {| Store.url := Store.url r; Store.status := status |}
                   else r)
       (Store.relays st)) st.

Definition urls (st : Store.NostrState) : list string :=
  map Store.url (Store.relays st).

(** What the sidebar does to the store's relays. *)
Inductive RelayOp :=
| Add (url : string)
| Remove (url : string)
| Status (url : string) (status : Store.RelayStatus).

Definition relay_op (st : Store.NostrState) (o : RelayOp)
  : Store.NostrState :=
  match o with
  | Add url => addRelay url st
  | Remove url => removeRelay url st
  | Status url status => updateRelayStatus url status st
  end.

Section WithTools.
Context {tools : NostrTools}.

(** [generateKeys]; [random] is what [generateSecretKey] returns. *)
Definition generateKeys (random : bytes) : Js.M Store.Store unit :=
  let privateKey := Store.hex_of_bytes random in
  publicKey <- Js.lift (getPublicKey random);;
  Store.set_keys
    (Some {| Store.publicKey := publicKey; Store.privateKey := privateKey |}).

(** [clearKeys] *)
Definition clearKeys : Js.M Store.Store unit := Store.set_keys None.

End WithTools.

End StoreExt.

(** ** The list of recent documents ([useDocuments]) *)

Module Documents.

Local Open Scope string_scope.

Record Entry := { id : string; title : string; lastOpened : Z }.

(** [addDocument]; [now] is [Date.now()]. *)
Definition addDocument (i t : string) (now : Z) (prev : list Entry)
  : list Entry :=
  firstn 20
    ({| id := i; title := t; lastOpened := now |}
       :: filter (fun d => negb (String.eqb (id d) i)) prev).

(** [removeDocument] *)
Definition removeDocument (i : string) (prev : list Entry) : list Entry :=
  filter (fun d => negb (String.eqb (id d) i)) prev.

End Documents.

(** ** More of the running example *)

Module SampleExt.
Import Provider.
Local Open Scope string_scope.
Local Open Scope Z_scope.

(** A second provider, with the peer's key, on the same room. *)
Definition other : State :=
  create (loro := OpLog.doc) [] "room-1" Sample.urls Sample.peer.

Definition some_accept (url : string) : PromiseResult :=
  if String.eqb url "wss://nos.lol" then fulfilled else rejected.

(** Two snapshots, the later one returned first. *)
Definition two_snapshots : list NostrEvent :=
  [Sample.snapshot_of Sample.peer "room-1" 100 [x53];
   Sample.snapshot_of Sample.peer "room-1" 80 [x52]].

Definition cursor : CursorPosition := {| anchor := 3; head := 7 |}.



(** A secret key of 32 bytes. *)
Definition secret : bytes := repeat x01 32.

Definition with_generated : Store.Store :=
  snd (StoreExt.generateKeys (tools := Sample.tools) secret Store.initial).

Definition options : ProviderExt.Options :=
  {| ProviderExt.opt_docId := "room-1"; ProviderExt.opt_relays := Sample.urls;
     ProviderExt.opt_privateKey := Some (Store.hex_of_bytes secret);
     ProviderExt.opt_compress := None; ProviderExt.opt_batchInterval := None;
     ProviderExt.opt_syncOnConnect := None |}.

(** A provider constructed with [syncOnConnect] off. *)
Definition quiet : State :=
  match
    ProviderExt.construct (tools := Sample.tools) (loro := OpLog.doc) []
      {| ProviderExt.opt_docId := "room-1";
         ProviderExt.opt_relays := Sample.urls;
         ProviderExt.opt_privateKey := Some (Store.hex_of_bytes secret);
         ProviderExt.opt_compress := None;
         ProviderExt.opt_batchInterval := None;
         ProviderExt.opt_syncOnConnect := Some false |} []
  with
  | inr s => s
  | inl _ => Sample.fresh
  end.

Definition recent : list Documents.Entry :=
  [ {| Documents.id := "doc-1"; Documents.title := "Notes";
       Documents.lastOpened := 10 |};
    {| Documents.id := "doc-2"; Documents.title := "Plan";
       Documents.lastOpened := 5 |} ].

End SampleExt.

(** * Properties *)

(** ** The codec *)

Section Base64Facts.
Import Base64.
Local Open Scope N_scope.

Lemma list_ind3 {A} (P : list A -> Prop) :
  P [] -> (forall a, P [a]) -> (forall a b, P [a; b]) ->
  (forall a b c l, P l -> P (a :: b :: c :: l)) ->
  forall l, P l.
Proof.
  intros H0 H1 H2 H3 l.
  enough (P l /\ (forall a, P (a :: l)) /\ (forall a b, P (a :: b :: l)))
    by tauto.
  induction l as [|x l (IH0 & IH1 & IH2)]; repeat split; auto.
Qed.

Lemma encode_split l :
  encode l = map b64_char (sextets_of l) ++ padding_of l.
Proof.
  induction l as [| a | a b | a b c l IH] using list_ind3; try reflexivity.
  cbn [encode sextets_of padding_of map app]. now rewrite IH.
Qed.

Lemma below_64 (P : N -> Prop) (f : N -> bool) :
  (forall i, f i = true -> P i) ->
  forallb f (map N.of_nat (seq 0 64)) = true ->
  forall i, i < 64 -> P i.
Proof.
  intros Hf Hall i Hi. apply Hf.
  rewrite forallb_forall in Hall. apply Hall.
  apply in_map_iff. exists (N.to_nat i). split; [apply N2Nat.id|].
  apply in_seq. lia.
Qed.

Lemma b64_index_char i : i < 64 -> b64_index (b64_char i) = Some i.
Proof.
  revert i.
  apply below_64 with
    (f := fun i => match b64_index (b64_char i) with
                   | Some j => j =? i
                   | None => false
                   end).
  - intros i. destruct (b64_index (b64_char i)); [|discriminate].
    intros E. apply N.eqb_eq in E. now subst.
  - vm_compute. reflexivity.
Qed.

Lemma b64_char_plain i :
  i < 64 ->
  is_pad (b64_char i) = false /\ is_ascii_whitespace (b64_char i) = false.
Proof.
  revert i.
  apply below_64 with
    (f := fun i => negb (is_pad (b64_char i))
                   && negb (is_ascii_whitespace (b64_char i))).
  - intros i E. apply andb_true_iff in E as [E1 E2].
    now rewrite negb_true_iff in E1, E2.
  - vm_compute. reflexivity.
Qed.

Lemma sextets_of_small l :
  Forall octet l -> Forall (fun s => s < 64) (sextets_of l).
Proof.
  unfold octet.
  induction l as [| a | a b | a b c l IH] using list_ind3; intros H;
    cbn [sextets_of]; cbv zeta.
  - constructor.
  - inversion_clear H. repeat constructor.
    + apply N.Div0.div_lt_upper_bound; lia.
    + apply N.mod_lt; lia.
  - inversion_clear H as [|? ? ? H']. inversion_clear H'.
    repeat constructor; try (apply N.mod_lt; lia).
    apply N.Div0.div_lt_upper_bound; lia.
  - inversion_clear H as [|? ? ? H']. inversion_clear H' as [|? ? ? H''].
    inversion_clear H''.
    repeat (constructor; try (apply N.mod_lt; lia)); auto.
    apply N.Div0.div_lt_upper_bound; lia.
Qed.

Lemma decode_sextets_of l : Forall octet l -> decode (sextets_of l) = l.
Proof.
  unfold octet.
  induction l as [| a | a b | a b c l IH] using list_ind3; intros H;
    cbn [sextets_of decode]; cbv zeta.
  - reflexivity.
  - inversion_clear H. f_equal.
    Zify.zify; Z.to_euclidean_division_equations; lia.
  - inversion_clear H as [|? ? ? H']. inversion_clear H'.
    f_equal; [|f_equal]; Zify.zify; Z.to_euclidean_division_equations; lia.
  - inversion_clear H as [|? ? ? H']. inversion_clear H' as [|? ? ? H''].
    inversion_clear H''. rewrite IH by assumption.
    f_equal; [|f_equal; [|f_equal]];
      Zify.zify; Z.to_euclidean_division_equations; lia.
Qed.

Lemma sextets_chars ss :
  Forall (fun s => s < 64) ss -> sextets (map b64_char ss) = Some ss.
Proof.
  induction 1 as [|s ss Hs _ IH]; [reflexivity|].
  cbn [map sextets]. now rewrite (b64_index_char s Hs), IH.
Qed.

Lemma padding_plain l :
  Forall (fun c => is_ascii_whitespace c = false) (padding_of l).
Proof.
  induction l as [| a | a b | a b c l IH] using list_ind3;
    cbn [padding_of]; repeat constructor; assumption.
Qed.

Lemma filter_all {A} (f : A -> bool) l :
  Forall (fun x => f x = true) l -> filter f l = l.
Proof.
  induction 1 as [|x l Hx _ IH]; [reflexivity|].
  cbn. now rewrite Hx, IH.
Qed.

Lemma encode_no_whitespace l :
  Forall octet l ->
  filter (fun c => negb (is_ascii_whitespace c)) (encode l) = encode l.
Proof.
  intros H. apply filter_all. rewrite encode_split.
  apply Forall_app. split.
  - apply Forall_map. eapply Forall_impl; [|apply sextets_of_small, H].
    intros s Hs. cbv beta. now rewrite (proj2 (b64_char_plain s Hs)).
  - eapply Forall_impl; [|apply padding_plain].
    intros c Hc. cbv beta in *. now rewrite Hc.
Qed.

Lemma encode_length l : exists k, List.length (encode l) = (4 * k)%nat.
Proof.
  induction l as [| a | a b | a b c l [k IH]] using list_ind3.
  - now exists 0%nat.
  - now exists 1%nat.
  - now exists 1%nat.
  - exists (S k). cbn [encode List.length]. rewrite IH. lia.
Qed.

Lemma sextets_of_length l :
  exists k, List.length (sextets_of l) = (4 * k)%nat
            \/ List.length (sextets_of l) = (4 * k + 2)%nat
            \/ List.length (sextets_of l) = (4 * k + 3)%nat.
Proof.
  induction l as [| a | a b | a b c l [k IH]] using list_ind3.
  - exists 0%nat. now left.
  - exists 0%nat. right. now left.
  - exists 0%nat. right. now right.
  - exists (S k). cbn [sextets_of List.length]. lia.
Qed.

Lemma strip_padding_none body :
  Forall (fun c => is_pad c = false) body -> strip_padding body = body.
Proof.
  intros H. unfold strip_padding.
  destruct (rev body) as [|x r] eqn:E; [reflexivity|].
  assert (Hx : is_pad x = false).
  { rewrite Forall_forall in H. apply H, in_rev. rewrite E. now left. }
  rewrite Hx. now destruct r.
Qed.

Lemma strip_padding_one body :
  Forall (fun c => is_pad c = false) body ->
  strip_padding (body ++ [pad]) = body.
Proof.
  intros H. unfold strip_padding. rewrite rev_app_distr. cbn [rev app].
  destruct (rev body) as [|y r] eqn:E.
  - apply (f_equal (@rev ascii)) in E. rewrite rev_involutive in E.
    now subst.
  - assert (Hy : is_pad y = false).
    { rewrite Forall_forall in H. apply H, in_rev. rewrite E. now left. }
    rewrite Hy. change (is_pad pad) with true. cbv iota.
    change (rev (y :: r) = body). rewrite <- E. apply rev_involutive.
Qed.

Lemma strip_padding_two body :
  strip_padding (body ++ [pad; pad]) = body.
Proof.
  unfold strip_padding. rewrite rev_app_distr. cbn [rev app].
  change (is_pad pad) with true. cbv iota. apply rev_involutive.
Qed.

Lemma strip_padding_encode l :
  Forall octet l -> strip_padding (encode l) = map b64_char (sextets_of l).
Proof.
  intros H. rewrite encode_split.
  assert (Hb : Forall (fun c => is_pad c = false)
                 (map b64_char (sextets_of l))).
  { apply Forall_map. eapply Forall_impl; [|apply sextets_of_small, H].
    intros s Hs. apply (b64_char_plain s Hs). }
  revert Hb. generalize (map b64_char (sextets_of l)) as body.
  clear H. intros body Hb.
  induction l as [| a | a b | a b c l IH] using list_ind3;
    cbn [padding_of]; auto.
  - rewrite app_nil_r. now apply strip_padding_none.
  - apply strip_padding_two.
  - now apply strip_padding_one.
Qed.

Lemma atob_encode l :
  Forall octet l ->
  atob (string_of_list_ascii (encode l))
  = inr (string_of_list_ascii (map ascii_of_N l)).
Proof.
  intros H. unfold atob.
  rewrite list_ascii_of_string_of_list_ascii, (encode_no_whitespace l H).
  destruct (encode_length l) as [k Hk]. rewrite Hk.
  replace (N.of_nat (4 * k) mod 4) with 0
    by (Zify.zify; Z.to_euclidean_division_equations; lia).
  cbn [N.eqb]. rewrite (strip_padding_encode l H), length_map.
  destruct (sextets_of_length l) as [j Hj].
  replace (N.of_nat (List.length (sextets_of l)) mod 4 =? 1) with false.
  - rewrite (sextets_chars _ (sextets_of_small l H)).
    now rewrite (decode_sextets_of l H).
  - symmetry. apply N.eqb_neq.
    Zify.zify; Z.to_euclidean_division_equations; lia.
Qed.

Lemma codes_octets s :
  Forall octet (map N_of_ascii (list_ascii_of_string s)).
Proof.
  apply Forall_map, Forall_forall. intros c _. apply N_ascii_bounded.
Qed.

(** [atob] undoes [btoa] on every binary string. *)
Lemma atob_btoa s : atob (btoa s) = inr s.
Proof.
  unfold btoa. rewrite atob_encode by apply codes_octets.
  rewrite map_map.
  rewrite (map_ext _ (fun c => c)) by (intros c; apply ascii_N_embedding).
  now rewrite map_id, string_of_list_ascii_of_string.
Qed.

(** C10. Codec round trip: for every byte array [b], decoding the text that
    [bytesToBase64] makes of [b] gives [b] back, byte for byte:
    [base64ToBytes (bytesToBase64 b)] returns [b]. *)
Theorem base64_round_trip (b : bytes) :
  base64ToBytes (bytesToBase64 b) = inr b.
Proof.
  unfold base64ToBytes, bytesToBase64. rewrite atob_btoa.
  rewrite list_ascii_of_string_of_list_ascii, map_map.
  rewrite (map_ext _ (fun x => x)) by (intros x; apply byte_of_ascii_of_byte).
  now rewrite map_id.
Qed.

(** The round trip, as the provider's lemmas use it. *)
Lemma base64_payload (b : bytes) : base64ToBytes (bytesToBase64 b) = inr b.
Proof.
  unfold base64ToBytes, bytesToBase64. rewrite atob_btoa.
  rewrite list_ascii_of_string_of_list_ascii, map_map.
  rewrite (map_ext _ (fun x => x)) by (intros x; apply byte_of_ascii_of_byte).
  now rewrite map_id.
Qed.

Example bytesToBase64_samples :
  bytesToBase64 [x01; x02; x03] = "AQID"%string
  /\ bytesToBase64 [x4d; x61] = "TWE="%string
  /\ bytesToBase64 [x4d] = "TQ=="%string
  /\ bytesToBase64 [] = ""%string.
Proof. repeat split. Qed.

Example base64ToBytes_samples :
  base64ToBytes " TW E" = inr [x4d; x61]
  /\ base64ToBytes "TWE=" = inr [x4d; x61]
  /\ base64ToBytes "undefined" = inl Js.InvalidCharacterError
  /\ base64ToBytes "TQ=A" = inl Js.InvalidCharacterError.
Proof. repeat split. Qed.

End Base64Facts.

(** ** The provider *)

Section ProviderFacts.
Import Provider.
Context {loro : LoroDoc}.
Local Open Scope string_scope.
Local Open Scope list_scope.
Local Open Scope Z_scope.

Ltac js_unfold :=
  unfold Js.bind, Js.ret, Js.when, Js.lift, Js.throw, Js.try_catch, Js.gets,
    Js.modify, read, write, tell, emit, console_error, with_this, Date_now
    in *.

(** C4. Empty-delta skip: whenever [flushUpdates] runs and the delta
    exported since the last exported version marker has no bytes, nothing is
    handed to the pool: the effects are those there were before, and so are
    the published events. *)
Theorem empty_delta_skip (s : State) (net : string -> PromiseResult) :
  doc_export_update (doc (this s)) (lastExportedVersion (this s)) = [] ->
  log (run (flushUpdates net) s) = log s
  /\ publishes (log (run (flushUpdates net) s)) = publishes (log s).
Proof.
  intros Hempty.
  assert (H : log (run (flushUpdates net) s) = log s).
  { unfold run, flushUpdates, flushUpdates_send. js_unfold. cbn.
    destruct (pendingUpdates (this s)) as [|u pending]; cbn; [reflexivity|].
    destruct (lastExportedVersion (this s)) as [v|]; rewrite Hempty;
      reflexivity. }
  split; [exact H | now rewrite H].
Qed.

(** The event [publishUpdate] builds for an update. *)
Lemma publishUpdate_send_log (s : State) (update : bytes) :
  exists event,
    pubkey event = publicKey (this s) /\ kind event = CRDT_UPDATE /\
    publishUpdate_send update s
    = (inr tt,
       {| this := this s; now := now s; timers := timers s;
          nextTimer := nextTimer s;
          log := log s ++ [PoolPublish (relays (this s)) event] |}).
Proof.
  eexists. split; [|split]; [| |unfold publishUpdate_send; js_unfold; cbn;
                                 reflexivity]; reflexivity.
Qed.

Lemma errors_app l1 l2 : errors (l1 ++ l2) = errors l1 ++ errors l2.
Proof. unfold errors. now rewrite flat_map_app. Qed.

Lemma publishes_app l1 l2 :
  publishes (l1 ++ l2) = publishes l1 ++ publishes l2.
Proof. unfold publishes. now rewrite flat_map_app. Qed.

Lemma imports_app l1 l2 : imports (l1 ++ l2) = imports l1 ++ imports l2.
Proof. unfold imports. now rewrite flat_map_app. Qed.

(** C5. Publish outcome aggregation: [publishUpdate] over the provider's
    relays never throws to its caller and hands the event to the pool once;
    if at least one relay acknowledges, no ['error'] notification is
    emitted, and if every relay rejects, exactly one is, with the message
    of a failed publish. *)
Theorem publish_outcome (s : State) (update : bytes)
  (net : string -> PromiseResult) :
  let acknowledged := existsb is_fulfilled (map net (relays (this s))) in
  let s' := run (publishUpdate update net) s in
  fst (publishUpdate update net s) = inr tt
  /\ List.length (publishes (log s')) = S (List.length (publishes (log s)))
  /\ errors (log s')
     = errors (log s)
       ++ (if acknowledged then []
           else [Failure "Failed to publish update"
                   (Js.Error "All relay publishes failed")]).
Proof.
  cbv zeta. unfold run, publishUpdate.
  destruct (publishUpdate_send_log s update) as (event & _ & _ & E).
  unfold Js.bind at 1 2 3. rewrite E.
  unfold publishUpdate_settled. js_unfold. cbn.
  destruct (existsb is_fulfilled (map net (relays (this s)))); cbn;
    rewrite ?errors_app, ?publishes_app, ?length_app, ?app_nil_r; cbn;
    rewrite ?app_nil_r; repeat split; try reflexivity; lia.
Qed.

(** *** Sorting by [created_at] *)

Lemma insert_perm e l : Permutation (insert e l) (e :: l).
Proof.
  induction l as [|x l IH]; cbn; [reflexivity|].
  destruct (created_at e <=? created_at x); [reflexivity|].
  rewrite IH. apply perm_swap.
Qed.

Lemma sort_perm l : Permutation (sort l) l.
Proof.
  induction l as [|e l IH]; cbn; [constructor|].
  rewrite insert_perm. now constructor.
Qed.

Lemma insert_sorted e l :
  StronglySorted earlier l -> StronglySorted earlier (insert e l).
Proof.
  induction 1 as [|x l Hl IH Hx]; cbn.
  - repeat constructor.
  - destruct (created_at e <=? created_at x) eqn:E.
    + apply Z.leb_le in E. constructor; [now constructor|].
      constructor; [exact E|].
      eapply Forall_impl; [|exact Hx]. unfold earlier. intros; lia.
    + apply Z.leb_gt in E. constructor; [exact IH|].
      eapply Permutation_Forall; [symmetry; apply insert_perm|].
      constructor; [unfold earlier; lia | exact Hx].
Qed.

Lemma sort_sorted l : StronglySorted earlier (sort l).
Proof.
  induction l as [|e l IH]; cbn; [constructor | now apply insert_sorted].
Qed.

Lemma insert_first e l : Forall (earlier e) l -> insert e l = e :: l.
Proof.
  destruct 1 as [|x l Hx _]; cbn; [reflexivity|].
  unfold earlier in Hx. apply Z.leb_le in Hx. now rewrite Hx.
Qed.

Lemma filter_insert (p : NostrEvent -> bool) e l :
  StronglySorted earlier l ->
  filter p (insert e l)
  = if p e then insert e (filter p l) else filter p l.
Proof.
  induction 1 as [|x l Hl IH Hx]; cbn.
  - now destruct (p e).
  - destruct (created_at e <=? created_at x) eqn:E.
    + cbn. destruct (p e); [|reflexivity].
      symmetry. apply insert_first.
      apply Z.leb_le in E.
      assert (Hall : Forall (earlier e) (x :: l)).
      { constructor; [exact E|].
        eapply Forall_impl; [|exact Hx]. unfold earlier. intros; lia. }
      rewrite Forall_forall in *. intros y Hy.
      apply Hall. change (In y (filter p (x :: l))) in Hy.
      now apply filter_In in Hy.
    + cbn. rewrite IH. destruct (p x), (p e); cbn; rewrite ?E; reflexivity.
Qed.

(** Sorting and selecting by kind commute: the sort is stable. *)
Lemma filter_sort (p : NostrEvent -> bool) l :
  filter p (sort l) = sort (filter p l).
Proof.
  induction l as [|e l IH]; cbn; [reflexivity|].
  rewrite filter_insert by apply sort_sorted.
  rewrite IH. now destruct (p e).
Qed.

Lemma find_filter {A} (p : A -> bool) l :
  find p l = hd_error (filter p l).
Proof.
  induction l as [|x l IH]; cbn; [reflexivity|]. now destruct (p x).
Qed.

Lemma filter_none {A} (p : A -> bool) l :
  Forall (fun x => p x = false) l -> filter p l = [].
Proof.
  induction 1 as [|x l Hx _ IH]; cbn; [reflexivity|]. now rewrite Hx.
Qed.

Lemma sorted_Z_unique (k1 k2 : list Z) :
  StronglySorted Z.le k1 -> StronglySorted Z.le k2 ->
  Permutation k1 k2 -> k1 = k2.
Proof.
  intros S1. revert k2.
  induction S1 as [|x k1 S1 IH F1]; intros k2 S2 Hp.
  - apply Permutation_nil in Hp. now subst.
  - destruct S2 as [|y k2 S2 F2];
      [symmetry in Hp; apply Permutation_nil in Hp; discriminate|].
    assert (x = y).
    { rewrite Forall_forall in F1, F2.
      assert (In y (x :: k1)) as [->|I1]
          by (eapply Permutation_in; [symmetry; exact Hp | now left]);
        [reflexivity|].
      assert (In x (y :: k2)) as [->|I2]
          by (eapply Permutation_in; [exact Hp | now left]);
        [reflexivity|].
      specialize (F1 _ I1). specialize (F2 _ I2). lia. }
    subst y. f_equal. apply IH; [exact S2|].
    now apply Permutation_cons_inv in Hp.
Qed.

Lemma sorted_keys l :
  StronglySorted earlier l -> StronglySorted Z.le (map created_at l).
Proof.
  induction 1; cbn; constructor; auto. now apply Forall_map.
Qed.

(** Two sorts of the same events show the same timestamps in the same
    order. *)
Lemma sort_keys_unique (l1 l2 : list NostrEvent) :
  Permutation l1 l2 ->
  map created_at (sort l1) = map created_at (sort l2).
Proof.
  intros Hp. apply sorted_Z_unique; try apply sorted_keys, sort_sorted.
  apply Permutation_map.
  now rewrite (sort_perm l1), (sort_perm l2).
Qed.

Lemma sorted_unique (l1 l2 : list NostrEvent) :
  StronglySorted earlier l1 -> StronglySorted earlier l2 ->
  Permutation l1 l2 -> NoDup (map created_at l1) -> l1 = l2.
Proof.
  intros S1. revert l2.
  induction S1 as [|a l1 S1 IH Fa]; intros l2 S2 Hp Hnd.
  - apply Permutation_nil in Hp. now subst.
  - destruct S2 as [|b l2 S2 Fb];
      [symmetry in Hp; apply Permutation_nil in Hp; discriminate|].
    cbn in Hnd. inversion_clear Hnd as [|? ? Hnotin Hnd'].
    assert (a = b).
    { assert (In b (a :: l1)) as [->|I1]
          by (eapply Permutation_in; [symmetry; exact Hp | now left]);
        [reflexivity|].
      assert (In a (b :: l2)) as [->|I2]
          by (eapply Permutation_in; [exact Hp | now left]);
        [reflexivity|].
      exfalso. apply Hnotin.
      rewrite Forall_forall in Fa, Fb. unfold earlier in *.
      specialize (Fa _ I1). specialize (Fb _ I2).
      replace (created_at a) with (created_at b) by lia.
      now apply in_map. }
    subst b. f_equal. apply IH; auto.
    now apply Permutation_cons_inv in Hp.
Qed.

(** *** Receiving events *)

Lemma armings_app l1 l2 : armings (l1 ++ l2) = armings l1 ++ armings l2.
Proof. unfold armings. now rewrite flat_map_app. Qed.

Lemma same_batching_refl s : same_batching s s.
Proof. repeat split. Qed.

Lemma same_batching_trans s1 s2 s3 :
  same_batching s1 s2 -> same_batching s2 s3 -> same_batching s1 s3.
Proof.
  unfold same_batching. intros (?&?&?&?&?&?) (?&?&?&?&?&?).
  repeat split; congruence.
Qed.

Ltac log_simpl :=
  cbn [log]; rewrite ?imports_app, <- ?app_assoc; cbn;
  rewrite ?app_nil_r; try reflexivity.

Ltac frame :=
  unfold same_batching; cbn;
  rewrite ?publishes_app, ?armings_app; cbn; rewrite ?app_nil_r;
  repeat split; reflexivity.

(** [applyUpdate] never throws; it hands [doc.import] the payload of the
    event when the content decodes, and nothing otherwise. *)
Lemma applyUpdate_spec (e : NostrEvent) (s : State) :
  exists s', applyUpdate e s = (inr tt, s')
             /\ imports (log s') = imports (log s) ++ payload e
             /\ same_batching s s'.
Proof.
  unfold applyUpdate, payload, import. js_unfold. cbn.
  destruct (JSON_parse (content e)) as [x|message]; cbn.
  - eexists. split; [reflexivity|]. split; [|frame].
    log_simpl.
  - destruct (Base64.base64ToBytes (message_data message)) as [x|data]; cbn.
    + eexists. split; [reflexivity|]. split; [|frame].
      log_simpl.
    + destruct (doc_import (doc (this s)) data) as [x|d']; cbn;
        (eexists; split; [reflexivity|]; split; [|frame]);
        log_simpl.
Qed.

Lemma applySnapshot_spec (e : NostrEvent) (s : State) :
  exists s', applySnapshot e s = (inr tt, s')
             /\ imports (log s') = imports (log s) ++ payload e
             /\ same_batching s s'.
Proof.
  unfold applySnapshot, payload, import. js_unfold. cbn.
  destruct (JSON_parse (content e)) as [x|message]; cbn.
  - eexists. split; [reflexivity|]. split; [|frame].
    log_simpl.
  - destruct (Base64.base64ToBytes (message_data message)) as [x|data]; cbn.
    + eexists. split; [reflexivity|]. split; [|frame].
      log_simpl.
    + destruct (doc_import (doc (this s)) data) as [x|d']; cbn;
        (eexists; split; [reflexivity|]; split; [|frame]);
        log_simpl.
Qed.

Lemma handlePresence_spec (e : NostrEvent) (s : State) :
  exists s', handlePresence e s = (inr tt, s')
             /\ imports (log s') = imports (log s)
             /\ same_batching s s'.
Proof.
  unfold handlePresence. js_unfold. cbn.
  destruct (JSON_parse (content e)) as [x|data]; cbn;
    (eexists; split; [reflexivity|]; split; [|frame]); log_simpl.
Qed.

(** The loop of [fetchHistory] over the sorted events. *)
Lemma apply_updates_spec (events : list NostrEvent) (s : State) :
  exists s',
    Js.for_each events
      (fun event => Js.when (kind event =? CRDT_UPDATE) (applyUpdate event)) s
    = (inr tt, s')
    /\ imports (log s')
       = imports (log s) ++ flat_map payload (filter is_update events)
    /\ same_batching s s'.
Proof.
  revert s. induction events as [|e events IH]; intros s; cbn.
  - exists s. rewrite app_nil_r. repeat split.
  - unfold Js.bind at 1. unfold Js.when at 1, is_update at 1.
    destruct (kind e =? CRDT_UPDATE).
    + destruct (applyUpdate_spec e s) as (s1 & -> & I1 & F1).
      destruct (IH s1) as (s2 & -> & I2 & F2).
      exists s2. split; [reflexivity|]. split.
      * cbn. now rewrite I2, I1, <- !app_assoc.
      * eapply same_batching_trans; eassumption.
    + cbn. apply IH.
Qed.

(** [fetchHistory] on two queries that come back with events: the first
    snapshot in sorted order is applied, then the updates in sorted order. *)
Lemma fetchHistory_spec (snaps ups : list NostrEvent) (s : State) :
  let events := sort (snaps ++ ups) in
  exists s',
    fetchHistory (inr snaps) (inr ups) s = (inr tt, s')
    /\ imports (log s')
       = imports (log s)
         ++ match find is_snapshot events with
            | Some snapshot => payload snapshot
            | None => []
            end
         ++ flat_map payload (filter is_update events)
    /\ same_batching s s'.
Proof.
  cbv zeta. unfold fetchHistory. js_unfold.
  cbn -[applySnapshot applyUpdate sort Js.for_each find].
  fold is_snapshot.
  match goal with
  | |- context [Js.for_each ?l ?f] =>
      change f with
        (fun event => Js.when (kind event =? CRDT_UPDATE) (applyUpdate event))
  end.
  set (s0 := {| this := this s; now := now s; timers := timers s;
                nextTimer := nextTimer s; log := _ |}).
  assert (F0 : same_batching s s0) by (subst s0; frame).
  assert (I0 : imports (log s0) = imports (log s)) by (subst s0; log_simpl).
  clearbody s0.
  destruct (find is_snapshot (sort (snaps ++ ups))) as [snapshot|].
  - destruct (applySnapshot_spec snapshot s0) as (s1 & -> & I1 & F1).
    destruct (apply_updates_spec (sort (snaps ++ ups)) s1)
      as (s2 & -> & I2 & F2).
    eexists. split; [reflexivity|]. split.
    + log_simpl. rewrite I2, I1, I0. now rewrite <- !app_assoc.
    + eapply same_batching_trans; [exact F0|].
      eapply same_batching_trans; [exact F1|].
      eapply same_batching_trans; [exact F2|]. frame.
  - destruct (apply_updates_spec (sort (snaps ++ ups)) s0)
      as (s2 & -> & I2 & F2).
    eexists. split; [reflexivity|]. split.
    + log_simpl. rewrite I2, I0. reflexivity.
    + eapply same_batching_trans; [exact F0|].
      eapply same_batching_trans; [exact F2|]. frame.
Qed.

(** A query that is rejected ends [fetchHistory] with one ['error']
    notification; nothing is thrown to the caller in any case. *)
Lemma fetchHistory_batching
  (snapshotQuery updateQuery : Js.Exn + list NostrEvent) (s : State) :
  exists s',
    fetchHistory snapshotQuery updateQuery s = (inr tt, s')
    /\ same_batching s s'.
Proof.
  destruct snapshotQuery as [e|snaps].
  { unfold fetchHistory. js_unfold. cbn. eexists.
    split; [reflexivity | frame]. }
  destruct updateQuery as [e|ups].
  { unfold fetchHistory. js_unfold. cbn. eexists.
    split; [reflexivity | frame]. }
  destruct (fetchHistory_spec snaps ups s) as (s' & E & _ & F). eauto.
Qed.

Lemma filter_kinds (snaps ups : list NostrEvent) :
  Forall (fun e => kind e = DOCUMENT_SNAPSHOT) snaps ->
  Forall (fun e => kind e = CRDT_UPDATE) ups ->
  filter is_snapshot (snaps ++ ups) = snaps
  /\ filter is_update (snaps ++ ups) = ups.
Proof.
  intros Hs Hu. rewrite !filter_app. split.
  - rewrite (filter_all _ snaps), (filter_none _ ups), ?app_nil_r; auto.
    + eapply Forall_impl; [|exact Hu]. unfold is_snapshot.
      intros e ->. reflexivity.
    + eapply Forall_impl; [|exact Hs]. unfold is_snapshot.
      intros e ->. reflexivity.
  - rewrite (filter_none _ snaps), (filter_all _ ups); auto.
    + eapply Forall_impl; [|exact Hu]. unfold is_update.
      intros e ->. reflexivity.
    + eapply Forall_impl; [|exact Hs]. unfold is_update.
      intros e ->. reflexivity.
Qed.

(** C1. History reconciliation: for every query result that holds at most
    one snapshot event and a list of update events, [fetchHistory] hands
    [doc.import] the snapshot's payload first, whatever its timestamp, and
    then the payload of every update in ascending [created_at] order (an
    event whose content does not decode has no payload and is skipped).
    The order the query returned the updates in does not matter: the
    timestamps are imported in the same sequence for every reordering, and
    so are the events themselves when no two share a timestamp. *)
Theorem history_reconciliation_order (s : State)
  (snaps ups : list NostrEvent) :
  Forall (fun e => kind e = DOCUMENT_SNAPSHOT) snaps ->
  (List.length snaps <= 1)%nat ->
  Forall (fun e => kind e = CRDT_UPDATE) ups ->
  fst (fetchHistory (inr snaps) (inr ups) s) = inr tt
  /\ imports (log (run (fetchHistory (inr snaps) (inr ups)) s))
     = imports (log s) ++ flat_map payload snaps
       ++ flat_map payload (sort ups)
  /\ StronglySorted earlier (sort ups)
  /\ Permutation (sort ups) ups
  /\ (forall ups', Permutation ups ups' ->
        map created_at (sort ups') = map created_at (sort ups)
        /\ (NoDup (map created_at ups) -> sort ups' = sort ups)).
Proof.
  intros Hs Hone Hu.
  destruct (fetchHistory_spec snaps ups s) as (s' & E & I & _).
  destruct (filter_kinds snaps ups Hs Hu) as [Fs Fu].
  unfold run. rewrite E. cbn [fst snd].
  split; [reflexivity|]. split; [|split; [|split]].
  - rewrite I, find_filter, !filter_sort, Fs, Fu.
    do 2 f_equal.
    destruct snaps as [|sn [|]]; cbn in *; try lia; try reflexivity.
    now rewrite app_nil_r.
  - apply sort_sorted.
  - apply sort_perm.
  - intros ups' Hp. split.
    + symmetry. now apply sort_keys_unique.
    + intros Hnd. symmetry.
      apply sorted_unique; try apply sort_sorted.
      * now rewrite (sort_perm ups), (sort_perm ups').
      * eapply Permutation_NoDup; [|exact Hnd].
        apply Permutation_map. symmetry. apply sort_perm.
Qed.

Lemma handleEvent_spec (e : NostrEvent) (s : State) :
  exists s', handleEvent e s = (inr tt, s') /\ same_batching s s'.
Proof.
  unfold handleEvent, read, Js.bind, Js.gets, Js.ret.
  destruct (String.eqb (pubkey e) (publicKey (this s))).
  { exists s. split; [reflexivity | apply same_batching_refl]. }
  destruct (kind e =? CRDT_UPDATE).
  { destruct (applyUpdate_spec e s) as (s' & E & _ & F). eauto. }
  destruct (kind e =? DOCUMENT_SNAPSHOT).
  { destruct (applySnapshot_spec e s) as (s' & E & _ & F). eauto. }
  destruct (kind e =? PRESENCE).
  { destruct (handlePresence_spec e s) as (s' & E & _ & F). eauto. }
  exists s. split; [reflexivity | apply same_batching_refl].
Qed.

(** *** Batching *)

Lemma queueUpdate_armed (s : State) (u : bytes) (t : positive) :
  batchTimer (this s) = Some t ->
  queueUpdate u s
  = (inr tt,
     with_this
       (fun p => set_pendingUpdates (pendingUpdates p ++ [u]) p) s).
Proof.
  intros H. unfold queueUpdate. js_unfold. cbn. now rewrite H.
Qed.

Lemma queueUpdate_idle (s : State) (u : bytes) :
  batchTimer (this s) = None ->
  queueUpdate u s
  = (inr tt,
     {| this :=
          set_batchTimer (Some (nextTimer s))
            (set_pendingUpdates (pendingUpdates (this s) ++ [u]) (this s));
        now := now s;
        timers := timers s ++ [nextTimer s];
        nextTimer := Pos.succ (nextTimer s);
        log := log s ++ [SetTimeout (nextTimer s) (batchInterval (this s))]
     |}).
Proof.
  intros H. unfold queueUpdate, setTimeout. js_unfold. cbn. now rewrite H.
Qed.

Lemma queueUpdate_coherent (s : State) (u : bytes) :
  coherent s ->
  exists s', queueUpdate u s = (inr tt, s') /\ coherent s'
             /\ (List.length (armings (log s'))
                 <= S (List.length (armings (log s))))%nat
             /\ (batchTimer (this s) <> None ->
                 batchTimer (this s') = batchTimer (this s)
                 /\ timers s' = timers s /\ log s' = log s).
Proof.
  intros [Ht Hp]. destruct (batchTimer (this s)) as [t|] eqn:E.
  - rewrite (queueUpdate_armed s u t E). eexists. split; [reflexivity|].
    unfold coherent. cbn. rewrite E. repeat split; auto.
    intros _ Hnil. now apply app_eq_nil in Hnil as [_ ?].
  - rewrite (queueUpdate_idle s u E). eexists. split; [reflexivity|].
    unfold coherent. cbn. rewrite Ht. repeat split; try congruence.
    + intros _ Hnil. now apply app_eq_nil in Hnil as [_ ?].
    + rewrite armings_app, length_app. cbn. lia.
Qed.

Lemma publishUpdate_settled_spec (net : string -> PromiseResult)
  (s : State) :
  exists s', publishUpdate_settled net s = (inr tt, s')
             /\ this s' = this s /\ same_batching s s'.
Proof.
  unfold publishUpdate_settled. js_unfold. cbn.
  destruct (existsb is_fulfilled (map net (relays (this s)))); cbn;
    eexists; (split; [reflexivity|]); (split; [reflexivity|]); frame.
Qed.

(** [flushUpdates] up to the publish: it leaves no update pending and no
    batch timer recorded, and starts at most one publish. *)
Lemma flushUpdates_send_spec (s : State) :
  pendingUpdates (this s) <> [] ->
  exists sent s',
    flushUpdates_send s = (inr sent, s')
    /\ batchTimer (this s') = None
    /\ pendingUpdates (this s') = []
    /\ timers s' = timers s
    /\ armings (log s') = armings (log s)
    /\ (List.length (publishes (log s'))
        <= S (List.length (publishes (log s))))%nat.
Proof.
  intros Hp. unfold flushUpdates_send.
  unfold Js.bind at 1. unfold read at 1, Js.gets at 1.
  destruct (pendingUpdates (this s)) as [|u pending] eqn:E;
    [contradiction|].
  cbn [List.length Z.of_nat Z.eqb]. js_unfold.
  cbn -[publishUpdate_send].
  match goal with
  | |- context [if ?c then _ else _] => destruct c
  end.
  - match goal with
    | |- context [publishUpdate_send ?u ?st] =>
        destruct (publishUpdate_send_log st u) as (ev & _ & _ & ->)
    end.
    do 2 eexists. split; [reflexivity|]. cbn.
    rewrite armings_app, publishes_app, length_app. cbn.
    rewrite app_nil_r. repeat split; try reflexivity. lia.
  - do 2 eexists. split; [reflexivity|]. cbn. repeat split; auto.
Qed.

Lemma flushUpdates_spec (net : string -> PromiseResult) (s : State) :
  pendingUpdates (this s) <> [] ->
  exists s',
    flushUpdates net s = (inr tt, s')
    /\ batchTimer (this s') = None
    /\ pendingUpdates (this s') = []
    /\ timers s' = timers s
    /\ armings (log s') = armings (log s)
    /\ (List.length (publishes (log s'))
        <= S (List.length (publishes (log s))))%nat.
Proof.
  intros Hp. unfold flushUpdates, Js.bind.
  destruct (flushUpdates_send_spec s Hp)
    as (sent & s1 & -> & Hb & Hq & Ht & Ha & Hl).
  destruct sent; cbn.
  - destruct (publishUpdate_settled_spec net s1)
      as (s2 & -> & Hthis & (F1 & F2 & F3 & F4 & F5 & F6)).
    exists s2. split; [reflexivity|].
    rewrite F1, F3, F4, F5, F6. auto 6.
  - exists s1. auto 7.
Qed.

(** *** Disconnecting *)

(** The effects of [disconnect], in order, for every state: the pool is
    closed, then the batch timer is cleared, then the pending updates are
    flushed, and then ['disconnected'] is emitted. *)
Lemma disconnect_log (s : State) :
  exists sent s',
    disconnect s = (inr sent, s')
    /\ log s'
       = log s ++ closing s ++ clearing s ++ flushing s
         ++ [Emit Disconnected Empty]
    /\ batchTimer (this s') = None
    /\ pendingUpdates (this s') = []
    /\ isConnected (this s') = false
    /\ timers s'
       = match batchTimer (this s) with
         | Some id => filter (fun t => negb (Pos.eqb t id)) (timers s)
         | None => timers s
         end
    /\ armings (log s') = armings (log s)
    /\ (List.length (publishes (log s'))
        <= S (List.length (publishes (log s))))%nat.
Proof.
  unfold disconnect, flushUpdates_send, publishUpdate_send, clearTimeout,
    closing, clearing, flushing, delta, update_event.
  js_unfold.
  destruct (truthy (subscriptionId (this s))) eqn:Et;
    destruct (batchTimer (this s)) as [id|] eqn:Eb;
    destruct (pendingUpdates (this s)) as [|u pending] eqn:Ep;
    (destruct (lastExportedVersion (this s)) as [v|] eqn:Ev;
     [destruct (doc_export_update (doc (this s)) (Some v))
        as [|b update] eqn:Ed
     |destruct (doc_export_update (doc (this s)) None)
        as [|b update] eqn:Ed]);
    repeat (progress (cbn -[Base64.bytesToBase64];
                      rewrite ?Et, ?Eb, ?Ep, ?Ev, ?Ed));
    do 2 eexists; (split; [reflexivity|]); cbn -[Base64.bytesToBase64];
    rewrite ?armings_app, ?publishes_app, ?length_app, <- ?app_assoc;
    cbn -[Base64.bytesToBase64];
    rewrite ?app_nil_r; repeat split; try reflexivity; try assumption; lia.
Qed.

(** *** The batch timer over whole runs *)

Lemma same_batching_coherent (s s' : State) :
  same_batching s s' -> coherent s -> coherent s'.
Proof.
  unfold same_batching, coherent. intros (Ht & _ & Hb & Hp & _) [C1 C2].
  rewrite Ht, Hb, Hp. auto.
Qed.

Lemma timer_fires_spec (id : positive) (net : string -> PromiseResult)
  (s : State) :
  coherent s ->
  exists s',
    timer_fires id net s = (inr tt, s')
    /\ coherent s'
    /\ (batchTimer (this s) = Some id ->
        timers s' = [] /\ batchTimer (this s') = None
        /\ pendingUpdates (this s') = []
        /\ armings (log s') = armings (log s)
        /\ (List.length (publishes (log s'))
            <= S (List.length (publishes (log s))))%nat).
Proof.
  intros [Ht Hp]. unfold timer_fires, Js.bind at 1, Js.gets at 1.
  rewrite Ht. destruct (batchTimer (this s)) as [t|] eqn:Eb; cbn [existsb].
  - rewrite orb_false_r. destruct (Pos.eqb_spec id t) as [->|Hne].
    + unfold Js.bind, Js.modify. rewrite Ht. cbn [filter].
      rewrite Pos.eqb_refl. cbn [negb].
      match goal with
      | |- context [flushUpdates net ?st] =>
          destruct (flushUpdates_spec net st) as (s' & -> & B & Q & T & A & L)
      end.
      { cbn. apply Hp. discriminate. }
      exists s'. cbn in T, A, L. split; [reflexivity|]. split.
      * unfold coherent. rewrite T, B. split; [reflexivity | congruence].
      * intros _. auto.
    + exists s. split; [reflexivity|]. split.
      * unfold coherent. now rewrite Ht, Eb.
      * intros [= ->]. contradiction.
  - exists s. split; [reflexivity|]. split.
    + unfold coherent. now rewrite Ht, Eb.
    + discriminate.
Qed.

Lemma disconnect_settled_coherent (net : string -> PromiseResult)
  (s : State) :
  coherent s ->
  exists s', disconnect_settled net s = (inr tt, s') /\ coherent s'.
Proof.
  intros [Ht Hp]. unfold disconnect_settled, Js.bind.
  destruct (disconnect_log s) as (sent & s1 & -> & _ & B & Q & _ & T & _).
  assert (C1 : coherent s1).
  { unfold coherent. rewrite B, T, Ht. split; [|congruence].
    destruct (batchTimer (this s)); [|reflexivity].
    cbn. now rewrite Pos.eqb_refl. }
  destruct sent; cbn.
  - destruct (publishUpdate_settled_spec net s1) as (s2 & -> & _ & F).
    exists s2. split; [reflexivity|].
    now apply (same_batching_coherent s1).
  - now exists s1.
Qed.

Lemma step_coherent (i : Input) (s : State) :
  coherent s -> exists s', step i s = (inr tt, s') /\ coherent s'.
Proof.
  intros C. destruct i as [u | id net | e | q1 q2 | net]; cbn [step].
  - destruct (queueUpdate_coherent s u C) as (s' & E & C' & _). eauto.
  - destruct (timer_fires_spec id net s C) as (s' & E & C' & _). eauto.
  - destruct (handleEvent_spec e s) as (s' & E & F).
    exists s'. split; [exact E|]. now apply (same_batching_coherent s).
  - destruct (fetchHistory_batching q1 q2 s) as (s' & E & F).
    exists s'. split; [exact E|]. now apply (same_batching_coherent s).
  - now apply disconnect_settled_coherent.
Qed.

Lemma steps_coherent (inputs : list Input) (s : State) :
  coherent s ->
  exists s', Js.for_each inputs step s = (inr tt, s') /\ coherent s'.
Proof.
  revert s. induction inputs as [|i inputs IH]; intros s C; cbn.
  - now exists s.
  - unfold Js.bind. destruct (step_coherent i s C) as (s1 & -> & C1).
    now apply IH.
Qed.

Lemma create_coherent (d : Doc) (id : string) (urls : list string)
  (key : string) : coherent (create d id urls key).
Proof. split; [reflexivity|]. intros H. now destruct H. Qed.

(** However many updates are queued in a row, at most one timer is set. *)
Lemma enqueues_spec (us : list bytes) (s : State) :
  coherent s ->
  exists s',
    Js.for_each us queueUpdate s = (inr tt, s')
    /\ coherent s'
    /\ pendingUpdates (this s') = pendingUpdates (this s) ++ us
    /\ (batchTimer (this s) <> None ->
        batchTimer (this s') = batchTimer (this s)
        /\ timers s' = timers s /\ log s' = log s)
    /\ (batchTimer (this s) = None -> us <> [] ->
        batchTimer (this s') = Some (nextTimer s)
        /\ timers s' = [nextTimer s]
        /\ log s' = log s ++ [SetTimeout (nextTimer s)
                                (batchInterval (this s))]).
Proof.
  revert s. induction us as [|u us IH]; intros s C; cbn.
  - exists s. rewrite app_nil_r.
    split; [reflexivity|]. split; [exact C|]. split; [reflexivity|].
    split; [auto|]. intros _ H. now destruct H.
  - unfold Js.bind.
    destruct (batchTimer (this s)) as [t|] eqn:Eb.
    + rewrite (queueUpdate_armed s u t Eb).
      destruct (queueUpdate_coherent s u C) as (s1 & E1 & C1 & _).
      rewrite (queueUpdate_armed s u t Eb) in E1. injection E1 as <-.
      match goal with
      | |- context [Js.for_each us queueUpdate ?st] =>
          destruct (IH st C1) as (s2 & -> & C2 & P2 & K2 & _)
      end.
      exists s2. split; [reflexivity|]. split; [exact C2|].
      cbn in P2, K2. rewrite Eb in K2.
      split; [now rewrite P2, <- app_assoc|].
      split; [intros _; apply K2; discriminate | discriminate].
    + rewrite (queueUpdate_idle s u Eb).
      destruct (queueUpdate_coherent s u C) as (s1 & E1 & C1 & _).
      rewrite (queueUpdate_idle s u Eb) in E1. injection E1 as <-.
      match goal with
      | |- context [Js.for_each us queueUpdate ?st] =>
          destruct (IH st C1) as (s2 & -> & C2 & P2 & K2 & _)
      end.
      exists s2. split; [reflexivity|]. split; [exact C2|].
      cbn in P2, K2.
      split; [now rewrite P2, <- app_assoc|].
      split; [congruence|]. intros _ _.
      destruct K2 as (K21 & K22 & K23); [discriminate|].
      destruct C as [Ct _]. rewrite Eb in Ct.
      rewrite K21, K22, K23, Ct. auto.
Qed.

(** C6. Batch-timer debounce.  In a state where the armed timeouts are the
    batch timer, (1) [queueUpdate] arms a timer only when none is armed:
    with one armed it sets and clears nothing and keeps the handle, with
    none armed it sets exactly one; (2) after any number of updates queued
    in a row, from no timer armed, one timer stands armed and one
    [setTimeout] was made, and from a timer armed, that timer stands and
    none was made; (3) along every run of local updates, timer expiries,
    received events and disconnects, at most one timer is armed; and
    (4) when the armed timer expires, [flushUpdates] runs once: no timer is
    left armed, nothing is left pending and at most one event is
    published. *)
Theorem batch_timer_debounce (s : State) :
  coherent s ->
  (forall u,
      let s' := run (queueUpdate u) s in
      pendingUpdates (this s') = pendingUpdates (this s) ++ [u]
      /\ match batchTimer (this s) with
         | Some t =>
             batchTimer (this s') = Some t /\ timers s' = timers s
             /\ log s' = log s
         | None =>
             batchTimer (this s') = Some (nextTimer s)
             /\ timers s' = [nextTimer s]
             /\ log s' = log s ++ [SetTimeout (nextTimer s)
                                     (batchInterval (this s))]
         end)
  /\ (forall u us,
         let s' := run (Js.for_each (u :: us) queueUpdate) s in
         pendingUpdates (this s') = pendingUpdates (this s) ++ u :: us
         /\ (List.length (timers s') = 1)%nat
         /\ match batchTimer (this s) with
            | Some t =>
                batchTimer (this s') = Some t /\ timers s' = timers s
                /\ armings (log s') = armings (log s)
            | None =>
                batchTimer (this s') = Some (nextTimer s)
                /\ armings (log s') = armings (log s) ++ [nextTimer s]
            end)
  /\ (forall inputs,
         let s' := run (Js.for_each inputs step) s in
         coherent s' /\ (List.length (timers s') <= 1)%nat)
  /\ (forall t net,
         batchTimer (this s) = Some t ->
         let s' := run (timer_fires t net) s in
         timers s' = [] /\ batchTimer (this s') = None
         /\ pendingUpdates (this s') = []
         /\ (List.length (publishes (log s'))
             <= S (List.length (publishes (log s))))%nat).
Proof.
  intros C. split; [|split; [|split]].
  - intros u. cbv zeta. unfold run.
    destruct (batchTimer (this s)) as [t|] eqn:Eb.
    + rewrite (queueUpdate_armed s u t Eb). cbn. auto.
    + rewrite (queueUpdate_idle s u Eb). cbn. destruct C as [Ct _].
      rewrite Eb in Ct. rewrite Ct. auto.
  - intros u us. cbv zeta. unfold run.
    destruct (enqueues_spec (u :: us) s C) as (s' & -> & [Ct' _] & P & K & I).
    cbn [snd]. split; [exact P|].
    destruct (batchTimer (this s)) as [t|] eqn:Eb.
    + destruct K as (K1 & K2 & K3); [discriminate|].
      destruct C as [Ct _]. rewrite Eb in Ct.
      rewrite K2, K3, Ct. auto.
    + destruct I as (I1 & I2 & I3); [reflexivity | discriminate |].
      rewrite I2, I3, armings_app. auto.
  - intros inputs. cbv zeta. unfold run.
    destruct (steps_coherent inputs s C) as (s' & -> & C').
    cbn [snd]. split; [exact C'|]. destruct C' as [Ct' _]. rewrite Ct'.
    destruct (batchTimer (this s')); cbn; lia.
  - intros t net Eb. cbv zeta. unfold run.
    destruct (timer_fires_spec t net s C) as (s' & -> & _ & H).
    cbn [snd]. destruct (H Eb) as (? & ? & ? & _ & ?). auto.
Qed.

Example generateColor_samples :
  generateColor "a" = "hsl(97, 70%, 50%)"
  /\ generateColor "ab" = "hsl(225, 70%, 50%)".
Proof. split; reflexivity. Qed.

(** *** Whose events are applied, and for which document *)

Lemma flat_map_In_split {A B} (f : A -> list B) (x : A) (l : list A) :
  In x l -> exists pre post, flat_map f l = pre ++ f x ++ post.
Proof.
  intros H. apply in_split in H as (l1 & l2 & ->).
  exists (flat_map f l1), (flat_map f l2).
  rewrite flat_map_app. reflexivity.
Qed.

(** C2, as the provider has it.  Self-echo suppression holds on the
    subscription path only.  For an event that the provider's own key
    signed: [handleEvent] changes nothing and causes no effect, whatever
    the kind of the event (no import, no presence entry, no notification);
    [fetchHistory] does not suppress it: when it is an update event among
    those the two history queries return, its payload is handed to
    [doc.import], and when it is the one snapshot event returned, with
    update events only in the other query, its payload is handed to
    [doc.import] first and the payloads of the updates follow in ascending
    [created_at] order. *)
Theorem self_echo_live_only (s : State) (e : NostrEvent) :
  pubkey e = publicKey (this s) ->
  handleEvent e s = (inr tt, s)
  /\ (forall snaps ups,
        In e (snaps ++ ups) -> kind e = CRDT_UPDATE ->
        exists pre post,
          imports (log (run (fetchHistory (inr snaps) (inr ups)) s))
          = imports (log s) ++ pre ++ payload e ++ post)
  /\ (forall ups,
        kind e = DOCUMENT_SNAPSHOT ->
        Forall (fun u => kind u = CRDT_UPDATE) ups ->
        imports (log (run (fetchHistory (inr [e]) (inr ups)) s))
        = imports (log s) ++ payload e ++ flat_map payload (sort ups)).
Proof.
  intros H. split; [|split].
  - unfold handleEvent, read, Js.bind, Js.gets, Js.ret.
    rewrite H, String.eqb_refl. reflexivity.
  - intros snaps ups Hin Hk.
    destruct (fetchHistory_spec snaps ups s) as (s' & E & I & _).
    unfold run. rewrite E. cbn [snd]. rewrite I.
    assert (Hf : In e (filter is_update (sort (snaps ++ ups)))).
    { apply filter_In. split.
      - eapply Permutation_in; [|exact Hin]. symmetry. apply sort_perm.
      - unfold is_update. rewrite Hk. reflexivity. }
    destruct (flat_map_In_split payload e _ Hf) as (pre & post & ->).
    exists (match find is_snapshot (sort (snaps ++ ups)) with
            | Some snapshot => payload snapshot
            | None => []
            end ++ pre), post.
    now rewrite <- !app_assoc.
  - intros ups Hk Hu.
    destruct (fetchHistory_spec [e] ups s) as (s' & E & I & _).
    assert (Hs : Forall (fun x => kind x = DOCUMENT_SNAPSHOT) [e])
      by (constructor; [exact Hk | constructor]).
    destruct (filter_kinds [e] ups Hs Hu) as [Fs Fu].
    unfold run. rewrite E. cbn [snd].
    rewrite I, find_filter, !filter_sort, Fs, Fu. reflexivity.
Qed.

(** *** The envelope's [docId] *)

Lemma with_docId_payload (d : string) (e : NostrEvent) :
  payload (with_docId d e) = payload e.
Proof.
  unfold payload, with_docId. cbn.
  destruct (content e) as [[m|p]|]; reflexivity.
Qed.

Lemma with_docId_applyUpdate (d : string) (e : NostrEvent) (s : State) :
  applyUpdate (with_docId d e) s = applyUpdate e s.
Proof.
  unfold applyUpdate, with_docId. cbn.
  destruct (content e) as [[m|p]|]; reflexivity.
Qed.

Lemma with_docId_applySnapshot (d : string) (e : NostrEvent) (s : State) :
  applySnapshot (with_docId d e) s = applySnapshot e s.
Proof.
  unfold applySnapshot, with_docId. cbn.
  destruct (content e) as [[m|p]|]; reflexivity.
Qed.

Lemma with_docId_handlePresence (d : string) (e : NostrEvent) (s : State) :
  handlePresence (with_docId d e) s = handlePresence e s.
Proof.
  unfold handlePresence, with_docId. cbn.
  destruct (content e) as [[m|p]|]; reflexivity.
Qed.

Lemma with_docId_handleEvent (d : string) (e : NostrEvent) (s : State) :
  handleEvent (with_docId d e) s = handleEvent e s.
Proof.
  unfold handleEvent, read, Js.bind, Js.gets, Js.ret.
  change (pubkey (with_docId d e)) with (pubkey e).
  change (kind (with_docId d e)) with (kind e).
  destruct (String.eqb (pubkey e) (publicKey (this s))); [reflexivity|].
  destruct (kind e =? CRDT_UPDATE); [apply with_docId_applyUpdate|].
  destruct (kind e =? DOCUMENT_SNAPSHOT); [apply with_docId_applySnapshot|].
  destruct (kind e =? PRESENCE); [apply with_docId_handlePresence|].
  reflexivity.
Qed.

Section Relabelled.
Variable f : NostrEvent -> string.

Lemma insert_relabel (e : NostrEvent) (l : list NostrEvent) :
  insert (relabel f e) (map (relabel f) l) = map (relabel f) (insert e l).
Proof.
  induction l as [|x l IH]; cbn; [reflexivity|].
  destruct (created_at e <=? created_at x); cbn; [reflexivity|].
  now rewrite <- IH.
Qed.

Lemma sort_relabel (l : list NostrEvent) :
  sort (map (relabel f) l) = map (relabel f) (sort l).
Proof.
  induction l as [|e l IH]; cbn; [reflexivity|].
  rewrite <- insert_relabel, <- IH. reflexivity.
Qed.

Lemma find_relabel (k : Z) (l : list NostrEvent) :
  find (fun e => kind e =? k) (map (relabel f) l)
  = option_map (relabel f) (find (fun e => kind e =? k) l).
Proof.
  induction l as [|e l IH]; cbn; [reflexivity|].
  destruct (kind e =? k); [reflexivity | exact IH].
Qed.

Lemma apply_updates_relabel (l : list NostrEvent) (s : State) :
  Js.for_each (map (relabel f) l)
    (fun event => Js.when (kind event =? CRDT_UPDATE) (applyUpdate event)) s
  = Js.for_each l
      (fun event => Js.when (kind event =? CRDT_UPDATE) (applyUpdate event)) s.
Proof.
  revert s. induction l as [|e l IH]; intros s; [reflexivity|].
  cbn [map Js.for_each]. unfold Js.bind, Js.when.
  change (kind (relabel f e)) with (kind e).
  destruct (kind e =? CRDT_UPDATE).
  - unfold relabel at 1. rewrite with_docId_applyUpdate.
    destruct (applyUpdate e s) as [[x|[]] s1]; [reflexivity | apply IH].
  - unfold Js.ret. apply IH.
Qed.

Lemma fetchHistory_relabel (snaps ups : list NostrEvent) (s : State) :
  fetchHistory (inr (map (relabel f) snaps)) (inr (map (relabel f) ups)) s
  = fetchHistory (inr snaps) (inr ups) s.
Proof.
  unfold fetchHistory. js_unfold.
  cbn -[applySnapshot applyUpdate sort Js.for_each find].
  rewrite <- map_app, sort_relabel, find_relabel.
  destruct (find (fun e => kind e =? DOCUMENT_SNAPSHOT) (sort (snaps ++ ups)))
    as [snapshot|]; cbn [option_map].
  - unfold relabel at 1. rewrite with_docId_applySnapshot.
    match goal with |- context [applySnapshot snapshot ?s0] =>
      destruct (applySnapshot snapshot s0) as [[x|[]] s1] end;
      [reflexivity|].
    match goal with |- context [Js.for_each (map (relabel f) ?l) ?b ?s0] =>
      change b with
        (fun event => Js.when (kind event =? CRDT_UPDATE) (applyUpdate event));
      rewrite (apply_updates_relabel l s0) end.
    reflexivity.
  - match goal with |- context [Js.for_each (map (relabel f) ?l) ?b ?s0] =>
      change b with
        (fun event => Js.when (kind event =? CRDT_UPDATE) (applyUpdate event));
      rewrite (apply_updates_relabel l s0) end.
    reflexivity.
Qed.

End Relabelled.

(** C3, as the provider has it.  No receive path reads the envelope's
    [docId].  With the [docId] of an event's envelope replaced by any other
    value, the event has the same payload and [applyUpdate],
    [applySnapshot] and [handleEvent] give the same result; [fetchHistory]
    gives the same result when the [docId] of every returned event is
    replaced, each by a value of its own.  And [applyUpdate] and
    [applySnapshot] hand the payload of the event, when its content
    decodes, to [doc.import], with no comparison of [docId] and the
    provider's document identifier. *)
Theorem docId_not_checked (s : State) (e : NostrEvent) (d : string) :
  payload (with_docId d e) = payload e
  /\ applyUpdate (with_docId d e) s = applyUpdate e s
  /\ applySnapshot (with_docId d e) s = applySnapshot e s
  /\ handleEvent (with_docId d e) s = handleEvent e s
  /\ (forall (f : NostrEvent -> string) snaps ups,
        fetchHistory (inr (map (relabel f) snaps))
          (inr (map (relabel f) ups)) s
        = fetchHistory (inr snaps) (inr ups) s)
  /\ imports (log (run (applyUpdate e) s)) = imports (log s) ++ payload e
  /\ imports (log (run (applySnapshot e) s)) = imports (log s) ++ payload e.
Proof.
  split; [|split; [|split; [|split; [|split; [|split]]]]].
  - apply with_docId_payload.
  - apply with_docId_applyUpdate.
  - apply with_docId_applySnapshot.
  - apply with_docId_handleEvent.
  - intros f snaps ups. apply fetchHistory_relabel.
  - unfold run. destruct (applyUpdate_spec e s) as (s' & -> & I & _).
    exact I.
  - unfold run. destruct (applySnapshot_spec e s) as (s' & -> & I & _).
    exact I.
Qed.

End ProviderFacts.

(** ** The running example *)

Section SampleFacts.
Import Provider.
Local Open Scope string_scope.
Local Open Scope list_scope.
Local Open Scope Z_scope.

Lemma empty_delta_skip_witness :
  doc_export_update (doc (this Sample.idle))
    (lastExportedVersion (this Sample.idle)) = []
  /\ pendingUpdates (this Sample.idle) = [[x01; x02]]
  /\ log (run (flushUpdates Sample.all_reject) Sample.idle) = log Sample.idle.
Proof.
  split; [reflexivity|]. split; [reflexivity|].
  apply (empty_delta_skip Sample.idle Sample.all_reject). reflexivity.
Defined.

Lemma history_reconciliation_order_witness :
  Forall (fun e => kind e = DOCUMENT_SNAPSHOT) Sample.snapshots
  /\ (List.length Sample.snapshots <= 1)%nat
  /\ Forall (fun e => kind e = CRDT_UPDATE) Sample.updates
  /\ imports (log (run (fetchHistory (inr Sample.snapshots)
                          (inr Sample.updates)) Sample.fresh))
     = [[x53]; [x01]; [x02]; [x03]].
Proof.
  assert (H1 : Forall (fun e => kind e = DOCUMENT_SNAPSHOT) Sample.snapshots)
    by (repeat constructor).
  assert (H2 : (List.length Sample.snapshots <= 1)%nat) by (cbn; lia).
  assert (H3 : Forall (fun e => kind e = CRDT_UPDATE) Sample.updates)
    by (repeat constructor).
  repeat (split; [assumption|]).
  destruct (history_reconciliation_order Sample.fresh Sample.snapshots
              Sample.updates H1 H2 H3) as (_ & H & _).
  exact H.
Defined.

Lemma self_echo_live_only_witness :
  pubkey Sample.own_update = publicKey (this Sample.fresh)
  /\ handleEvent Sample.own_update Sample.fresh = (inr tt, Sample.fresh)
  /\ exists pre post,
       imports (log (run (fetchHistory (inr Sample.snapshots)
                            (inr (Sample.own_update :: Sample.updates)))
                       Sample.fresh))
       = imports (log Sample.fresh) ++ pre ++ payload Sample.own_update
         ++ post.
Proof.
  assert (H : pubkey Sample.own_update = publicKey (this Sample.fresh))
    by reflexivity.
  split; [exact H|].
  destruct (self_echo_live_only Sample.fresh Sample.own_update H)
    as (L & Hist & _).
  split; [exact L|].
  apply (Hist Sample.snapshots (Sample.own_update :: Sample.updates)).
  - right. left. reflexivity.
  - reflexivity.
Defined.

(** The history path has no signer check: an update signed by the local
    key and returned by the history query is imported. *)
Lemma history_imports_own_event :
  pubkey Sample.own_update = publicKey (this Sample.fresh)
  /\ imports (log Sample.fresh) = []
  /\ imports (log (run (fetchHistory (inr []) (inr [Sample.own_update]))
                     Sample.fresh))
     = [[x01; x02; x03]].
Proof. repeat split. Qed.

(** An update whose envelope names another document is imported. *)
Lemma foreign_docId_imported :
  (exists m, content Sample.foreign_update = Some (JEnvelope m)
             /\ msg_docId m <> docId (this Sample.fresh))
  /\ imports (log Sample.fresh) = []
  /\ imports (log (run (applyUpdate Sample.foreign_update) Sample.fresh))
     = [[x01; x02; x03]]
  /\ imports (log (run (handleEvent Sample.foreign_update) Sample.fresh))
     = [[x01; x02; x03]].
Proof.
  split; [|repeat split].
  eexists. split; [reflexivity|]. discriminate.
Qed.

Lemma batch_timer_debounce_witness :
  coherent Sample.connected
  /\ batchTimer (this Sample.connected) = None
  /\ (let s' := run (Js.for_each [[x01]; [x02]; [x03]] queueUpdate)
                  Sample.connected in
      pendingUpdates (this s') = [[x01]; [x02]; [x03]]
      /\ List.length (timers s') = 1%nat
      /\ batchTimer (this s') = Some 1%positive
      /\ armings (log s') = [1%positive]).
Proof.
  assert (C : coherent Sample.connected).
  { split; [reflexivity|]. intros H. now destruct H. }
  split; [exact C|]. split; [reflexivity|].
  destruct (batch_timer_debounce Sample.connected C) as (_ & H & _).
  destruct (H [x01] [[x02]; [x03]]) as (H1 & H2 & H3 & H4).
  cbv zeta. split; [exact H1|]. split; [exact H2|]. split; [exact H3|].
  exact H4.
Defined.

(** Three edits queued before the timer expires are published as one
    event; the timer that has expired is not armed any more. *)
Example three_edits_one_publish :
  let s := run (Js.for_each
                  [LocalUpdate [x01]; LocalUpdate [x02]; LocalUpdate [x03];
                   TimerFires 1 Sample.all_reject;
                   TimerFires 1 Sample.all_reject] step)
             Sample.connected in
  List.length (publishes (log s)) = 1%nat /\ timers s = []
  /\ List.length (errors (log s)) = 1%nat.
Proof. repeat split. Qed.

(** C7 at a connected provider with one update pending and the batch timer
    armed: [disconnect] closes the pool first, and only then clears the
    timer and flushes, so the update is published through the pool that
    was just closed. *)
Theorem disconnect_closes_pool_before_flush :
  subscriptionId (this Sample.busy) = Some "active"
  /\ batchTimer (this Sample.busy) = Some 1%positive
  /\ pendingUpdates (this Sample.busy) = [[x01; x02]]
  /\ skipn (List.length (log Sample.busy)) (log (run disconnect Sample.busy))
     = [PoolClose Sample.urls; ClearTimeout 1;
        PoolPublish Sample.urls (update_event Sample.busy [x01; x02]);
        Emit Disconnected Empty].
Proof. repeat split. Qed.

End SampleFacts.

(** ** The key store *)

Section StoreFacts.
Import Store.
Context {tools : NostrTools}.
Local Open Scope string_scope.
Local Open Scope list_scope.

(** What [importKeys] does, case by case: it throws with the store's
    state as it was, or it has read a text of at least one piece whose bytes
    [getPublicKey] accepts, and stores that text. *)
Lemma importKeys_cases (privateKey : string) (st : Store) :
  (exists e,
     importKeys privateKey st
     = (inl (Js.Error "Invalid private key format"),
        {| state := state st;
           console := console st ++ [("Failed to import keys:", e)] |}))
  \/ (exists hexKey pub,
        hex_text privateKey = inr hexKey
        /\ pieces (list_ascii_of_string hexKey) <> []
        /\ getPublicKey
             (key_bytes (pieces (list_ascii_of_string hexKey)))
           = inr pub
        /\ importKeys privateKey st
           = (inr tt,
              {| state :=
                   {| keys := Some {| publicKey := pub;
                                      privateKey := hexKey |};
                      relays := relays (state st);
                      isConnected := isConnected (state st);
                      userName := userName (state st) |};
                 console := console st |})).
Proof.
  unfold hex_text, importKeys, set_keys, console_error,
    Js.try_catch, Js.bind, Js.lift, Js.ret, Js.throw, Js.modify.
  destruct (String.prefix "nsec" privateKey).
  - destruct (nip19_decode privateKey) as [e|[data|type]].
    + left. now exists e.
    + destruct (pieces (list_ascii_of_string (hex_of_bytes data)))
        as [|m ms] eqn:Ep.
      * left. eexists. reflexivity.
      * destruct (getPublicKey (key_bytes (m :: ms))) as [e|pub] eqn:Eg.
        -- left. now exists e.
        -- right. exists (hex_of_bytes data), pub. rewrite Ep.
           repeat split; [discriminate | exact Eg].
    + destruct (pieces (list_ascii_of_string privateKey))
        as [|m ms] eqn:Ep.
      * left. eexists. reflexivity.
      * destruct (getPublicKey (key_bytes (m :: ms))) as [e|pub] eqn:Eg.
        -- left. now exists e.
        -- right. exists privateKey, pub. rewrite Ep.
           repeat split; [discriminate | exact Eg].
  - destruct (pieces (list_ascii_of_string privateKey)) as [|m ms] eqn:Ep.
    + left. eexists. reflexivity.
    + destruct (getPublicKey (key_bytes (m :: ms))) as [e|pub] eqn:Eg.
      * left. now exists e.
      * right. exists privateKey, pub. rewrite Ep.
        repeat split; [discriminate | exact Eg].
Qed.

(** Whenever [importKeys] throws, it throws
    ['Invalid private key format'] and the stored state, keys included, is
    as it was. *)
Lemma importKeys_throws (privateKey : string) (st st' : Store)
  (e : Js.Exn) :
  importKeys privateKey st = (inl e, st') ->
  e = Js.Error "Invalid private key format" /\ state st' = state st.
Proof.
  destruct (importKeys_cases privateKey st)
    as [(x & E) | (hexKey & pub & _ & _ & _ & E)]; rewrite E.
  - intros [= <- <-]. auto.
  - discriminate.
Qed.

(** C9, at two texts that are no private key.  The code does not raise
    the key-format error for them: neither text is 64 hexadecimal digits
    and neither is an [nsec] text, yet [importKeys] reads 32 bytes from it
    (a piece that does not start with hexadecimal digits counts as 0,
    what follows the digits of a piece is dropped, a last piece of one
    character is a byte of its own), and when [getPublicKey] accepts these
    bytes, it returns normally and stores the text as the private key. *)
Theorem importKeys_stores_malformed_key (text pub : string) (st : Store) :
  In text [Sample.not_hex; Sample.too_short] ->
  getPublicKey (repeat x01 32) = inr pub ->
  is_hex_key text = false
  /\ String.prefix "nsec" text = false
  /\ key_bytes (pieces (list_ascii_of_string text)) = repeat x01 32
  /\ importKeys text st
     = (inr tt,
        {| state :=
             {| keys := Some {| publicKey := pub; privateKey := text |};
                relays := relays (state st);
                isConnected := isConnected (state st);
                userName := userName (state st) |};
           console := console st |}).
Proof.
  intros Hin G.
  assert (V : is_hex_key text = false)
    by (destruct Hin as [<-|[<-|[]]]; reflexivity).
  assert (P : String.prefix "nsec" text = false)
    by (destruct Hin as [<-|[<-|[]]]; reflexivity).
  assert (K : key_bytes (pieces (list_ascii_of_string text)) = repeat x01 32)
    by (destruct Hin as [<-|[<-|[]]]; reflexivity).
  repeat (split; [assumption|]).
  unfold importKeys, set_keys, Js.try_catch, Js.bind, Js.lift, Js.ret,
    Js.throw, Js.modify.
  rewrite P.
  destruct (pieces (list_ascii_of_string text)) as [|m ms] eqn:Ep;
    [discriminate|].
  rewrite K, G. reflexivity.
Qed.

End StoreFacts.

Section StoreExamples.
Import Store.
Local Open Scope string_scope.

Example parseInt16_samples :
  parseInt16 (list_ascii_of_string "ff") = Some 255%Z
  /\ parseInt16 (list_ascii_of_string "1g") = Some 1%Z
  /\ parseInt16 (list_ascii_of_string "-a") = Some (-10)%Z
  /\ parseInt16 (list_ascii_of_string " 7") = Some 7%Z
  /\ parseInt16 (list_ascii_of_string "0x") = None
  /\ parseInt16 (list_ascii_of_string "zz") = None
  /\ toUint8 (Some (-10)%Z) = xf6.
Proof. repeat split. Qed.

(** A piece that is not hexadecimal is read as 0, and a trailing character
    that is not a digit is dropped: such text still gives bytes. *)
Example key_bytes_lenient :
  key_bytes (pieces (list_ascii_of_string "zz1gff")) = [x00; x01; xff].
Proof. reflexivity. Qed.

Lemma importKeys_stores_malformed_key_witness :
  In Sample.not_hex [Sample.not_hex; Sample.too_short]
  /\ getPublicKey (NostrTools := Sample.tools) (repeat x01 32)
     = inr (hex_of_bytes (repeat x01 32))
  /\ is_hex_key Sample.not_hex = false
  /\ keys (state (snd (importKeys (tools := Sample.tools) Sample.not_hex
                         initial)))
     = Some {| publicKey := hex_of_bytes (repeat x01 32);
               privateKey := Sample.not_hex |}.
Proof.
  assert (H : In Sample.not_hex [Sample.not_hex; Sample.too_short])
    by (left; reflexivity).
  assert (G : getPublicKey (NostrTools := Sample.tools) (repeat x01 32)
              = inr (hex_of_bytes (repeat x01 32))) by reflexivity.
  split; [exact H|]. split; [exact G|].
  destruct (importKeys_stores_malformed_key (tools := Sample.tools)
              Sample.not_hex _ initial H G) as (V & _ & _ & E).
  split; [exact V|]. rewrite E. reflexivity.
Defined.

End StoreExamples.

(** ** The latency probe *)

Section MetricsFacts.
Import Metrics.
Variable capacity : nat.
Local Open Scope string_scope.
Local Open Scope list_scope.
Local Open Scope Z_scope.

Lemma keep_last_short {A} (n : nat) (l : list A) :
  (List.length l <= n)%nat -> keep_last n l = l.
Proof.
  intros H. unfold keep_last.
  now replace (List.length l - n)%nat with 0%nat by lia.
Qed.

Lemma keep_last_length {A} (n : nat) (l : list A) :
  (List.length (keep_last n l) <= n)%nat.
Proof. unfold keep_last. rewrite length_skipn. lia. Qed.

Lemma skipn_In {A} (k : nat) (l : list A) (x : A) :
  In x (skipn k l) -> In x l.
Proof.
  intros H. rewrite <- (firstn_skipn k l). apply in_or_app. now right.
Qed.

Lemma skipn_NoDup {A} (k : nat) (l : list A) :
  NoDup l -> NoDup (skipn k l).
Proof.
  intros H. rewrite <- (firstn_skipn k l) in H.
  now apply NoDup_app_remove_l in H.
Qed.

Lemma keep_last_snoc {A} (n : nat) (l : list A) (x : A) :
  (0 < n)%nat -> In x (keep_last n (l ++ [x])).
Proof.
  intros H. unfold keep_last. rewrite length_app, skipn_app. cbn.
  apply in_or_app. right.
  replace (List.length l + 1 - n - List.length l)%nat with 0%nat by lia.
  now left.
Qed.

Lemma keep_last_app {A} (n : nat) (l r : list A) :
  keep_last n (keep_last n l ++ r) = keep_last n (l ++ r).
Proof.
  unfold keep_last. rewrite !length_app, length_skipn.
  destruct (Nat.le_gt_cases (List.length l) n) as [Hle|Hgt].
  - replace (List.length l - n)%nat with 0%nat by lia.
    cbn [skipn]. now rewrite Nat.sub_0_r.
  - replace (List.length l + List.length r - n)%nat
      with (List.length r + (List.length l - n))%nat by lia.
    rewrite <- skipn_skipn, (skipn_app (List.length l - n) l r).
    replace (List.length l - n - List.length l)%nat with 0%nat by lia.
    cbn [skipn]. f_equal. lia.
Qed.

Lemma keep_last_tail {A} (n : nat) (l r : list A) :
  (n <= List.length r)%nat -> keep_last n (l ++ r) = keep_last n r.
Proof.
  intros H. unfold keep_last. rewrite length_app, skipn_app.
  rewrite skipn_all2 by lia. cbn [app]. f_equal. lia.
Qed.

Lemma min_of_bound (l : list Z) (lo : Z) :
  min_of l = Some lo -> Forall (fun x => lo <= x) l.
Proof.
  destruct l as [|x rest]; [discriminate|]. cbn. intros [= <-].
  induction rest as [|y rest IH]; cbn.
  - repeat constructor. lia.
  - inversion_clear IH as [|? ? Hx Hrest]. constructor; [lia|].
    constructor; [lia|]. eapply Forall_impl; [|exact Hrest].
    cbv beta. intros; lia.
Qed.

Lemma max_of_bound (l : list Z) : Forall (fun x => x <= max_of l) l.
Proof.
  destruct l as [|x rest]; [constructor|]. cbn.
  induction rest as [|y rest IH]; cbn.
  - repeat constructor. lia.
  - inversion_clear IH as [|? ? Hx Hrest]. constructor; [lia|].
    constructor; [lia|]. eapply Forall_impl; [|exact Hrest].
    cbv beta. intros; lia.
Qed.

Lemma sum_bounds (l : list Z) (lo hi : Z) :
  Forall (fun x => lo <= x <= hi) l ->
  lo * Z.of_nat (List.length l) <= sum l <= hi * Z.of_nat (List.length l).
Proof.
  induction 1 as [|x l Hx _ IH]; [cbn; lia|].
  cbn [sum fold_right List.length]. fold (sum l). lia.
Qed.

(** The average lies between the least and the greatest sample. *)
Lemma avg_of_bounds (l : list Z) (lo : Z) :
  min_of l = Some lo ->
  (inject_Z lo <= avg_of l)%Q /\ (avg_of l <= inject_Z (max_of l))%Q.
Proof.
  intros Hlo.
  assert (B : Forall (fun x => lo <= x <= max_of l) l).
  { pose proof (min_of_bound l lo Hlo) as H1.
    pose proof (max_of_bound l) as H2.
    rewrite Forall_forall in *. intros x Hx. split; auto. }
  apply sum_bounds in B.
  destruct l as [|x rest]; [discriminate|].
  unfold avg_of, Qle. cbn [Qnum Qden inject_Z].
  assert (E : Z.pos (Pos.of_nat (List.length (x :: rest)))
              = Z.of_nat (List.length (x :: rest))).
  { cbn [List.length]. rewrite <- Pos.of_nat_succ. lia. }
  rewrite E. lia.
Qed.

Lemma same_id_same (h : list LatencyMeasurement) (m m' : LatencyMeasurement) :
  NoDup (map id h) -> In m h -> In m' h -> id m = id m' -> m = m'.
Proof.
  induction h as [|x h IH]; cbn; [contradiction|].
  intros Hnd [->|Hm] [->|Hm'] E; inversion_clear Hnd as [|? ? Hx Hh].
  - reflexivity.
  - exfalso. apply Hx. rewrite E. now apply in_map.
  - exfalso. apply Hx. rewrite <- E. now apply in_map.
  - now apply IH.
Qed.

Lemma find_pending (h : list LatencyMeasurement) (m : LatencyMeasurement) :
  NoDup (map id h) -> In m h -> latency m = None ->
  find (matches (id m)) h = Some m.
Proof.
  intros Hnd Hin Hp.
  destruct (find (matches (id m)) h) as [m'|] eqn:F.
  - apply find_some in F as [Hin' Hm']. unfold matches in Hm'.
    apply andb_true_iff in Hm' as [Hid _]. apply Z.eqb_eq in Hid.
    f_equal. now apply (same_id_same h).
  - exfalso. apply (find_none _ _ F) in Hin. unfold matches, is_pending in Hin.
    now rewrite Z.eqb_refl, Hp in Hin.
Qed.

Lemma completed_ids (i now : Z) (from : option string)
  (h : list LatencyMeasurement) :
  map id (map (fun x => if matches i x then completed x now from else x) h)
  = map id h.
Proof.
  rewrite map_map. apply map_ext. intros x. now destruct (matches i x).
Qed.

Lemma ping_well_formed (now : Z) (c : Collector) :
  well_formed capacity c -> well_formed capacity (ping capacity now c).
Proof.
  intros (Hnd & Hlt & Hlen). unfold well_formed, ping, keep_last. cbn.
  split; [|split].
  - rewrite <- skipn_map. apply skipn_NoDup. rewrite map_app. cbn.
    apply NoDup_app; [exact Hnd | repeat constructor; intros [] |].
    intros x Hx [<-|[]]. rewrite Forall_forall in Hlt.
    apply in_map_iff in Hx as (m & E & Hm). apply Hlt in Hm. lia.
  - apply Forall_forall. intros m Hm. apply skipn_In in Hm.
    apply in_app_or in Hm as [Hm|[<-|[]]]; cbn; [|lia].
    rewrite Forall_forall in Hlt. apply Hlt in Hm. lia.
  - rewrite length_skipn. lia.
Qed.

Lemma observe_well_formed (i now : Z) (from : option string)
  (c : Collector) :
  well_formed capacity c -> well_formed capacity (observe i now from c).
Proof.
  intros (Hnd & Hlt & Hlen). unfold observe.
  destruct (find (matches i) (measurements c)) as [m|];
    [|now repeat split].
  unfold well_formed. cbn. rewrite completed_ids, length_map.
  split; [exact Hnd|]. split; [|exact Hlen].
  apply Forall_map. eapply Forall_impl; [|exact Hlt].
  intros x Hx. now destruct (matches i x).
Qed.

Lemma apply_well_formed (o : Op) (c : Collector) :
  well_formed capacity c -> well_formed capacity (apply capacity c o).
Proof.
  destruct o as [now | kind i now from]; cbn.
  - apply ping_well_formed.
  - unfold on_probe_event.
    destruct ((kind =? Provider.PONG) || (kind =? Provider.PING));
      [apply observe_well_formed | auto].
Qed.

Lemma run_well_formed (ops : list Op) (c : Collector) :
  well_formed capacity c -> well_formed capacity (run capacity ops c).
Proof.
  revert c. induction ops as [|o ops IH]; intros c H; [exact H|].
  change (run capacity (o :: ops) c)
    with (run capacity ops (apply capacity c o)).
  apply IH. now apply apply_well_formed.
Qed.

Lemma errors_snoc (l r : list Effect) :
  errors (l ++ r) = errors l ++ errors r.
Proof. unfold errors. apply filter_app. Qed.

Lemma run_no_error (ops : list Op) (c : Collector) :
  errors (log (run capacity ops c)) = errors (log c).
Proof.
  revert c. induction ops as [|o ops IH]; intros c; [reflexivity|].
  change (run capacity (o :: ops) c)
    with (run capacity ops (apply capacity c o)).
  rewrite IH. destruct o as [now | kind i now from]; cbn.
  - rewrite errors_snoc. cbn. now rewrite app_nil_r.
  - unfold on_probe_event, observe.
    destruct ((kind =? Provider.PONG) || (kind =? Provider.PING));
      [|reflexivity].
    destruct (find (matches i) (measurements c)); [|reflexivity].
    cbn. rewrite errors_snoc. cbn. now rewrite app_nil_r.
Qed.

Lemma pings_measurements (times : list Z) (c : Collector) :
  (List.length (measurements c) <= capacity)%nat ->
  measurements (pings capacity times c)
  = keep_last capacity (measurements c ++ probes (nextId c) times)
  /\ nextId (pings capacity times c) = nextId c + Z.of_nat (List.length times).
Proof.
  revert c. induction times as [|now times IH]; intros c Hlen.
  - cbn. rewrite app_nil_r, keep_last_short by exact Hlen. split; [auto|lia].
  - cbn [pings fold_left probes]. fold (pings capacity times (ping capacity now c)).
    destruct (IH (ping capacity now c)) as [E1 E2].
    { cbn. apply keep_last_length. }
    rewrite E1, E2. cbn [measurements nextId ping].
    rewrite keep_last_app, <- app_assoc. cbn [app List.length].
    split; [reflexivity | lia].
Qed.

Lemma probes_ids (i : Z) (times : list Z) :
  Forall (fun m => i <= id m) (probes i times).
Proof.
  revert i. induction times as [|now times IH]; intros i; cbn;
    constructor; [cbn; lia|].
  eapply Forall_impl; [|apply IH]. cbv beta. intros; lia.
Qed.

Lemma probes_length (i : Z) (times : list Z) :
  List.length (probes i times) = List.length times.
Proof.
  revert i. induction times as [|now times IH]; intros i; cbn; auto.
Qed.

(** After as many unanswered pings as the history holds, only they are
    left in it. *)
Lemma pings_age_out (times : list Z) (c : Collector) :
  (List.length (measurements c) <= capacity)%nat ->
  (capacity <= List.length times)%nat ->
  Forall (fun m => nextId c <= id m)
    (measurements (pings capacity times c)).
Proof.
  intros Hlen Hcap.
  rewrite (proj1 (pings_measurements times c Hlen)).
  rewrite keep_last_tail by (rewrite probes_length; exact Hcap).
  apply Forall_forall. intros m Hm. apply skipn_In in Hm.
  pose proof (probes_ids (nextId c) times) as H.
  rewrite Forall_forall in H. now apply H.
Qed.

Lemma find_unknown (i : Z) (h : list LatencyMeasurement) :
  ~ In i (map id h) -> find (matches i) h = None.
Proof.
  intros H. destruct (find (matches i) h) as [m|] eqn:F; [|reflexivity].
  exfalso. apply find_some in F as [Hin Hm]. unfold matches in Hm.
  apply andb_true_iff in Hm as [Hid _]. apply Z.eqb_eq in Hid.
  apply H. rewrite <- Hid. now apply in_map.
Qed.

Lemma samples_In (h : list LatencyMeasurement) (m : LatencyMeasurement)
  (x : Z) :
  In m h -> latency m = Some x -> In x (samples h).
Proof.
  intros Hin Hl. unfold samples. apply in_flat_map. exists m.
  split; [exact Hin|]. rewrite Hl. now left.
Qed.

(** A reply for a pending measurement of the history completes it. *)
Lemma observe_pending (m : LatencyMeasurement) (now : Z)
  (from : option string) (c : Collector) :
  well_formed capacity c -> In m (measurements c) -> latency m = None ->
  let c' := observe (id m) now from c in
  In (completed m now from) (measurements c')
  /\ lastLatency c' = now - sentAt m
  /\ minLatency c' = min_of (samples (measurements c'))
  /\ maxLatency c' = max_of (samples (measurements c'))
  /\ avgLatency c' = avg_of (samples (measurements c'))
  /\ log c' = log c ++ [Emit "pong" (Some (now - sentAt m));
                        Emit "metrics" None].
Proof.
  intros (Hnd & _ & _) Hin Hp. cbv zeta. unfold observe.
  rewrite (find_pending _ m Hnd Hin Hp). cbn.
  repeat split.
  apply in_map_iff. exists m. split; [|exact Hin].
  unfold matches, is_pending. now rewrite Z.eqb_refl, Hp.
Qed.

(** C8. Latency probe, on the collector modelled from the specification.
    In a collector whose history is within its bound and holds distinct
    identifiers: (1) [ping] publishes one probe with an identifier that no
    measurement of the history has, and records a pending measurement for
    it with the sending time; (2) a pong, or an echoed ping, that carries the
    identifier of a pending measurement completes it with the elapsed time
    [now - sentAt], which becomes the last latency, and the minimum, maximum
    and average are those of the completed measurements of the history, the
    new sample and the average lying between the minimum and the maximum;
    (3) along every run of pings and replies the history stays within its
    bound and no ['error'] is emitted; (4) a ping left unanswered for as
    many further pings as the history holds is no longer in it, and a late
    reply for it changes nothing. *)
Theorem latency_probe (c : Collector) (now : Z) :
  well_formed capacity c -> (0 < capacity)%nat ->
  (let c' := ping capacity now c in
   log c' = log c ++ [Publish Provider.PING (nextId c)]
   /\ ~ In (nextId c) (map id (measurements c))
   /\ In (probe (nextId c) now) (measurements c')
   /\ well_formed capacity c')
  /\ (forall m kind from,
         kind = Provider.PONG \/ kind = Provider.PING ->
         In m (measurements c) -> latency m = None ->
         let c' := on_probe_event kind (id m) now from c in
         In (completed m now from) (measurements c')
         /\ latency (completed m now from) = Some (now - sentAt m)
         /\ lastLatency c' = now - sentAt m
         /\ minLatency c' = min_of (samples (measurements c'))
         /\ maxLatency c' = max_of (samples (measurements c'))
         /\ avgLatency c' = avg_of (samples (measurements c'))
         /\ (exists lo,
                minLatency c' = Some lo
                /\ lo <= now - sentAt m <= maxLatency c'
                /\ (inject_Z lo <= avgLatency c')%Q
                /\ (avgLatency c' <= inject_Z (maxLatency c'))%Q)
         /\ well_formed capacity c')
  /\ (forall ops,
         let c' := run capacity ops c in
         (List.length (measurements c') <= capacity)%nat
         /\ errors (log c') = errors (log c))
  /\ (forall m times kind arrival from,
         In m (measurements c) ->
         (capacity <= List.length times)%nat ->
         let c' := pings capacity times c in
         ~ In (id m) (map id (measurements c'))
         /\ on_probe_event kind (id m) arrival from c' = c').
Proof.
  intros W Hcap. pose proof W as (Hnd & Hlt & Hlen).
  split; [|split; [|split]].
  - cbv zeta. split; [reflexivity|]. split; [|split].
    + intros Hin. apply in_map_iff in Hin as (m & E & Hm).
      rewrite Forall_forall in Hlt. apply Hlt in Hm. lia.
    + cbn. now apply keep_last_snoc.
    + now apply ping_well_formed.
  - intros m kind from Hkind Hin Hp. cbv zeta.
    assert (E : on_probe_event kind (id m) now from c
                = observe (id m) now from c).
    { unfold on_probe_event. now destruct Hkind as [-> | ->]. }
    rewrite E.
    destruct (observe_pending m now from c W Hin Hp)
      as (H1 & H2 & H3 & H4 & H5 & _).
    assert (S : In (now - sentAt m)
                  (samples (measurements (observe (id m) now from c))))
      by (eapply samples_In; [exact H1 | reflexivity]).
    repeat (split; [assumption || reflexivity|]).
    split; [|now apply observe_well_formed].
    rewrite H3, H4, H5.
    destruct (min_of (samples (measurements (observe (id m) now from c))))
      as [lo|] eqn:M.
    + exists lo. split; [reflexivity|].
      pose proof (min_of_bound _ _ M) as B1.
      pose proof (max_of_bound
                    (samples (measurements (observe (id m) now from c))))
        as B2.
      rewrite Forall_forall in B1, B2.
      split; [split; [now apply B1 | now apply B2]|].
      now apply avg_of_bounds.
    + destruct (samples (measurements (observe (id m) now from c)));
        [contradiction | discriminate].
  - intros ops. cbv zeta. split; [|apply run_no_error].
    now apply (run_well_formed ops c).
  - intros m times kind arrival from Hin Hlen'. cbv zeta.
    assert (Hgone : ~ In (id m) (map id (measurements (pings capacity times c)))).
    { intros Hi. apply in_map_iff in Hi as (m' & E & Hm').
      pose proof (pings_age_out times c Hlen Hlen') as A.
      rewrite Forall_forall in A, Hlt.
      apply A in Hm'. apply Hlt in Hin. lia. }
    split; [exact Hgone|].
    unfold on_probe_event, observe. rewrite (find_unknown _ _ Hgone).
    now destruct ((kind =? Provider.PONG) || (kind =? Provider.PING)).
Qed.

End MetricsFacts.

Section MetricsExamples.
Import Metrics.
Local Open Scope Z_scope.

(** Two pings at 1000 and 1500 in a history of three; the first is
    answered at 1180. *)
Example probe_round_trip :
  let c := observe 0 1180 None (ping 3 1500 (ping 3 1000 create)) in
  lastLatency c = 180 /\ minLatency c = Some 180 /\ maxLatency c = 180
  /\ map latency (measurements c) = [Some 180; None].
Proof. repeat split. Qed.

Lemma latency_probe_witness :
  well_formed 3 (ping 3 1000 create)
  /\ (0 < 3)%nat
  /\ In (probe 1 1500) (measurements (ping 3 1500 (ping 3 1000 create)))
  /\ lastLatency (on_probe_event Provider.PONG 0 1500 None
                    (ping 3 1000 create)) = 500.
Proof.
  assert (W : well_formed 3 (ping 3 1000 create)).
  { repeat split; cbn; try lia; repeat constructor; cbn; try lia.
    all: try (intros []). }
  assert (P : (0 < 3)%nat) by lia.
  split; [exact W|]. split; [exact P|].
  destruct (latency_probe 3 (ping 3 1000 create) 1500 W P) as ((_ & _ & H & _) & R & _).
  split; [exact H|].
  destruct (R (probe 0 1000) Provider.PONG None) as (_ & _ & L & _);
    [now left | now left | reflexivity | exact L].
Defined.

End MetricsExamples.

(** ** Keys as hexadecimal text *)

Section HexFacts.
Import Store ProviderExt.
Local Open Scope string_scope.
Local Open Scope list_scope.

Lemma byte_hex_read (b : byte) :
  toUint8 (parseInt16 (list_ascii_of_string (byte_hex b))) = b.
Proof. destruct b; reflexivity. Qed.

Lemma byte_hex_chars (b : byte) :
  exists c1 c2,
    byte_hex b = String c1 (String c2 "")
    /\ is_line_terminator c1 = false /\ is_line_terminator c2 = false
    /\ Ascii.eqb c1 "n" = false.
Proof. destruct b; do 2 eexists; repeat split. Qed.

Lemma hex_of_bytes_cons (b : byte) (data : bytes) :
  hex_of_bytes (b :: data) = (byte_hex b ++ hex_of_bytes data)%string.
Proof.
  unfold hex_of_bytes. cbn [map].
  destruct (map byte_hex data) as [|x xs] eqn:E; cbn [String.concat].
  - destruct (byte_hex_chars b) as (c1 & c2 & -> & _). reflexivity.
  - reflexivity.
Qed.

Lemma hex_of_bytes_length (data : bytes) :
  String.length (hex_of_bytes data) = (2 * List.length data)%nat.
Proof.
  induction data as [|b data IH]; [reflexivity|].
  rewrite hex_of_bytes_cons.
  destruct (byte_hex_chars b) as (c1 & c2 & -> & _).
  cbn. rewrite IH. lia.
Qed.

Lemma hex_of_bytes_clean (data : bytes) :
  Forall (fun c => is_line_terminator c = false)
    (list_ascii_of_string (hex_of_bytes data)).
Proof.
  induction data as [|b data IH]; [constructor|].
  rewrite hex_of_bytes_cons.
  destruct (byte_hex_chars b) as (c1 & c2 & -> & H1 & H2 & _).
  cbn. repeat constructor; assumption.
Qed.

Lemma hex_of_bytes_even (data : bytes) : even_text (hex_of_bytes data).
Proof.
  split; [|apply hex_of_bytes_clean].
  rewrite hex_of_bytes_length, Nat.even_mul. reflexivity.
Qed.

(** On text of an even number of characters without line terminators,
    the pieces [importKeys] reads are the pairs [hexToBytes] reads. *)
Lemma pieces_pairs (n : nat) (l : list ascii) :
  List.length l = (2 * n)%nat ->
  Forall (fun c => is_line_terminator c = false) l ->
  key_bytes (pieces l) = hexToBytes_chars l.
Proof.
  revert l. induction n as [|n IH]; intros l Hlen Hclean.
  - destruct l; [reflexivity | discriminate].
  - destruct l as [|a [|b rest]]; try (cbn in Hlen; lia).
    inversion_clear Hclean as [|? ? Ha Hrest].
    inversion_clear Hrest as [|? ? Hb Hrest'].
    cbn [pieces]. rewrite Ha, Hb. cbn [key_bytes map hexToBytes_chars].
    f_equal. apply IH; [cbn in Hlen; lia | exact Hrest'].
Qed.

Lemma even_half (n : nat) : Nat.even n = true -> exists k, n = (2 * k)%nat.
Proof.
  intros H. apply Nat.even_spec in H as [k ->]. now exists k.
Qed.

Lemma string_length_chars (s : string) :
  List.length (list_ascii_of_string s) = String.length s.
Proof. induction s as [|c s IH]; cbn; auto. Qed.

Lemma hexToBytes_chars_hex (data : bytes) :
  hexToBytes_chars (list_ascii_of_string (hex_of_bytes data)) = data.
Proof.
  induction data as [|b data IH]; [reflexivity|].
  rewrite hex_of_bytes_cons. pose proof (byte_hex_read b) as R.
  destruct (byte_hex_chars b) as (c1 & c2 & E & _). rewrite E in *.
  cbn [append list_ascii_of_string hexToBytes_chars].
  cbn [list_ascii_of_string] in R. now rewrite R, IH.
Qed.

Lemma key_bytes_hex (data : bytes) :
  key_bytes (pieces (list_ascii_of_string (hex_of_bytes data))) = data.
Proof.
  rewrite (pieces_pairs (List.length data)).
  - apply hexToBytes_chars_hex.
  - rewrite string_length_chars. apply hex_of_bytes_length.
  - apply hex_of_bytes_clean.
Qed.

Lemma key_bytes_even (hexKey : string) :
  even_text hexKey ->
  key_bytes (pieces (list_ascii_of_string hexKey)) = hexToBytes hexKey.
Proof.
  intros [Heven Hclean]. destruct (even_half _ Heven) as [k Hk].
  apply (pieces_pairs k); [|exact Hclean].
  now rewrite string_length_chars.
Qed.

Lemma hex_of_bytes_not_nsec (data : bytes) :
  String.prefix "nsec" (hex_of_bytes data) = false.
Proof.
  destruct data as [|b data]; [reflexivity|].
  rewrite hex_of_bytes_cons. generalize (hex_of_bytes data) as rest.
  intros rest. destruct b; reflexivity.
Qed.

(** X1. Keys as text, read back.  The hexadecimal text that [generateKeys]
    and [importKeys] store for a key (two lowercase digits a byte) has
    twice as many characters as the key has bytes, and both readers give
    the key back from it: [hexToBytes], which the provider's constructor
    uses, and the piecewise reading of [importKeys]. *)
Theorem hex_text_round_trip (data : bytes) :
  String.length (hex_of_bytes data) = (2 * List.length data)%nat
  /\ hexToBytes (hex_of_bytes data) = data
  /\ key_bytes (pieces (list_ascii_of_string (hex_of_bytes data))) = data.
Proof.
  split; [apply hex_of_bytes_length|]. split.
  - apply hexToBytes_chars_hex.
  - apply key_bytes_hex.
Qed.

(** X2. The two readers of a key agree.  On text with an even number of
    characters and no line terminator, [importKeys] derives the public key
    from the same bytes as the provider's constructor reads with
    [hexToBytes], whatever the characters are. *)
Theorem key_readers_agree (hexKey : string) :
  even_text hexKey ->
  key_bytes (pieces (list_ascii_of_string hexKey)) = hexToBytes hexKey.
Proof. apply key_bytes_even. Qed.

Lemma key_readers_agree_witness :
  even_text "zz1gff"
  /\ key_bytes (pieces (list_ascii_of_string "zz1gff")) = hexToBytes "zz1gff".
Proof.
  assert (E : even_text "zz1gff") by (split; [reflexivity | repeat constructor]).
  split; [exact E | exact (key_readers_agree "zz1gff" E)].
Defined.

(** With an odd number of characters the two differ: [importKeys] reads
    the last character as a byte of its own, [hexToBytes] drops it. *)
Example key_readers_differ :
  key_bytes (pieces (list_ascii_of_string "abc")) = [xab; x0c]
  /\ hexToBytes "abc" = [xab].
Proof. split; reflexivity. Qed.

End HexFacts.

(** ** The shape of the encoded text, and the colours *)

Section ShapeFacts.
Import Base64 Provider ProviderExt.
Local Open Scope string_scope.
Local Open Scope list_scope.

Lemma encode_length_exact (l : list N) :
  List.length (encode l) = (4 * ((List.length l + 2) / 3))%nat.
Proof.
  induction l as [| a | a b | a b c l IH] using list_ind3;
    try reflexivity.
  cbn [encode List.length]. rewrite IH.
  replace (S (S (S (List.length l))) + 2)%nat
    with (List.length l + 2 + 1 * 3)%nat by lia.
  rewrite Nat.div_add by discriminate. lia.
Qed.

Lemma b64_char_in_alphabet (i : N) : (i < 64)%N -> In (b64_char i) alphabet.
Proof.
  intros H. unfold b64_char. apply nth_In.
  change (List.length alphabet) with 64%nat. lia.
Qed.

Lemma encode_chars (l : list N) :
  Forall octet l ->
  Forall (fun c => In c alphabet \/ c = pad) (encode l).
Proof.
  intros H. rewrite encode_split. apply Forall_app. split.
  - apply Forall_map. eapply Forall_impl; [|apply sextets_of_small, H].
    intros i Hi. left. now apply b64_char_in_alphabet.
  - clear H. induction l as [| a | a b | a b c l IH] using list_ind3;
      cbn [padding_of]; auto; repeat (constructor; [now right|]);
      constructor.
Qed.

(** X3. The text of a payload.  [bytesToBase64] gives four characters for
    every three bytes, the last group padded: [4 * ceil(n / 3)] characters
    for [n] bytes, each of them one of the 64 characters of the alphabet
    or [=]. *)
Theorem bytesToBase64_shape (b : bytes) :
  String.length (bytesToBase64 b) = (4 * ((List.length b + 2) / 3))%nat
  /\ Forall (fun c => In c alphabet \/ c = pad)
       (list_ascii_of_string (bytesToBase64 b)).
Proof.
  unfold bytesToBase64, btoa.
  rewrite !list_ascii_of_string_of_list_ascii.
  split.
  - rewrite <- string_length_chars, list_ascii_of_string_of_list_ascii.
    now rewrite encode_length_exact, !length_map.
  - apply encode_chars, Forall_map, Forall_map, Forall_forall.
    intros x _. apply N_ascii_bounded.
Qed.

(** X4. The colour of an identity.  [generateColor] always gives
    [hsl(h, 70%, 50%)] with a hue [h] from 0 to 359, whatever the seed. *)
Theorem generateColor_hue (seed : string) :
  (0 <= hue seed < 360)%Z
  /\ generateColor seed
     = ("hsl(" ++ decimal (hue seed) ++ ", 70%, 50%)")%string.
Proof.
  split; [|reflexivity]. unfold hue.
  match goal with
  | |- (0 <= Z.abs (Z.rem ?h 360) < 360)%Z =>
      pose proof (Z.rem_bound_abs h 360 ltac:(discriminate)) as B
  end.
  lia.
Qed.

End ShapeFacts.

(** ** Presence *)

Ltac js_run :=
  unfold Js.bind, Js.ret, Js.when, Js.lift, Js.throw, Js.try_catch, Js.gets,
    Js.modify, Provider.read, Provider.write, Provider.tell, Provider.emit,
    Provider.console_error, Provider.with_this, Provider.Date_now in *;
  unfold Provider.tell, Js.modify in *.

Section PresenceFacts.
Import Provider ProviderExt.
Context {loro : LoroDoc}.
Local Open Scope string_scope.
Local Open Scope list_scope.
Local Open Scope Z_scope.

Lemma map_get_set {V} (k : string) (v : V) (m : list (string * V)) :
  map_get k (map_set k v m) = Some v.
Proof.
  induction m as [|[k' v'] m IH]; cbn.
  - now rewrite String.eqb_refl.
  - destruct (String.eqb k' k) eqn:E; cbn.
    + now rewrite String.eqb_refl.
    + now rewrite E.
Qed.

Lemma map_get_set_other {V} (k k0 : string) (v : V) (m : list (string * V)) :
  k0 <> k -> map_get k0 (map_set k v m) = map_get k0 m.
Proof.
  intros Hne. induction m as [|[k' v'] m IH]; cbn.
  - destruct (String.eqb_spec k k0); [congruence | reflexivity].
  - destruct (String.eqb_spec k' k) as [->|Hk]; cbn.
    + destruct (String.eqb_spec k k0); [congruence|].
      destruct (String.eqb_spec k k0); [congruence | reflexivity].
    + now rewrite IH.
Qed.

Lemma map_set_keys {V} (k : string) (v : V) (m : list (string * V)) :
  map fst (map_set k v m)
  = if existsb (String.eqb k) (map fst m) then map fst m
    else map fst m ++ [k].
Proof.
  induction m as [|[k' v'] m IH]; cbn; [reflexivity|].
  rewrite (String.eqb_sym k k').
  destruct (String.eqb_spec k' k) as [->|Hk]; cbn; [reflexivity|].
  rewrite IH. now destruct (existsb (String.eqb k) (map fst m)).
Qed.

Lemma existsb_eqb_In (k : string) (l : list string) :
  existsb (String.eqb k) l = true <-> In k l.
Proof.
  rewrite existsb_exists. split.
  - intros (x & Hx & E). apply String.eqb_eq in E. now subst.
  - intros H. exists k. split; [exact H | apply String.eqb_refl].
Qed.

Lemma map_set_NoDup {V} (k : string) (v : V) (m : list (string * V)) :
  NoDup (map fst m) -> NoDup (map fst (map_set k v m)).
Proof.
  intros H. rewrite map_set_keys.
  destruct (existsb (String.eqb k) (map fst m)) eqn:E; [exact H|].
  apply NoDup_app; [exact H | repeat constructor; intros [] |].
  intros x Hx [<-|[]].
  apply existsb_eqb_In in Hx. congruence.
Qed.

(** [handlePresence] on content that parses. *)
Lemma handlePresence_parsed (e : NostrEvent) (data : Json) (s : State) :
  content e = Some data ->
  handlePresence e s
  = (inr tt,
     {| this :=
          set_awareness
            (map_set (pubkey e) (participant_of e data) (awareness (this s)))
            (this s);
        now := now s; timers := timers s; nextTimer := nextTimer s;
        log :=
          log s
          ++ [Emit Awareness
                (Participants
                   (map snd
                      (map_set (pubkey e) (participant_of e data)
                         (awareness (this s)))))] |}).
Proof.
  intros H. unfold handlePresence, participant_of. js_run.
  rewrite H. reflexivity.
Qed.

(** X5. Presence upsert.  [handlePresence] on an event whose content parses
    leaves exactly one entry for the signer, holding the new name, cursor
    and time and the colour sent (or, when none or an empty one is sent,
    the colour generated from the signer's key); the entries of other
    identities are untouched and keep their order, a new identity going
    last; identities stay distinct; and the ['awareness'] notification
    carries the list [getAwareness] returns.  On content that does not
    parse, nothing changes and nothing is emitted. *)
Theorem presence_upsert (e : NostrEvent) (s : State) :
  let s' := run (handlePresence e) s in
  match content e with
  | Some data =>
      map_get (pubkey e) (awareness (this s')) = Some (participant_of e data)
      /\ (forall k, k <> pubkey e ->
            map_get k (awareness (this s')) = map_get k (awareness (this s)))
      /\ identities s'
         = (if existsb (String.eqb (pubkey e)) (identities s)
            then identities s else identities s ++ [pubkey e])
      /\ (NoDup (identities s) -> NoDup (identities s'))
      /\ log s' = log s ++ [Emit Awareness (Participants (getAwareness s'))]
  | None =>
      this s' = this s /\ notifications (log s') = notifications (log s)
  end.
Proof.
  cbv zeta. unfold run. destruct (content e) as [data|] eqn:E.
  - rewrite (handlePresence_parsed e data s E).
    unfold identities, getAwareness. cbn.
    split; [apply map_get_set|].
    split; [intros k Hk; now apply map_get_set_other|].
    split; [apply map_set_keys|].
    split; [apply map_set_NoDup | reflexivity].
  - unfold handlePresence. js_run. rewrite E. cbn.
    split; [reflexivity|].
    unfold notifications. rewrite flat_map_app. cbn. now rewrite app_nil_r.
Qed.

End PresenceFacts.

(** ** What an event does to the provider *)

Section SessionFacts.
Import Provider ProviderExt.
Context {loro : LoroDoc}.
Local Open Scope string_scope.
Local Open Scope list_scope.
Local Open Scope Z_scope.

Ltac apply_cases :=
  unfold applyUpdate, applySnapshot, payload, import; js_run;
  match goal with
  | |- context [JSON_parse ?c] =>
      destruct (JSON_parse c) as [err|message]; cbn
  end;
  [left; split; [reflexivity|]; eexists; reflexivity|];
  match goal with
  | |- context [Base64.base64ToBytes ?t] =>
      destruct (Base64.base64ToBytes t) as [err|data]; cbn
  end;
  [left; split; [reflexivity|]; eexists; reflexivity|];
  right;
  match goal with
  | |- context [doc_import ?d ?x] =>
      let E := fresh "E" in
      destruct (doc_import d x) as [err|d'] eqn:E; cbn
  end;
  [left | right]; do 2 eexists;
  (split; [reflexivity|]); (split; [eassumption|]);
  rewrite <- ?app_assoc; reflexivity.

(** [applyUpdate], case by case: the content does not decode; the engine
    refuses the payload; the payload is imported. *)
Lemma applyUpdate_cases (e : NostrEvent) (s : State) :
  (payload e = []
   /\ exists err,
        applyUpdate e s
        = (inr tt,
           {| this := this s; now := now s; timers := timers s;
              nextTimer := nextTimer s;
              log := log s ++ [ConsoleError "Failed to apply update:" err] |}))
  \/ (exists data err,
        payload e = [data]
        /\ doc_import (doc (this s)) data = inl err
        /\ applyUpdate e s
           = (inr tt,
              {| this := this s; now := now s; timers := timers s;
                 nextTimer := nextTimer s;
                 log := log s ++ [DocImport data;
                                  ConsoleError "Failed to apply update:" err]
              |}))
  \/ (exists data d',
        payload e = [data]
        /\ doc_import (doc (this s)) data = inr d'
        /\ applyUpdate e s
           = (inr tt,
              {| this :=
                   set_lastSyncTimestamp
                     (Z.max (lastSyncTimestamp (this s)) (created_at e))
                     (set_doc d' (this s));
                 now := now s; timers := timers s;
                 nextTimer := nextTimer s;
                 log := log s ++ [DocImport data;
                                  Emit Update
                                    (From (pubkey e) (created_at e))] |})).
Proof. apply_cases. Qed.

Lemma applySnapshot_cases (e : NostrEvent) (s : State) :
  (payload e = []
   /\ exists err,
        applySnapshot e s
        = (inr tt,
           {| this := this s; now := now s; timers := timers s;
              nextTimer := nextTimer s;
              log := log s
                     ++ [ConsoleError "Failed to apply snapshot:" err] |}))
  \/ (exists data err,
        payload e = [data]
        /\ doc_import (doc (this s)) data = inl err
        /\ applySnapshot e s
           = (inr tt,
              {| this := this s; now := now s; timers := timers s;
                 nextTimer := nextTimer s;
                 log := log s ++ [DocImport data;
                                  ConsoleError "Failed to apply snapshot:" err]
              |}))
  \/ (exists data d',
        payload e = [data]
        /\ doc_import (doc (this s)) data = inr d'
        /\ applySnapshot e s
           = (inr tt,
              {| this :=
                   set_lastSyncTimestamp
                     (Z.max (lastSyncTimestamp (this s)) (created_at e))
                     (set_doc d' (this s));
                 now := now s; timers := timers s;
                 nextTimer := nextTimer s;
                 log := log s ++ [DocImport data;
                                  Emit Sync (Status "synced" (Some true))] |})).
Proof. apply_cases. Qed.

Lemma notifications_app l1 l2 :
  notifications (l1 ++ l2) = notifications l1 ++ notifications l2.
Proof. unfold notifications. now rewrite flat_map_app. Qed.

(** X6. What an incoming update or snapshot does.  [applyUpdate] and
    [applySnapshot] never throw.  If the content does not decode, or the
    engine refuses the payload, the provider is left as it was (document,
    sync timestamp and all) and no notification is emitted.  If the payload
    is imported, the document is the one the engine returns, the sync
    timestamp is the greater of its old value and the event's [created_at],
    and one notification is emitted: ['update'] with the signer and the
    time, or ['sync'] with the snapshot flag. *)
Theorem apply_outcome (e : NostrEvent) (s : State) :
  fst (applyUpdate e s) = inr tt /\ fst (applySnapshot e s) = inr tt
  /\ let u := run (applyUpdate e) s in
     let n := run (applySnapshot e) s in
     match payload e with
     | [] =>
         this u = this s /\ notifications (log u) = notifications (log s)
         /\ this n = this s /\ notifications (log n) = notifications (log s)
     | data :: _ =>
         match doc_import (doc (this s)) data with
         | inl _ =>
             this u = this s /\ notifications (log u) = notifications (log s)
             /\ this n = this s
             /\ notifications (log n) = notifications (log s)
         | inr d' =>
             doc (this u) = d' /\ doc (this n) = d'
             /\ lastSyncTimestamp (this u)
                = Z.max (lastSyncTimestamp (this s)) (created_at e)
             /\ lastSyncTimestamp (this n)
                = Z.max (lastSyncTimestamp (this s)) (created_at e)
             /\ notifications (log u)
                = notifications (log s)
                  ++ [(Update, From (pubkey e) (created_at e))]
             /\ notifications (log n)
                = notifications (log s)
                  ++ [(Sync, Status "synced" (Some true))]
         end
     end.
Proof.
  cbv zeta. unfold run.
  destruct (applyUpdate_cases e s)
    as [(P & err & ->) | [(data & err & P & I & ->) | (data & d' & P & I & ->)]];
    destruct (applySnapshot_cases e s)
      as [(P' & err' & ->)
         | [(data' & err' & P' & I' & ->) | (data' & d'' & P' & I' & ->)]];
    rewrite P in *; try discriminate;
    try (injection P' as <-); rewrite ?I in *; try discriminate;
    try (injection I' as <-);
    cbn; rewrite ?notifications_app; cbn; rewrite ?app_nil_r;
    repeat split; reflexivity.
Qed.

(** *** Across whole runs *)

Lemma stable_refl (s : State) : stable s s.
Proof. unfold stable. repeat split; auto. lia. Qed.

Lemma stable_trans (s1 s2 s3 : State) :
  stable s1 s2 -> stable s2 s3 -> stable s1 s3.
Proof.
  unfold stable.
  intros (A1 & A2 & A3 & A4 & A5 & A6) (B1 & B2 & B3 & B4 & B5 & B6).
  repeat split; try congruence; try lia; auto.
  intros k Hk. destruct (B6 k Hk) as [H|H]; [auto | right; congruence].
Qed.

Lemma same_session_stable (s s' : State) : same_session s s' -> stable s s'.
Proof.
  unfold same_session, stable, identities.
  intros (A1 & A2 & A3 & A4 & A5 & _). rewrite A5.
  repeat split; auto. lia.
Qed.

Lemma applyUpdate_stable (e : NostrEvent) (s : State) :
  exists s', applyUpdate e s = (inr tt, s') /\ stable s s'.
Proof.
  destruct (applyUpdate_cases e s)
    as [(_ & err & ->) | [(data & err & _ & _ & ->) | (data & d' & _ & _ & ->)]];
    eexists; (split; [reflexivity|]);
    unfold stable, identities; cbn; repeat split; auto; lia.
Qed.

Lemma applySnapshot_stable (e : NostrEvent) (s : State) :
  exists s', applySnapshot e s = (inr tt, s') /\ stable s s'.
Proof.
  destruct (applySnapshot_cases e s)
    as [(_ & err & ->) | [(data & err & _ & _ & ->) | (data & d' & _ & _ & ->)]];
    eexists; (split; [reflexivity|]);
    unfold stable, identities; cbn; repeat split; auto; lia.
Qed.

Lemma handlePresence_stable (e : NostrEvent) (s : State) :
  pubkey e <> publicKey (this s) ->
  exists s', handlePresence e s = (inr tt, s') /\ stable s s'.
Proof.
  intros Hne. destruct (content e) as [data|] eqn:E.
  - rewrite (handlePresence_parsed e data s E). eexists.
    split; [reflexivity|]. unfold stable, identities. cbn.
    repeat split; try lia.
    + apply map_set_NoDup.
    + intros k. rewrite map_set_keys.
      destruct (existsb (String.eqb (pubkey e)) (map fst (awareness (this s))));
        [auto|].
      intros Hk. apply in_app_or in Hk as [Hk|[<-|[]]]; auto.
  - unfold handlePresence. js_run. rewrite E. cbn. eexists.
    split; [reflexivity|]. unfold stable, identities. cbn.
    repeat split; auto. lia.
Qed.

Lemma handleEvent_stable (e : NostrEvent) (s : State) :
  exists s', handleEvent e s = (inr tt, s') /\ stable s s'.
Proof.
  unfold handleEvent, read, Js.bind, Js.gets, Js.ret.
  destruct (String.eqb_spec (pubkey e) (publicKey (this s))) as [Heq|Hne].
  { exists s. split; [reflexivity | apply stable_refl]. }
  destruct (kind e =? CRDT_UPDATE); [apply applyUpdate_stable|].
  destruct (kind e =? DOCUMENT_SNAPSHOT); [apply applySnapshot_stable|].
  destruct (kind e =? PRESENCE); [now apply handlePresence_stable|].
  exists s. split; [reflexivity | apply stable_refl].
Qed.

Lemma apply_updates_stable (events : list NostrEvent) (s : State) :
  exists s',
    Js.for_each events
      (fun event => Js.when (kind event =? CRDT_UPDATE) (applyUpdate event)) s
    = (inr tt, s')
    /\ stable s s'.
Proof.
  revert s. induction events as [|e events IH]; intros s; cbn.
  - exists s. split; [reflexivity | apply stable_refl].
  - unfold Js.bind at 1. unfold Js.when at 1.
    destruct (kind e =? CRDT_UPDATE).
    + destruct (applyUpdate_stable e s) as (s1 & -> & S1).
      destruct (IH s1) as (s2 & -> & S2).
      exists s2. split; [reflexivity|]. now apply (stable_trans s s1).
    + cbn. apply IH.
Qed.

Ltac session :=
  unfold same_session; cbn; repeat split; reflexivity.

Lemma fetchHistory_stable
  (snapshotQuery updateQuery : Js.Exn + list NostrEvent) (s : State) :
  exists s',
    fetchHistory snapshotQuery updateQuery s = (inr tt, s') /\ stable s s'.
Proof.
  destruct snapshotQuery as [err|snaps].
  { unfold fetchHistory. js_run. cbn. eexists. split; [reflexivity|].
    apply same_session_stable. session. }
  destruct updateQuery as [err|ups].
  { unfold fetchHistory. js_run. cbn. eexists. split; [reflexivity|].
    apply same_session_stable. session. }
  unfold fetchHistory. js_run.
  cbn -[applySnapshot applyUpdate sort Js.for_each find].
  match goal with
  | |- context [Js.for_each ?l ?f] =>
      change f with
        (fun event => Js.when (kind event =? CRDT_UPDATE) (applyUpdate event))
  end.
  set (s0 := {| this := this s; now := now s; timers := timers s;
                nextTimer := nextTimer s; log := _ |}).
  assert (S0 : stable s s0)
    by (apply same_session_stable; subst s0; session).
  clearbody s0.
  destruct (find _ (sort (snaps ++ ups))) as [snapshot|].
  - destruct (applySnapshot_stable snapshot s0) as (s1 & -> & S1).
    destruct (apply_updates_stable (sort (snaps ++ ups)) s1)
      as (s2 & -> & S2).
    eexists. split; [reflexivity|].
    apply (stable_trans s s0); [exact S0|].
    apply (stable_trans s0 s1); [exact S1|].
    eapply stable_trans; [exact S2|]. apply same_session_stable. session.
  - destruct (apply_updates_stable (sort (snaps ++ ups)) s0)
      as (s2 & -> & S2).
    eexists. split; [reflexivity|].
    apply (stable_trans s s0); [exact S0|].
    eapply stable_trans; [exact S2|]. apply same_session_stable. session.
Qed.

Lemma queueUpdate_session (u : bytes) (s : State) :
  exists s', queueUpdate u s = (inr tt, s') /\ same_session s s'.
Proof.
  destruct (batchTimer (this s)) as [t|] eqn:Eb.
  - rewrite (queueUpdate_armed s u t Eb). eexists.
    split; [reflexivity | session].
  - rewrite (queueUpdate_idle s u Eb). eexists.
    split; [reflexivity | session].
Qed.

(** *** Flushing *)

Lemma publishUpdate_send_event (u : bytes) (s : State) :
  publishUpdate_send u s
  = (inr tt,
     {| this := this s; now := now s; timers := timers s;
        nextTimer := nextTimer s;
        log := log s ++ [PoolPublish (relays (this s)) (update_event s u)] |}).
Proof. reflexivity. Qed.

(** [flushUpdates] up to the publish, with updates pending. *)
Lemma flushUpdates_send_pending (s : State) :
  pendingUpdates (this s) <> [] ->
  flushUpdates_send s
  = (inr (match delta s with [] => false | _ => true end),
     {| this :=
          set_pendingUpdates []
            (set_lastExportedVersion (Some (doc_version (doc (this s))))
               (set_batchTimer None (this s)));
        now := now s; timers := timers s; nextTimer := nextTimer s;
        log := log s ++ flushing s |}).
Proof.
  intros Hp. unfold flushUpdates_send, publishUpdate_send, flushing, delta,
    update_event. js_run.
  destruct (pendingUpdates (this s)) as [|u pending] eqn:Ep; [contradiction|].
  destruct (lastExportedVersion (this s)) as [v|] eqn:Ev;
    [destruct (doc_export_update (doc (this s)) (Some v))
       as [|b update] eqn:Ed
    |destruct (doc_export_update (doc (this s)) None)
       as [|b update] eqn:Ed];
    repeat (progress (cbn -[Base64.bytesToBase64];
                      rewrite ?Ep, ?Ev, ?Ed));
    rewrite ?app_nil_r; reflexivity.
Qed.

Lemma flushUpdates_send_idle (s : State) :
  pendingUpdates (this s) = [] -> flushUpdates_send s = (inr false, s).
Proof.
  intros Hp. unfold flushUpdates_send. js_run. cbn. now rewrite Hp.
Qed.

Lemma flushUpdates_session (net : string -> PromiseResult) (s : State) :
  exists s', flushUpdates net s = (inr tt, s') /\ same_session s s'.
Proof.
  unfold flushUpdates, Js.bind.
  destruct (pendingUpdates (this s)) as [|u pending] eqn:Ep.
  - rewrite (flushUpdates_send_idle s Ep). cbn. exists s.
    split; [reflexivity | session].
  - rewrite flushUpdates_send_pending by (rewrite Ep; discriminate).
    destruct (delta s); cbn.
    + eexists. split; [reflexivity | session].
    + match goal with
      | |- context [publishUpdate_settled net ?st] =>
          destruct (publishUpdate_settled_spec net st) as (s2 & -> & T & _)
      end.
      exists s2. split; [reflexivity|]. unfold same_session. rewrite T.
      cbn. repeat split.
Qed.

Lemma timer_fires_session (id : positive) (net : string -> PromiseResult)
  (s : State) :
  exists s', timer_fires id net s = (inr tt, s') /\ same_session s s'.
Proof.
  unfold timer_fires, Js.bind at 1, Js.gets at 1.
  destruct (existsb (Pos.eqb id) (timers s)).
  - unfold Js.bind, Js.modify.
    match goal with
    | |- context [flushUpdates net ?st] =>
        destruct (flushUpdates_session net st) as (s' & -> & F)
    end.
    exists s'. split; [reflexivity | exact F].
  - exists s. split; [reflexivity | session].
Qed.

(** [disconnect] for every state: what is left of the session. *)
Lemma disconnect_after (s : State) :
  exists sent s',
    disconnect s = (inr sent, s')
    /\ truthy (subscriptionId (this s')) = false
    /\ same_session s s'
    /\ now s' = now s /\ nextTimer s' = nextTimer s.
Proof.
  unfold disconnect, flushUpdates_send, publishUpdate_send, clearTimeout.
  js_run.
  destruct (truthy (subscriptionId (this s))) eqn:Et;
    destruct (batchTimer (this s)) as [id|] eqn:Eb;
    destruct (pendingUpdates (this s)) as [|u pending] eqn:Ep;
    (destruct (lastExportedVersion (this s)) as [v|] eqn:Ev;
     [destruct (doc_export_update (doc (this s)) (Some v))
        as [|b update] eqn:Ed
     |destruct (doc_export_update (doc (this s)) None)
        as [|b update] eqn:Ed]);
    repeat (progress (cbn -[Base64.bytesToBase64];
                      rewrite ?Et, ?Eb, ?Ep, ?Ev, ?Ed));
    do 2 eexists; (split; [reflexivity|]);
    unfold same_session; cbn -[Base64.bytesToBase64];
    repeat split; try reflexivity; assumption.
Qed.

Lemma disconnect_settled_session (net : string -> PromiseResult)
  (s : State) :
  exists s', disconnect_settled net s = (inr tt, s') /\ same_session s s'.
Proof.
  unfold disconnect_settled, Js.bind.
  destruct (disconnect_after s) as (sent & s1 & -> & _ & F & _).
  destruct sent; cbn.
  - destruct (publishUpdate_settled_spec net s1) as (s2 & -> & T & _).
    exists s2. split; [reflexivity|]. unfold same_session in *.
    now rewrite T.
  - now exists s1.
Qed.

Lemma step_stable (i : Input) (s : State) :
  exists s', step i s = (inr tt, s') /\ stable s s'.
Proof.
  destruct i as [u | id net | e | q1 q2 | net]; cbn [step].
  - destruct (queueUpdate_session u s) as (s' & E & F).
    exists s'. split; [exact E | now apply same_session_stable].
  - destruct (timer_fires_session id net s) as (s' & E & F).
    exists s'. split; [exact E | now apply same_session_stable].
  - apply handleEvent_stable.
  - apply fetchHistory_stable.
  - destruct (disconnect_settled_session net s) as (s' & E & F).
    exists s'. split; [exact E | now apply same_session_stable].
Qed.

(** X7. Along every run.  Whatever local updates, timer expiries, received
    events, history fetches and disconnects a provider goes through, none
    of them throws; its key, document identifier and relays stay what they
    were; its sync timestamp never goes back; the identities in its
    awareness map stay distinct; and its own identity is never added to
    that map. *)
Theorem run_keeps_session (inputs : list Input) (s : State) :
  fst (Js.for_each inputs step s) = inr tt
  /\ stable s (run (Js.for_each inputs step) s).
Proof.
  unfold run. revert s. induction inputs as [|i inputs IH]; intros s; cbn.
  - split; [reflexivity | apply stable_refl].
  - unfold Js.bind. destruct (step_stable i s) as (s1 & -> & S1).
    destruct (IH s1) as [E S2]. split; [exact E|].
    now apply (stable_trans s s1).
Qed.

(** *** From one provider to another *)

Lemma payload_update_event (s : State) (u : bytes) :
  payload (update_event s u) = [u].
Proof.
  unfold payload, update_event. cbn -[Base64.bytesToBase64 Base64.base64ToBytes].
  now rewrite base64_payload.
Qed.

Lemma payload_snapshot_event (s : State) :
  payload (snapshot_event s) = [doc_export_snapshot (doc (this s))].
Proof.
  unfold payload, snapshot_event.
  cbn -[Base64.bytesToBase64 Base64.base64ToBytes].
  now rewrite base64_payload.
Qed.

Lemma handleEvent_other (e : NostrEvent) (peer : State) :
  pubkey e <> publicKey (this peer) ->
  handleEvent e peer
  = (if kind e =? CRDT_UPDATE then applyUpdate e
     else if kind e =? DOCUMENT_SNAPSHOT then applySnapshot e
     else if kind e =? PRESENCE then handlePresence e
     else Js.ret tt) peer.
Proof.
  intros Hne. unfold handleEvent, read, Js.bind, Js.gets.
  now destruct (String.eqb_spec (pubkey e) (publicKey (this peer))).
Qed.

Lemma handleEvent_own (e : NostrEvent) (s : State) :
  pubkey e = publicKey (this s) -> handleEvent e s = (inr tt, s).
Proof.
  intros H. unfold handleEvent, read, Js.bind, Js.gets, Js.ret.
  now rewrite H, String.eqb_refl.
Qed.

(** X8. An update from one provider to another.  [publishUpdate] hands the
    pool exactly one event; a provider with another key that receives this
    event imports the very bytes that were published, and the provider that
    sent it ignores it when a relay echoes it back. *)
Theorem update_reaches_peer (s peer : State) (u : bytes)
  (net : string -> PromiseResult) :
  publicKey (this peer) <> publicKey (this s) ->
  let sent := run (publishUpdate u net) s in
  publishes (log sent) = publishes (log s) ++ [update_event s u]
  /\ imports (log (run (handleEvent (update_event s u)) peer))
     = imports (log peer) ++ [u]
  /\ handleEvent (update_event s u) sent = (inr tt, sent).
Proof.
  intros Hne. cbv zeta.
  assert (E : exists s1, publishUpdate u net s = (inr tt, s1)
                         /\ this s1 = this s
                         /\ publishes (log s1)
                            = publishes (log s) ++ [update_event s u]).
  { unfold publishUpdate, Js.bind. rewrite publishUpdate_send_event.
    match goal with
    | |- context [publishUpdate_settled net ?st] =>
        destruct (publishUpdate_settled_spec net st)
          as (s1 & -> & T & (_ & _ & _ & _ & Pb & _))
    end.
    exists s1. split; [reflexivity|]. split; [exact T|].
    rewrite Pb. cbn. rewrite publishes_app. reflexivity. }
  destruct E as (s1 & E & T & Pb). unfold run. rewrite E. cbn [snd].
  split; [exact Pb|]. split.
  - rewrite handleEvent_other by (cbn; congruence).
    change (kind (update_event s u) =? CRDT_UPDATE) with true. cbv iota.
    destruct (applyUpdate_spec (update_event s u) peer) as (p' & -> & I & _).
    cbn [snd]. now rewrite I, payload_update_event.
  - apply handleEvent_own. cbn. now rewrite T.
Qed.

(** [publishSnapshot], by the outcome of the relays. *)
Lemma publishSnapshot_run (net : string -> PromiseResult) (s : State) :
  publishSnapshot net s
  = (inr tt,
     {| this := this s; now := now s; timers := timers s;
        nextTimer := nextTimer s;
        log :=
          log s
          ++ [PoolPublish (relays (this s)) (snapshot_event s);
              if existsb is_fulfilled (map net (relays (this s)))
              then Emit Sync (Status "synced" (Some true))
              else Emit Error
                     (Failure "Failed to publish snapshot"
                        (Js.Error "All relay publishes failed"))] |}).
Proof.
  unfold publishSnapshot, snapshot_event. js_run.
  cbn -[Base64.bytesToBase64].
  destruct (existsb is_fulfilled (map net (relays (this s))));
    cbn -[Base64.bytesToBase64]; rewrite <- app_assoc; reflexivity.
Qed.

(** X9. Publishing a snapshot.  [publishSnapshot] never throws and hands the
    pool one snapshot event of the whole document.  It then emits exactly
    one notification: ['sync'] with the snapshot flag if some relay
    acknowledged, ['error'] if none did.  A provider with another key that
    receives the event imports the exported snapshot. *)
Theorem snapshot_publish_outcome (s peer : State)
  (net : string -> PromiseResult) :
  let sent := run (publishSnapshot net) s in
  fst (publishSnapshot net s) = inr tt
  /\ this sent = this s
  /\ publishes (log sent) = publishes (log s) ++ [snapshot_event s]
  /\ notifications (log sent)
     = notifications (log s)
       ++ [if existsb is_fulfilled (map net (relays (this s)))
           then (Sync, Status "synced" (Some true))
           else (Error,
                 Failure "Failed to publish snapshot"
                   (Js.Error "All relay publishes failed"))]
  /\ (publicKey (this peer) <> publicKey (this s) ->
      imports (log (run (handleEvent (snapshot_event s)) peer))
      = imports (log peer) ++ [doc_export_snapshot (doc (this s))]).
Proof.
  cbv zeta. unfold run. rewrite publishSnapshot_run. cbn [fst snd this log].
  split; [reflexivity|]. split; [reflexivity|]. split; [|split].
  - rewrite publishes_app. cbn.
    now destruct (existsb is_fulfilled (map net (relays (this s)))).
  - rewrite notifications_app. cbn.
    now destruct (existsb is_fulfilled (map net (relays (this s)))).
  - intros Hne. rewrite handleEvent_other by (cbn; congruence).
    change (kind (snapshot_event s) =? CRDT_UPDATE) with false.
    change (kind (snapshot_event s) =? DOCUMENT_SNAPSHOT) with true.
    cbv iota.
    destruct (applySnapshot_spec (snapshot_event s) peer)
      as (p' & -> & I & _).
    cbn [snd]. now rewrite I, payload_snapshot_event.
Qed.

(** X10. Presence from one provider to another.  [updatePresence] hands the
    pool one presence event and emits nothing, whatever the relays answer.
    A provider with another key that receives it holds, for the sender's
    key, the name and cursor that were sent, the colour generated from the
    sender's key and the time of the event, and the sender does not enter
    its own map when the event is echoed back. *)
Theorem presence_reaches_peer (s peer : State) (name : option string)
  (cursor : option CursorPosition) :
  publicKey (this peer) <> publicKey (this s) ->
  let sent := run (updatePresence name cursor) s in
  let e := presence_event s name cursor in
  this sent = this s
  /\ log sent = log s ++ [PoolPublish (relays (this s)) e]
  /\ map_get (publicKey (this s))
       (awareness (this (run (handleEvent e) peer)))
     = Some {| part_pubkey := publicKey (this s); part_name := name;
               part_color := generateColor (publicKey (this s));
               part_cursor := cursor; part_lastSeen := now s / 1000 |}
  /\ handleEvent e sent = (inr tt, sent).
Proof.
  intros Hne. cbv zeta. unfold run.
  assert (E : updatePresence name cursor s
              = (inr tt,
                 {| this := this s; now := now s; timers := timers s;
                    nextTimer := nextTimer s;
                    log := log s ++ [PoolPublish (relays (this s))
                                       (presence_event s name cursor)] |}))
    by reflexivity.
  rewrite E. cbn [fst snd this log].
  split; [reflexivity|]. split; [reflexivity|]. split.
  - rewrite handleEvent_other by (cbn; congruence).
    change (kind (presence_event s name cursor) =? CRDT_UPDATE) with false.
    change (kind (presence_event s name cursor) =? DOCUMENT_SNAPSHOT)
      with false.
    change (kind (presence_event s name cursor) =? PRESENCE) with true.
    cbv iota.
    erewrite handlePresence_parsed by reflexivity. cbn [snd this].
    change (awareness (set_awareness ?a ?p)) with a.
    cbn [pubkey presence_event]. rewrite map_get_set.
    unfold participant_of. cbn -[generateColor].
    destruct (String.eqb (generateColor (publicKey (this s))) "");
      reflexivity.
  - now apply handleEvent_own.
Qed.

(** *** History fetches that fail or return several snapshots *)

(** X11. A history query that is rejected.  [fetchHistory] never throws.
    If the snapshot query is rejected, the update query is not made; if the
    update query is rejected, the snapshots already returned are not
    applied.  Either way the provider is left as it was, nothing is
    imported, and the notifications are ['sync'] (syncing) followed by one
    ['error'] that carries the reason. *)
Theorem history_query_rejected (s : State) (err : Js.Exn)
  (q : Js.Exn + list NostrEvent) (snaps : list NostrEvent) :
  let s1 := run (fetchHistory (inl err) q) s in
  let s2 := run (fetchHistory (inr snaps) (inl err)) s in
  let failed :=
    [(Sync, Status "syncing" None);
     (Error, Failure "Failed to fetch history" err)] in
  fst (fetchHistory (inl err) q s) = inr tt
  /\ fst (fetchHistory (inr snaps) (inl err) s) = inr tt
  /\ this s1 = this s /\ this s2 = this s
  /\ imports (log s1) = imports (log s)
  /\ imports (log s2) = imports (log s)
  /\ notifications (log s1) = notifications (log s) ++ failed
  /\ notifications (log s2) = notifications (log s) ++ failed
  /\ List.length (queries (log s1)) = S (List.length (queries (log s)))
  /\ List.length (queries (log s2)) = S (S (List.length (queries (log s)))).
Proof.
  cbv zeta. unfold run, fetchHistory. js_run. cbn.
  unfold queries. rewrite !imports_app, !notifications_app, !flat_map_app.
  cbn. rewrite !app_nil_r, !length_app, <- !app_assoc. cbn.
  repeat split; try reflexivity; lia.
Qed.

Lemma sort_head (l : list NostrEvent) (first : NostrEvent)
  (rest : list NostrEvent) :
  sort l = first :: rest ->
  In first l /\ Forall (fun e => created_at first <= created_at e) l.
Proof.
  intros E. pose proof (sort_sorted l) as S. pose proof (sort_perm l) as Pm.
  rewrite E in S, Pm. split.
  - eapply Permutation_in; [exact Pm | now left].
  - eapply Permutation_Forall; [exact Pm|].
    inversion_clear S as [|? ? _ F]. constructor; [lia | exact F].
Qed.

(** X12. Several snapshots in the history.  When the snapshot query returns
    more than one snapshot, [fetchHistory] imports only one of them, and it
    is the one with the least [created_at] (the first returned among
    those), before the updates in ascending order. *)
Theorem history_applies_earliest_snapshot (s : State)
  (snaps ups : list NostrEvent) :
  Forall (fun e => kind e = DOCUMENT_SNAPSHOT) snaps ->
  Forall (fun e => kind e = CRDT_UPDATE) ups ->
  imports (log (run (fetchHistory (inr snaps) (inr ups)) s))
  = imports (log s)
    ++ match sort snaps with
       | first :: _ => payload first
       | [] => []
       end
    ++ flat_map payload (sort ups)
  /\ (forall first rest,
         sort snaps = first :: rest ->
         In first snaps
         /\ Forall (fun e => created_at first <= created_at e) snaps).
Proof.
  intros Hs Hu. split; [|apply sort_head].
  destruct (fetchHistory_spec snaps ups s) as (s' & E & I & _).
  destruct (filter_kinds snaps ups Hs Hu) as [Fs Fu].
  unfold run. rewrite E. cbn [snd].
  rewrite I, find_filter, !filter_sort, Fs, Fu.
  now destruct (sort snaps).
Qed.

(** *** Disconnecting twice, and what a flush publishes *)

Lemma disconnect_quiet (s : State) :
  truthy (subscriptionId (this s)) = false ->
  batchTimer (this s) = None ->
  pendingUpdates (this s) = [] ->
  disconnect s
  = (inr false,
     {| this := set_isConnected false (this s); now := now s;
        timers := timers s; nextTimer := nextTimer s;
        log := log s ++ [Emit Disconnected Empty] |}).
Proof.
  intros Ht Hb Hp. unfold disconnect. js_run.
  repeat (progress (cbn; rewrite ?Ht, ?Hb, ?Hp)). reflexivity.
Qed.

(** X13. Disconnecting twice.  After [disconnect], no subscription is
    recorded, no batch timer is armed or recorded, nothing is pending and
    the provider is marked disconnected; a second [disconnect] then closes
    no pool, clears no timer and publishes nothing: it leaves the provider
    as it is and only emits ['disconnected'] once more. *)
Theorem disconnect_twice (s : State) :
  let s1 := run disconnect s in
  let s2 := run disconnect s1 in
  truthy (subscriptionId (this s1)) = false
  /\ batchTimer (this s1) = None
  /\ pendingUpdates (this s1) = []
  /\ isConnected (this s1) = false
  /\ fst (disconnect s1) = inr false
  /\ this s2 = this s1
  /\ timers s2 = timers s1
  /\ log s2 = log s1 ++ [Emit Disconnected Empty].
Proof.
  cbv zeta. unfold run.
  destruct (disconnect_after s) as (sent & s1 & E & Ht & _).
  destruct (disconnect_log s) as (sent' & s1' & E' & _ & Hb & Hp & Hc & _).
  rewrite E in E'. injection E' as <- <-. rewrite E. cbn [snd].
  rewrite (disconnect_quiet s1 Ht Hb Hp). cbn [fst snd this timers log].
  repeat split; auto.
  destruct (this s1); cbn in *. now subst.
Qed.

Lemma flushUpdates_run (s : State) (net : string -> PromiseResult) :
  pendingUpdates (this s) <> [] ->
  exists s',
    flushUpdates net s = (inr tt, s')
    /\ this s'
       = set_pendingUpdates []
           (set_lastExportedVersion (Some (doc_version (doc (this s))))
              (set_batchTimer None (this s)))
    /\ publishes (log s') = publishes (log s) ++ publishes (flushing s).
Proof.
  intros Hp. unfold flushUpdates, Js.bind.
  rewrite (flushUpdates_send_pending s Hp).
  destruct (delta s) as [|b d] eqn:Ed; cbn.
  - eexists. split; [reflexivity|]. split; [reflexivity|].
    cbn. apply publishes_app.
  - match goal with
    | |- context [publishUpdate_settled net ?st] =>
        destruct (publishUpdate_settled_spec net st)
          as (s2 & -> & T & (_ & _ & _ & _ & Pb & _))
    end.
    exists s2. split; [reflexivity|]. split; [exact T|].
    rewrite Pb. cbn. apply publishes_app.
Qed.

Lemma flushing_publishes (s : State) :
  pendingUpdates (this s) <> [] ->
  publishes (flushing s)
  = match delta s with
    | [] => []
    | _ :: _ => [update_event s (delta s)]
    end.
Proof.
  intros Hp. unfold flushing.
  destruct (pendingUpdates (this s)); [contradiction|].
  now destruct (delta s).
Qed.

(** X14. What a flush publishes.  With updates pending, [flushUpdates]
    publishes the changes exported since the version marker, in one event,
    or nothing when there are none: the queued bytes themselves are never
    sent.  The marker then is the version of the document, also when
    nothing was published; nothing is left pending, no batch timer is
    recorded and the document is untouched.  With nothing pending it does
    nothing at all. *)
Theorem flush_publishes_delta (s : State) (net : string -> PromiseResult) :
  let s' := run (flushUpdates net) s in
  match pendingUpdates (this s) with
  | [] => s' = s
  | _ :: _ =>
      publishes (log s')
      = publishes (log s)
        ++ match delta s with
           | [] => []
           | _ :: _ => [update_event s (delta s)]
           end
      /\ lastExportedVersion (this s') = Some (doc_version (doc (this s)))
      /\ pendingUpdates (this s') = []
      /\ batchTimer (this s') = None
      /\ doc (this s') = doc (this s)
  end.
Proof.
  cbv zeta. unfold run.
  destruct (pendingUpdates (this s)) as [|u pending] eqn:Ep.
  - unfold flushUpdates, Js.bind. now rewrite (flushUpdates_send_idle s Ep).
  - assert (Hp : pendingUpdates (this s) <> [])
      by (rewrite Ep; discriminate).
    destruct (flushUpdates_run s net Hp) as (s' & -> & T & Pb).
    cbn [snd]. rewrite Pb, T, (flushing_publishes s Hp). cbn.
    repeat split.
Qed.

(** X15. Nothing is published twice.  Where the engine exports nothing
    since its own current version, a flush is followed by a silent one:
    if more updates are queued and flushed again while the document has not
    changed, the second flush publishes nothing. *)
Theorem flush_does_not_republish (s : State) (u : bytes)
  (net net' : string -> PromiseResult) :
  pendingUpdates (this s) <> [] ->
  doc_export_update (doc (this s)) (Some (doc_version (doc (this s)))) = [] ->
  let s1 := run (flushUpdates net) s in
  let s2 := run (flushUpdates net') (run (queueUpdate u) s1) in
  publishes (log s2) = publishes (log s1).
Proof.
  intros Hp Hlaw. cbv zeta. unfold run.
  destruct (flushUpdates_run s net Hp) as (s1 & -> & T1 & _). cbn [snd].
  assert (Q : exists q,
             queueUpdate u s1 = (inr tt, q)
             /\ pendingUpdates (this q) <> []
             /\ lastExportedVersion (this q) = lastExportedVersion (this s1)
             /\ doc (this q) = doc (this s1)
             /\ publishes (log q) = publishes (log s1)).
  { destruct (batchTimer (this s1)) as [t|] eqn:Eb.
    - rewrite (queueUpdate_armed s1 u t Eb). eexists.
      split; [reflexivity|]. cbn. repeat split.
      intros H. now apply app_eq_nil in H as [_ ?].
    - rewrite (queueUpdate_idle s1 u Eb). eexists.
      split; [reflexivity|]. cbn. rewrite publishes_app. cbn.
      rewrite app_nil_r. repeat split.
      intros H. now apply app_eq_nil in H as [_ ?]. }
  destruct Q as (q & -> & Pq & Mq & Dq & Lq). cbn [snd].
  destruct (flushUpdates_run q net' Pq) as (s2 & -> & _ & Pb). cbn [snd].
  rewrite Pb, Lq, (flushing_publishes q Pq). unfold delta.
  rewrite Mq, Dq, T1. cbn. rewrite Hlaw. apply app_nil_r.
Qed.

(** *** Connecting *)

Lemma connects_app l1 l2 : connects (l1 ++ l2) = connects l1 ++ connects l2.
Proof. unfold connects. now rewrite flat_map_app. Qed.

Lemma subscriptions_app l1 l2 :
  subscriptions (l1 ++ l2) = subscriptions l1 ++ subscriptions l2.
Proof. unfold subscriptions. now rewrite flat_map_app. Qed.

Lemma queries_app l1 l2 : queries (l1 ++ l2) = queries l1 ++ queries l2.
Proof. unfold queries. now rewrite flat_map_app. Qed.

Lemma same_link_refl (s : State) : same_link s s.
Proof. repeat split. Qed.

Lemma same_link_trans (s1 s2 s3 : State) :
  same_link s1 s2 -> same_link s2 s3 -> same_link s1 s3.
Proof.
  unfold same_link. intros (?&?&?&?) (?&?&?&?). repeat split; congruence.
Qed.

Ltac link :=
  unfold same_link; cbn;
  rewrite ?connects_app, ?subscriptions_app; cbn; rewrite ?app_nil_r;
  repeat split; reflexivity.

Lemma applyUpdate_link (e : NostrEvent) (s : State) :
  exists s', applyUpdate e s = (inr tt, s') /\ same_link s s'.
Proof.
  destruct (applyUpdate_cases e s)
    as [(_ & err & ->) | [(data & err & _ & _ & ->) | (data & d' & _ & _ & ->)]];
    eexists; (split; [reflexivity | link]).
Qed.

Lemma applySnapshot_link (e : NostrEvent) (s : State) :
  exists s', applySnapshot e s = (inr tt, s') /\ same_link s s'.
Proof.
  destruct (applySnapshot_cases e s)
    as [(_ & err & ->) | [(data & err & _ & _ & ->) | (data & d' & _ & _ & ->)]];
    eexists; (split; [reflexivity | link]).
Qed.

Lemma apply_updates_link (events : list NostrEvent) (s : State) :
  exists s',
    Js.for_each events
      (fun event => Js.when (kind event =? CRDT_UPDATE) (applyUpdate event)) s
    = (inr tt, s')
    /\ same_link s s'.
Proof.
  revert s. induction events as [|e events IH]; intros s; cbn.
  - exists s. split; [reflexivity | apply same_link_refl].
  - unfold Js.bind at 1. unfold Js.when at 1.
    destruct (kind e =? CRDT_UPDATE).
    + destruct (applyUpdate_link e s) as (s1 & -> & S1).
      destruct (IH s1) as (s2 & -> & S2).
      exists s2. split; [reflexivity|]. now apply (same_link_trans s s1).
    + cbn. apply IH.
Qed.

Lemma fetchHistory_link
  (snapshotQuery updateQuery : Js.Exn + list NostrEvent) (s : State) :
  exists s',
    fetchHistory snapshotQuery updateQuery s = (inr tt, s')
    /\ same_link s s'.
Proof.
  destruct snapshotQuery as [err|snaps].
  { unfold fetchHistory. js_run. cbn. eexists. split; [reflexivity | link]. }
  destruct updateQuery as [err|ups].
  { unfold fetchHistory. js_run. cbn. eexists. split; [reflexivity | link]. }
  unfold fetchHistory. js_run.
  cbn -[applySnapshot applyUpdate sort Js.for_each find].
  match goal with
  | |- context [Js.for_each ?l ?f] =>
      change f with
        (fun event => Js.when (kind event =? CRDT_UPDATE) (applyUpdate event))
  end.
  set (s0 := {| this := this s; now := now s; timers := timers s;
                nextTimer := nextTimer s; log := _ |}).
  assert (S0 : same_link s s0) by (subst s0; link).
  clearbody s0.
  destruct (find _ (sort (snaps ++ ups))) as [snapshot|].
  - destruct (applySnapshot_link snapshot s0) as (s1 & -> & S1).
    destruct (apply_updates_link (sort (snaps ++ ups)) s1)
      as (s2 & -> & S2).
    eexists. split; [reflexivity|].
    apply (same_link_trans s s0); [exact S0|].
    apply (same_link_trans s0 s1); [exact S1|].
    eapply same_link_trans; [exact S2 | link].
  - destruct (apply_updates_link (sort (snaps ++ ups)) s0)
      as (s2 & -> & S2).
    eexists. split; [reflexivity|].
    apply (same_link_trans s s0); [exact S0|].
    eapply same_link_trans; [exact S2 | link].
Qed.

(** X16. Connecting.  [connect] never throws, whatever the history queries
    come back with.  It opens two subscriptions scoped to the document:
    updates and snapshots, since the sync timestamp if there is one, and
    presence of the last minute.  Afterwards the provider is marked
    connected with an active subscription and ['connected'] was emitted
    exactly once, with the relays; a failing history fetch changes none of
    this.  With [syncOnConnect] off no history query is made and nothing is
    imported. *)
Theorem connect_outcome (s : State)
  (snapshotQuery updateQuery : Js.Exn + list NostrEvent) :
  let s' := run (connect snapshotQuery updateQuery) s in
  fst (connect snapshotQuery updateQuery s) = inr tt
  /\ isConnected (this s') = true
  /\ subscriptionId (this s') = Some "active"
  /\ subscriptions (log s')
     = subscriptions (log s) ++ [docFilter s; presenceFilter s]
  /\ connects (log s') = connects (log s) ++ [Relays (relays (this s))]
  /\ (syncOnConnect (this s) = false ->
      queries (log s') = queries (log s)
      /\ imports (log s') = imports (log s)).
Proof.
  cbv zeta. unfold run, connect, subscribe, docFilter, presenceFilter.
  js_run. cbn -[fetchHistory].
  destruct (syncOnConnect (this s)) eqn:Es.
  - match goal with
    | |- context [fetchHistory snapshotQuery updateQuery ?st] =>
        destruct (fetchHistory_link snapshotQuery updateQuery st)
          as (s' & -> & (L1 & L2 & L3 & L4))
    end.
    cbn [fst snd]. rewrite L1, L2, L3, L4. cbn.
    rewrite !subscriptions_app, !connects_app. cbn.
    rewrite !app_nil_r, <- !app_assoc. cbn.
    repeat split; try reflexivity; discriminate.
  - cbn. rewrite !subscriptions_app, !connects_app, !queries_app,
      !imports_app. cbn.
    rewrite !app_nil_r, <- !app_assoc. cbn. repeat split; reflexivity.
Qed.

End SessionFacts.

(** ** The listeners *)

Section ListenerFacts.
Import Provider Listeners.
Local Open Scope list_scope.

Lemma event_eqb_spec (a b : ProviderEventType) :
  reflect (a = b) (event_eqb a b).
Proof. destruct a, b; constructor; congruence. Qed.

Lemma get_set (e : ProviderEventType) (v : list Callback)
  (m : EventListeners) : get e (set e v m) = Some v.
Proof.
  induction m as [|[e' old] m IH]; cbn.
  - now destruct (event_eqb_spec e e).
  - destruct (event_eqb_spec e' e) as [->|Hne]; cbn.
    + now destruct (event_eqb_spec e e).
    + now destruct (event_eqb_spec e' e).
Qed.

Lemma get_set_other (e e0 : ProviderEventType) (v : list Callback)
  (m : EventListeners) : e0 <> e -> get e0 (set e v m) = get e0 m.
Proof.
  intros Hne. induction m as [|[e' old] m IH]; cbn.
  - now destruct (event_eqb_spec e e0); [congruence|].
  - destruct (event_eqb_spec e' e) as [->|He]; cbn.
    + destruct (event_eqb_spec e e0); [congruence|reflexivity].
    + now rewrite IH.
Qed.

Lemma set_twice (e : ProviderEventType) (v w : list Callback)
  (m : EventListeners) : set e v (set e w m) = set e v m.
Proof.
  induction m as [|[e' old] m IH]; cbn.
  - now destruct (event_eqb_spec e e).
  - destruct (event_eqb_spec e' e) as [->|Hne]; cbn.
    + now destruct (event_eqb_spec e e).
    + destruct (event_eqb_spec e' e); [contradiction|]. now rewrite IH.
Qed.

Lemma set_sets (e : ProviderEventType) (v : list Callback)
  (m : EventListeners) : NoDup v -> sets m -> sets (set e v m).
Proof.
  intros Hv. unfold sets. induction 1 as [|[e' old] m Hold Hm IH]; cbn.
  - repeat constructor. exact Hv.
  - destruct (event_eqb e' e); constructor; auto.
Qed.

Lemma get_sets (e : ProviderEventType) (m : EventListeners)
  (s : list Callback) : sets m -> get e m = Some s -> NoDup s.
Proof.
  unfold sets. induction 1 as [|[e' old] m Hold Hm IH]; cbn; [discriminate|].
  destruct (event_eqb e' e); [now intros [= <-] | exact IH].
Qed.

Lemma emit_on (e : ProviderEventType) (c : Callback) (m : EventListeners) :
  emit e (on e c m) = set_add c (emit e m).
Proof.
  unfold on, emit, has. destruct (get e m) as [s|] eqn:G.
  - now rewrite G, get_set.
  - now rewrite !get_set.
Qed.

Lemma emit_on_other (e e0 : ProviderEventType) (c : Callback)
  (m : EventListeners) : e0 <> e -> emit e0 (on e c m) = emit e0 m.
Proof.
  intros Hne. unfold on, emit, has. destruct (get e m) as [s|] eqn:G.
  - now rewrite G, get_set_other.
  - now rewrite get_set, !get_set_other.
Qed.

Lemma emit_off (e : ProviderEventType) (c : Callback) (m : EventListeners) :
  emit e (off e c m) = set_delete c (emit e m).
Proof.
  unfold off, emit. destruct (get e m) as [s|] eqn:G.
  - now rewrite get_set.
  - now rewrite G.
Qed.

Lemma emit_off_other (e e0 : ProviderEventType) (c : Callback)
  (m : EventListeners) : e0 <> e -> emit e0 (off e c m) = emit e0 m.
Proof.
  intros Hne. unfold off, emit. destruct (get e m) as [s|] eqn:G;
    [now rewrite get_set_other | reflexivity].
Qed.

Lemma set_add_NoDup (c : Callback) (s : list Callback) :
  NoDup s -> NoDup (set_add c s) /\ In c (set_add c s).
Proof.
  intros H. unfold set_add.
  destruct (existsb (Pos.eqb c) s) eqn:E.
  - split; [exact H|]. apply existsb_exists in E as (x & Hx & Ex).
    apply Pos.eqb_eq in Ex. now subst.
  - split; [|apply in_or_app; right; now left].
    apply NoDup_app; [exact H | repeat constructor; intros [] |].
    intros x Hx [<-|[]].
    assert (existsb (Pos.eqb c) s = true); [|congruence].
    apply existsb_exists. exists c. split; [exact Hx | apply Pos.eqb_refl].
Qed.

Lemma set_add_twice (c : Callback) (s : list Callback) :
  set_add c (set_add c s) = set_add c s.
Proof.
  unfold set_add, Callback in *.
  destruct (existsb (Pos.eqb c) s) eqn:E.
  - now rewrite E.
  - rewrite existsb_app, E. cbn. now rewrite Pos.eqb_refl.
Qed.

Lemma on_as_set (e : ProviderEventType) (c : Callback) (m : EventListeners) :
  on e c m = set e (set_add c (emit e m)) m.
Proof.
  unfold on, has, emit. destruct (get e m) as [s|] eqn:G.
  - now rewrite G.
  - rewrite get_set. apply set_twice.
Qed.

Lemma on_twice (e : ProviderEventType) (c : Callback) (m : EventListeners) :
  on e c (on e c m) = on e c m.
Proof.
  rewrite (on_as_set e c (on e c m)), emit_on, set_add_twice.
  rewrite on_as_set. apply set_twice.
Qed.

Lemma on_sets (e : ProviderEventType) (c : Callback) (m : EventListeners) :
  sets m -> sets (on e c m).
Proof.
  intros H. unfold on, has. destruct (get e m) as [s|] eqn:G.
  - rewrite G. apply set_sets; [|exact H].
    apply set_add_NoDup. now apply (get_sets e m).
  - rewrite get_set. apply set_sets; [repeat constructor; intros []|].
    apply set_sets; [constructor | exact H].
Qed.

Lemma off_sets (e : ProviderEventType) (c : Callback) (m : EventListeners) :
  sets m -> sets (off e c m).
Proof.
  intros H. unfold off. destruct (get e m) as [s|] eqn:G; [|exact H].
  apply set_sets; [|exact H]. apply NoDup_filter. now apply (get_sets e m).
Qed.

(** X17. Registering and removing listeners.  Where every set of callbacks
    holds a callback once: after [on(event, callback)] an [emit] of that
    event calls the callback exactly once, after the callbacks that were
    registered before it, even if it is registered again; after
    [off(event, callback)] it is not called and the others still are, in
    the same order; neither changes who is called for another event; both
    keep the sets free of duplicates; and after [destroy] nobody is
    called. *)
Theorem listeners_contract (m : EventListeners) (e : ProviderEventType)
  (c : Callback) :
  sets m ->
  emit e (on e c m)
  = (if existsb (Pos.eqb c) (emit e m) then emit e m else emit e m ++ [c])
  /\ count_occ Pos.eq_dec (emit e (on e c m)) c = 1%nat
  /\ on e c (on e c m) = on e c m
  /\ emit e (off e c m) = filter (fun x => negb (Pos.eqb x c)) (emit e m)
  /\ ~ In c (emit e (off e c m))
  /\ (forall e0, e0 <> e ->
        emit e0 (on e c m) = emit e0 m /\ emit e0 (off e c m) = emit e0 m)
  /\ sets (on e c m) /\ sets (off e c m)
  /\ (forall e0, emit e0 (clear m) = []).
Proof.
  intros H.
  assert (Hnd : NoDup (emit e m)).
  { unfold emit. destruct (get e m) as [s|] eqn:G; [|constructor].
    now apply (get_sets e m). }
  split; [apply emit_on|]. split; [|split; [|split; [|split; [|split]]]].
  - rewrite emit_on. destruct (set_add_NoDup c (emit e m) Hnd) as [N I].
    apply NoDup_count_occ' with (decA := Pos.eq_dec); assumption.
  - apply on_twice.
  - apply emit_off.
  - rewrite emit_off. unfold set_delete. intros Hin.
    apply filter_In in Hin as [_ Hc]. now rewrite Pos.eqb_refl in Hc.
  - intros e0 Hne. split; [now apply emit_on_other|now apply emit_off_other].
  - split; [now apply on_sets|]. split; [now apply off_sets | reflexivity].
Qed.

End ListenerFacts.

(** ** The participants and relays of the stores *)

Section StoreExtFacts.
Import Provider StoreExt.
Local Open Scope string_scope.
Local Open Scope list_scope.

Lemma filter_keys_NoDup {A} (key : A -> string) (p : A -> bool)
  (l : list A) : NoDup (map key l) -> NoDup (map key (filter p l)).
Proof.
  induction l as [|x l IH]; cbn; [auto|].
  intros H. inversion_clear H as [|? ? Hx Hl].
  destruct (p x); cbn; [|auto]. constructor; [|auto].
  intros Hin. apply Hx. apply in_map_iff in Hin as (y & E & Hy).
  apply filter_In in Hy as [Hy _]. rewrite <- E. now apply in_map.
Qed.

Lemma filter_other_keys {A} (key : A -> string) (k : string) (l : list A) :
  ~ In k (map key (filter (fun x => negb (String.eqb (key x) k)) l)).
Proof.
  intros Hin. apply in_map_iff in Hin as (y & E & Hy).
  apply filter_In in Hy as [_ Hy]. now rewrite E, String.eqb_refl in Hy.
Qed.


Lemma find_url (url : string) (rs : list Store.NostrRelay) :
  match find (fun r => String.eqb (Store.url r) url) rs with
  | Some _ => In url (map Store.url rs)
  | None => ~ In url (map Store.url rs)
  end.
Proof.
  destruct (find _ rs) as [r|] eqn:F.
  - apply find_some in F as [Hin E]. apply String.eqb_eq in E.
    rewrite <- E. now apply in_map.
  - intros Hin. apply in_map_iff in Hin as (r & E & Hr).
    apply (find_none _ _ F) in Hr. cbn in Hr.
    now rewrite E, String.eqb_refl in Hr.
Qed.

Lemma relay_op_urls (st : Store.NostrState) (o : RelayOp) :
  NoDup (urls st) -> NoDup (urls (relay_op st o)).
Proof.
  intros H. destruct o as [url | url | url status]; cbn.
  - unfold addRelay. pose proof (find_url url (Store.relays st)) as F.
    destruct (find _ (Store.relays st)); [exact H|].
    unfold urls. cbn. rewrite map_app. cbn.
    apply NoDup_app; [exact H | repeat constructor; intros [] |].
    intros k Hk [<-|[]]. contradiction.
  - unfold urls. cbn. now apply filter_keys_NoDup.
  - unfold urls. cbn. rewrite map_map.
    erewrite map_ext; [exact H|].
    intros r. cbn. now destruct (String.eqb (Store.url r) url).
Qed.

(** X19. The relays of the Nostr store.  The default relays are distinct,
    and whatever relays are added, removed or given a status, the urls stay
    distinct.  [addRelay] of a url that is there changes nothing, its
    status included; of a new url it adds the relay last, disconnected.
    After [removeRelay] the url is gone.  [updateRelayStatus] keeps the
    urls and their order. *)
Theorem relays_keyed (st : Store.NostrState) (url : string)
  (status : Store.RelayStatus) (ops : list RelayOp) :
  NoDup (map Store.url Store.DEFAULT_RELAYS)
  /\ (NoDup (urls st) -> NoDup (urls (fold_left relay_op ops st)))
  /\ (In url (urls st) -> addRelay url st = st)
  /\ (~ In url (urls st) ->
      Store.relays (addRelay url st)
      = Store.relays st
        ++ [ {| Store.url := url; Store.status := Store.disconnected |} ])
  /\ In url (urls (addRelay url st))
  /\ ~ In url (urls (removeRelay url st))
  /\ urls (updateRelayStatus url status st) = urls st.
Proof.
  split; [|split; [|split; [|split; [|split; [|split]]]]].
  - repeat constructor; cbn; intuition discriminate.
  - revert st. induction ops as [|o ops IH]; intros st H; cbn; [exact H|].
    apply IH. now apply relay_op_urls.
  - intros Hin. unfold addRelay.
    pose proof (find_url url (Store.relays st)) as F.
    destruct (find _ (Store.relays st)); [reflexivity | contradiction].
  - intros Hnot. unfold addRelay.
    pose proof (find_url url (Store.relays st)) as F.
    destruct (find _ (Store.relays st)); [contradiction | reflexivity].
  - unfold addRelay. pose proof (find_url url (Store.relays st)) as F.
    destruct (find _ (Store.relays st)); [exact F|].
    unfold urls. cbn. rewrite map_app. apply in_or_app. right. now left.
  - apply (filter_other_keys Store.url).
  - unfold urls. cbn. rewrite map_map. apply map_ext.
    intros r. cbn. now destruct (String.eqb (Store.url r) url).
Qed.

End StoreExtFacts.

(** ** Generated keys, stored keys and the provider's key *)

Section KeyFacts.
Import Store StoreExt ProviderExt.
Context {tools : NostrTools} {loro : LoroDoc}.
Local Open Scope string_scope.
Local Open Scope list_scope.

Lemma pieces_hex_nonempty (b : byte) (data : bytes) :
  pieces (list_ascii_of_string (hex_of_bytes (b :: data))) <> [].
Proof.
  rewrite hex_of_bytes_cons.
  destruct (byte_hex_chars b) as (c1 & c2 & -> & H1 & H2 & _).
  cbn [append list_ascii_of_string pieces]. rewrite H1, H2. discriminate.
Qed.

(** X20. A generated key, imported again.  When [generateKeys] has stored a
    key pair for a secret key of at least one byte, [importKeys] of the
    stored private key text succeeds and leaves the store exactly as it is:
    the same text and the same public key. *)
Theorem generated_key_imports_back (random : bytes) (st st1 : Store) :
  random <> [] ->
  generateKeys random st = (inr tt, st1) ->
  exists pub,
    keys (state st1)
    = Some {| publicKey := pub; privateKey := hex_of_bytes random |}
    /\ importKeys (hex_of_bytes random) st1 = (inr tt, st1).
Proof.
  intros Hne. unfold generateKeys, set_keys, Js.bind, Js.lift, Js.modify.
  destruct (getPublicKey random) as [e|pub] eqn:G; [discriminate|].
  intros [= <-]. exists pub. split; [reflexivity|].
  destruct random as [|b random]; [contradiction|].
  unfold importKeys, set_keys, Js.try_catch, Js.bind, Js.lift, Js.ret,
    Js.modify.
  rewrite hex_of_bytes_not_nsec.
  destruct (pieces (list_ascii_of_string (hex_of_bytes (b :: random))))
    as [|m ms] eqn:Ep; [now apply pieces_hex_nonempty in Ep|].
  rewrite <- Ep, key_bytes_hex, G. reflexivity.
Qed.

(** X21. The stored identity is the provider's identity.  When [importKeys]
    has stored a key pair whose private key text has an even number of
    characters and no line terminator, as the text decoded from an [nsec]
    always has, a provider constructed with the stored text is constructed
    without error and signs with the stored public key. *)
Theorem stored_key_is_provider_key (input : string) (st st1 : Store)
  (d : Doc) (options : Options) (random : bytes) :
  importKeys input st = (inr tt, st1) ->
  exists k,
    keys (state st1) = Some k
    /\ (even_text (privateKey k) ->
        opt_privateKey options = Some (privateKey k) ->
        exists s,
          construct d options random = inr s
          /\ Provider.publicKey (Provider.this s) = publicKey k)
    /\ (forall data,
          String.prefix "nsec" input = true ->
          nip19_decode input = inr (Nsec data) ->
          even_text (privateKey k)).
Proof.
  intros Himp.
  destruct (importKeys_cases input st)
    as [(e & E) | (hexKey & pub & Hhex & N & Hpub & E)];
    rewrite E in Himp; [discriminate|].
  injection Himp as <-. eexists. split; [reflexivity|]. cbn [privateKey publicKey].
  split.
  - intros Heven Hopt.
    assert (Hne : String.eqb hexKey "" = false).
    { destruct hexKey; [|reflexivity]. exfalso. now apply N. }
    unfold construct. rewrite Hopt, Hne, <- (key_bytes_even hexKey Heven), Hpub.
    eexists. split; reflexivity.
  - intros data Pn Dn. unfold hex_text in Hhex. rewrite Pn, Dn in Hhex.
    injection Hhex as <-. apply hex_of_bytes_even.
Qed.

End KeyFacts.

(** ** The list of recent documents *)

Section DocumentFacts.
Import Documents.
Local Open Scope string_scope.
Local Open Scope list_scope.

Lemma firstn_In {A} (n : nat) (l : list A) (x : A) :
  In x (firstn n l) -> In x l.
Proof.
  intros H. rewrite <- (firstn_skipn n l). apply in_or_app. now left.
Qed.

Lemma firstn_NoDup {A} (n : nat) (l : list A) :
  NoDup l -> NoDup (firstn n l).
Proof.
  intros H. rewrite <- (firstn_skipn n l) in H.
  now apply NoDup_app_remove_r in H.
Qed.

(** X22. The recent documents.  [addDocument] puts the document first, with
    the new title and time, and nowhere else in the list; the list never
    holds more than 20 documents; the other documents are those that were
    there, in the same order, the oldest dropped when there is no room and
    none dropped when there is; distinct identifiers stay distinct.  After
    [removeDocument] the identifier is gone. *)
Theorem recent_documents (i t : string) (now : Z) (prev : list Entry) :
  let entry := {| id := i; title := t; lastOpened := now |} in
  let others := filter (fun d => negb (String.eqb (id d) i)) prev in
  addDocument i t now prev = entry :: firstn 19 others
  /\ (List.length (addDocument i t now prev) <= 20)%nat
  /\ ~ In i (map id (tl (addDocument i t now prev)))
  /\ ((List.length prev < 20)%nat ->
      addDocument i t now prev = entry :: others)
  /\ (NoDup (map id prev) -> NoDup (map id (addDocument i t now prev)))
  /\ removeDocument i prev = others
  /\ ~ In i (map id (removeDocument i prev)).
Proof.
  cbv zeta. unfold addDocument, removeDocument.
  set (others := filter (fun d => negb (String.eqb (id d) i)) prev).
  assert (Hout : ~ In i (map id others))
    by apply (filter_other_keys id).
  assert (Hlen : (List.length others <= List.length prev)%nat)
    by apply filter_length_le.
  assert (Hnd : NoDup (map id prev) -> NoDup (map id others))
    by apply filter_keys_NoDup.
  clearbody others.
  change (firstn 20 ({| id := i; title := t; lastOpened := now |} :: others))
    with ({| id := i; title := t; lastOpened := now |} :: firstn 19 others).
  assert (Hrest : ~ In i (map id (firstn 19 others))).
  { intros Hin. apply Hout.
    apply in_map_iff in Hin as (d & E & Hd). apply firstn_In in Hd.
    rewrite <- E. now apply in_map. }
  split; [reflexivity|]. split; [|split; [|split; [|split; [|split]]]].
  - cbn [List.length]. rewrite length_firstn. lia.
  - exact Hrest.
  - intros Hlt. f_equal. apply firstn_all2. lia.
  - intros H. cbn [map]. constructor; [exact Hrest|].
    rewrite <- firstn_map. apply firstn_NoDup. auto.
  - reflexivity.
  - exact Hout.
Qed.

End DocumentFacts.

(** ** The running example, continued *)

Section SampleExtFacts.
Import Provider ProviderExt.
Local Open Scope string_scope.
Local Open Scope list_scope.
Local Open Scope Z_scope.

Lemma update_reaches_peer_witness :
  publicKey (this SampleExt.other) <> publicKey (this Sample.connected)
  /\ imports (log (run (handleEvent
                          (update_event Sample.connected [x01; x02; x03]))
                     SampleExt.other))
     = [[x01; x02; x03]].
Proof.
  assert (H : publicKey (this SampleExt.other)
              <> publicKey (this Sample.connected)) by discriminate.
  split; [exact H|].
  destruct (update_reaches_peer Sample.connected SampleExt.other
              [x01; x02; x03] Sample.all_reject H) as (_ & I & _).
  exact I.
Defined.

Lemma snapshot_publish_outcome_witness :
  publicKey (this SampleExt.other) <> publicKey (this Sample.connected)
  /\ imports (log (run (handleEvent (snapshot_event Sample.connected))
                     SampleExt.other))
     = [[x01; x02]]
  /\ List.length
       (notifications
          (log (run (publishSnapshot SampleExt.some_accept) Sample.connected)))
     = S (List.length (notifications (log Sample.connected))).
Proof.
  assert (H : publicKey (this SampleExt.other)
              <> publicKey (this Sample.connected)) by discriminate.
  split; [exact H|].
  destruct (snapshot_publish_outcome Sample.connected SampleExt.other
              SampleExt.some_accept) as (_ & _ & _ & N & I).
  split; [exact (I H)|]. rewrite N, length_app. cbn. lia.
Defined.

Lemma presence_reaches_peer_witness :
  publicKey (this SampleExt.other) <> publicKey (this Sample.connected)
  /\ option_map part_name
       (map_get Sample.me
          (awareness
             (this (run (handleEvent
                           (presence_event Sample.connected (Some "Bob")
                              (Some SampleExt.cursor)))
                      SampleExt.other))))
     = Some (Some "Bob").
Proof.
  assert (H : publicKey (this SampleExt.other)
              <> publicKey (this Sample.connected)) by discriminate.
  split; [exact H|].
  destruct (presence_reaches_peer Sample.connected SampleExt.other
              (Some "Bob") (Some SampleExt.cursor) H) as (_ & _ & G & _).
  change (publicKey (this Sample.connected)) with Sample.me in G.
  now rewrite G.
Defined.

Lemma connect_outcome_witness :
  syncOnConnect (this SampleExt.quiet) = false
  /\ queries (log (run (connect (inr Sample.snapshots) (inr Sample.updates))
                     SampleExt.quiet)) = []
  /\ isConnected
       (this (run (connect (inr Sample.snapshots) (inr Sample.updates))
                SampleExt.quiet)) = true.
Proof.
  assert (H : syncOnConnect (this SampleExt.quiet) = false) by reflexivity.
  split; [exact H|].
  destruct (connect_outcome SampleExt.quiet (inr Sample.snapshots)
              (inr Sample.updates)) as (_ & C & _ & _ & _ & Q).
  split; [exact (proj1 (Q H)) | exact C].
Defined.

Lemma presence_upsert_witness :
  NoDup (identities SampleExt.other)
  /\ NoDup (identities
              (run (handlePresence
                      (presence_event Sample.connected None None))
                 SampleExt.other)).
Proof.
  assert (H : NoDup (identities SampleExt.other)) by constructor.
  split; [exact H|].
  pose proof (presence_upsert (presence_event Sample.connected None None)
                SampleExt.other) as U.
  cbv zeta in U. cbn [content presence_event] in U.
  destruct U as (_ & _ & _ & N & _). exact (N H).
Defined.

Lemma history_applies_earliest_snapshot_witness :
  Forall (fun e => kind e = DOCUMENT_SNAPSHOT) SampleExt.two_snapshots
  /\ Forall (fun e => kind e = CRDT_UPDATE) Sample.updates
  /\ imports (log (run (fetchHistory (inr SampleExt.two_snapshots)
                          (inr Sample.updates)) Sample.fresh))
     = [[x52]; [x01]; [x02]; [x03]].
Proof.
  assert (H1 : Forall (fun e => kind e = DOCUMENT_SNAPSHOT)
                 SampleExt.two_snapshots) by (repeat constructor).
  assert (H2 : Forall (fun e => kind e = CRDT_UPDATE) Sample.updates)
    by (repeat constructor).
  split; [exact H1|]. split; [exact H2|].
  destruct (history_applies_earliest_snapshot Sample.fresh
              SampleExt.two_snapshots Sample.updates H1 H2) as [I _].
  exact I.
Defined.

Lemma flush_does_not_republish_witness :
  pendingUpdates (this Sample.busy) <> []
  /\ doc_export_update (doc (this Sample.busy))
       (Some (doc_version (doc (this Sample.busy)))) = []
  /\ List.length
       (publishes
          (log (run (flushUpdates Sample.all_reject)
                  (run (queueUpdate [x09])
                     (run (flushUpdates Sample.all_reject) Sample.busy)))))
     = 1%nat.
Proof.
  assert (H1 : pendingUpdates (this Sample.busy) <> []) by discriminate.
  assert (H2 : doc_export_update (doc (this Sample.busy))
                 (Some (doc_version (doc (this Sample.busy)))) = [])
    by reflexivity.
  split; [exact H1|]. split; [exact H2|].
  pose proof (flush_does_not_republish Sample.busy [x09] Sample.all_reject
                Sample.all_reject H1 H2) as R.
  cbv zeta in R. now rewrite R.
Defined.

Lemma listeners_contract_witness :
  Listeners.sets []
  /\ Listeners.emit Update
       (Listeners.on Update 2%positive (Listeners.on Update 1%positive []))
     = [1%positive; 2%positive].
Proof.
  assert (H : Listeners.sets []) by constructor.
  split; [exact H|].
  assert (H1 : Listeners.sets (Listeners.on Update 1%positive [])).
  { now destruct (listeners_contract [] Update 1%positive H)
      as (_ & _ & _ & _ & _ & _ & S & _). }
  destruct (listeners_contract (Listeners.on Update 1%positive []) Update
              2%positive H1) as (E & _).
  exact E.
Defined.


Lemma relays_keyed_witness :
  NoDup (StoreExt.urls (Store.state Store.initial))
  /\ NoDup (StoreExt.urls
              (fold_left StoreExt.relay_op
                 [StoreExt.Add "wss://nos.lol"; StoreExt.Add "wss://a.example";
                  StoreExt.Remove "wss://relay.damus.io"]
                 (Store.state Store.initial))).
Proof.
  destruct (relays_keyed (Store.state Store.initial) "wss://nos.lol"
              Store.connected
              [StoreExt.Add "wss://nos.lol"; StoreExt.Add "wss://a.example";
               StoreExt.Remove "wss://relay.damus.io"]) as (D & N & _).
  split; [exact D | exact (N D)].
Defined.

Lemma generated_key_imports_back_witness :
  SampleExt.secret <> []
  /\ StoreExt.generateKeys (tools := Sample.tools) SampleExt.secret
       Store.initial = (inr tt, SampleExt.with_generated)
  /\ Store.importKeys (tools := Sample.tools)
       (Store.hex_of_bytes SampleExt.secret) SampleExt.with_generated
     = (inr tt, SampleExt.with_generated).
Proof.
  assert (H1 : SampleExt.secret <> []) by discriminate.
  assert (H2 : StoreExt.generateKeys (tools := Sample.tools) SampleExt.secret
                 Store.initial = (inr tt, SampleExt.with_generated))
    by reflexivity.
  split; [exact H1|]. split; [exact H2|].
  destruct (generated_key_imports_back (tools := Sample.tools)
              SampleExt.secret Store.initial SampleExt.with_generated H1 H2)
    as (pub & _ & I).
  exact I.
Defined.

Lemma stored_key_is_provider_key_witness :
  Store.importKeys (tools := Sample.tools)
    (Store.hex_of_bytes SampleExt.secret) Store.initial
  = (inr tt, SampleExt.with_generated)
  /\ exists s,
       construct (tools := Sample.tools) (loro := OpLog.doc) []
         SampleExt.options [] = inr s
       /\ option_map Store.publicKey
            (Store.keys (Store.state SampleExt.with_generated))
          = Some (publicKey (this s)).
Proof.
  assert (H : Store.importKeys (tools := Sample.tools)
                (Store.hex_of_bytes SampleExt.secret) Store.initial
              = (inr tt, SampleExt.with_generated)) by reflexivity.
  split; [exact H|].
  destruct (stored_key_is_provider_key (tools := Sample.tools)
              (loro := OpLog.doc) _ _ _ [] SampleExt.options [] H)
    as (k & K & C & _).
  destruct C as (s & Cs & Ps).
  - injection K as <-. split; [reflexivity | repeat constructor].
  - injection K as <-. reflexivity.
  - exists s. split; [exact Cs|]. rewrite K. cbn. now rewrite Ps.
Defined.

Lemma recent_documents_witness :
  (List.length SampleExt.recent < 20)%nat
  /\ NoDup (map Documents.id SampleExt.recent)
  /\ map Documents.id (Documents.addDocument "doc-2" "Plan B" 20 SampleExt.recent)
     = ["doc-2"; "doc-1"].
Proof.
  assert (H1 : (List.length SampleExt.recent < 20)%nat) by (cbn; lia).
  assert (H2 : NoDup (map Documents.id SampleExt.recent)).
  { repeat constructor; cbn; intuition discriminate. }
  split; [exact H1|]. split; [exact H2|].
  destruct (recent_documents "doc-2" "Plan B" 20 SampleExt.recent)
    as (_ & _ & _ & E & _).
  now rewrite (E H1).
Defined.

End SampleExtFacts.
